(** * VCS capture and scaler units: a shallow embedding and its properties

    The development follows [src/capture/capture.cpp],
    [src/scaler/scaler.cpp] and the collecting of the filter chains in
    [src/display/qt/dialogs/filter_graph_dialog.cpp].  The file-level statics
    of each unit become the fields of one state record; every function of
    the unit becomes a function on that record.  Calls into the RGBEasy API
    go through the [RGBEasy] class, and every call that reaches the device is
    appended to a log, so that "what was written to the card" is a value one
    can state theorems about.  A failed [k_assert] ends the program:
    functions that can reach one return [None].  Console logging ([INFO],
    [DEBUG], [NBENE]) has no effect on any state modelled here and is left
    out. *)

From Stdlib Require Import ZArith List String Ascii Bool Lia.
From Stdlib Require Import Permutation Sorted DecimalString DecimalN DecimalPos DecimalZ.
Import ListNotations.
Local Open Scope Z_scope.

(** ** Machine integers *)

Module Int.

(** [unsigned int] and [u32]: arithmetic modulo 2^32. *)
Definition u32_modulus : Z := 2 ^ 32.
Definition wrap_u32 (z : Z) : Z := z mod u32_modulus.
Definition is_u32 (z : Z) : Prop := 0 <= z < u32_modulus.

(** The conversion [(int)x] of a [long]: the value is kept when it fits,
    and reduced modulo 2^32 into the signed range otherwise. *)
Definition to_int (z : Z) : Z := (z + 2 ^ 31) mod 2 ^ 32 - 2 ^ 31.
Definition is_int (z : Z) : Prop := - 2 ^ 31 <= z < 2 ^ 31.

(** The width of [unsigned long] depends on the platform the program is
    built for: 32 bits under Windows, 64 bits under 64-bit Linux. *)
Inductive long_width : Type := long_32_bits | long_64_bits.

Definition ulong_modulus (width : long_width) : Z :=
  match width with
  | long_32_bits => 2 ^ 32
  | long_64_bits => 2 ^ 64
  end.

Definition wrap_ulong (width : long_width) (z : Z) : Z := z mod ulong_modulus width.

End Int.
Import Int.

(** ** Data model *)

Module Types.

(** [resolution_s]: the fields are [unsigned long]. *)
Record resolution_s : Type := mk_resolution { w : Z; h : Z; bpp : Z }.

Record mode_alias_s : Type := mk_alias { from : resolution_s; to : resolution_s }.

(** [input_video_settings_s] and [input_color_settings_s]: the fields are
    [long], as the RGBEasy getters fill them. *)
Record input_video_settings_s : Type := mk_video
  { horScale : Z; horPos : Z; verPos : Z; phase : Z; blackLevel : Z }.

Record input_color_settings_s : Type := mk_color
  { bright : Z; contr : Z;
    redBright : Z; redContr : Z;
    greenBright : Z; greenContr : Z;
    blueBright : Z; blueContr : Z }.

Record mode_params_s : Type := mk_mode
  { r : resolution_s; color : input_color_settings_s; video : input_video_settings_s }.

(** [heap_bytes_s<u8>]: [None] is the null buffer. *)
Record captured_frame_s : Type := mk_frame
  { frame_r : resolution_s; pixels : option (list Z) }.

Inductive capture_event_e : Type :=
| CEVENT_NONE
| CEVENT_NEW_FRAME
| CEVENT_NEW_VIDEO_MODE
| CEVENT_NO_SIGNAL
| CEVENT_INVALID_SIGNAL
| CEVENT_SLEEP
| CEVENT_UNRECOVERABLE_ERROR.

(** The value [{0}] of each settings struct. *)
Definition zero_video : input_video_settings_s := mk_video 0 0 0 0 0.
Definition zero_color : input_color_settings_s := mk_color 0 0 0 0 0 0 0 0.

End Types.
Import Types.

(** ** The RGBEasy device *)

Module Device.

(** The parameters the API reads with [RGBGet<Param>], and the four readings
    of each: the value in force, and the card's default, minimum and
    maximum. *)
Inductive rgb_param : Type :=
| Phase | BlackLevel | HorPosition | VerPosition | HorScale
| Brightness | Contrast
| CaptureWidth | CaptureHeight.

Inductive rgb_reading : Type := Current | Default | Minimum | Maximum.

(** The six values of [RGBGetColourBalance], in the order of its arguments. *)
Record colour_balance : Type := mk_balance
  { cb_redBright : Z; cb_greenBright : Z; cb_blueBright : Z;
    cb_redContr : Z; cb_greenContr : Z; cb_blueContr : Z }.

(** The API calls of the capture unit that act on the card. *)
Inductive rgb_call : Type :=
| RGBSetPhase (v : Z)
| RGBSetBlackLevel (v : Z)
| RGBSetHorScale (v : Z)
| RGBSetHorPosition (v : Z)
| RGBSetVerPosition (v : Z)
| RGBSetBrightness (v : Z)
| RGBSetContrast (v : Z)
| RGBSetColourBalance (b : colour_balance)
| RGBTestCaptureWidth (width : Z)
| RGBSetCaptureWidth (width : Z)
| RGBSetCaptureHeight (height : Z)
| RGBSetOutputSize (width height : Z)
| RGBInvalidSignal (horClock verClock : Z)
| RGBNoSignal.

(** A device: its state, what the getters report in a state ([None] when
    the call returns an error code), and what a call does to the state,
    with whether it returned [RGBERROR_NO_ERROR]. *)
Class RGBEasy : Type := {
  card : Type;
  rgb_get : card -> rgb_reading -> rgb_param -> option Z;
  rgb_get_colour_balance : card -> rgb_reading -> option colour_balance;
  rgb_get_output_size : card -> option (Z * Z);
  rgb_do : card -> rgb_call -> card * bool
}.

(** Calls the capture unit makes into the other units of the program. *)
Inductive ext_call : Type :=
| kd_update_gui_video_params
| kd_signal_new_known_mode (res : resolution_s)
| kd_clear_known_aliases
| kd_signal_new_known_alias (a : mode_alias_s)
| kmain_change_capture_input_resolution (res : resolution_s)
| kpropagate_new_input_video_mode
| kd_show_headless_error_message (title : string).

End Device.
Import Device.

(** ** The capture unit: state *)

Module Capture.

(** [CNT_FRAMES_PROCESSED], [CNT_FRAMES_CAPTURED], [CNT_FRAMES_SKIPPED]:
    [std::atomic<unsigned int>]. *)
Record counters_s : Type := mk_counters
  { CNT_FRAMES_PROCESSED : Z; CNT_FRAMES_CAPTURED : Z; CNT_FRAMES_SKIPPED : Z }.

(** The signal flags of the unit. *)
Record signal_s : Type := mk_signal
  { UNRECOVERABLE_CAPTURE_ERROR : bool;
    RECEIVED_NEW_VIDEO_MODE : bool;
    SIGNAL_WAS_LOST : bool;
    RECEIVING_A_SIGNAL : bool;
    SIGNAL_BECAME_INVALID : bool;
    SIGNAL_IS_INVALID : bool;
    SIGNAL_WOKE_UP : bool }.

(** What the frame callback receives: [LPBITMAPINFOHEADER frameInfo] and
    [void *frameData], each possibly null. *)
Record BITMAPINFOHEADER : Type := mk_info
  { biWidth : Z; biHeight : Z; biBitCount : Z }.

Definition MAX_BIT_DEPTH : Z := 32.

Section WithDevice.
Context {dev : RGBEasy}.

(** The statics of capture.cpp, the global [PROGRAM_EXIT_REQUESTED], the
    card behind [CAPTURE_HANDLE], and the two logs. *)
Record capture_s : Type := mk_capture
  { counters : counters_s;
    signal : signal_s;
    FRAME_BUFFER : captured_frame_s;
    SKIP_NEXT_NUM_FRAMES : Z;
    KNOWN_MODES : list mode_params_s;
    ALIASES : list mode_alias_s;
    IS_ALIASED_INPUT_RESOLUTION : bool;
    CAPTURE_COLOR_DEPTH : Z;
    PROGRAM_EXIT_REQUESTED : bool;
    hw : card;
    api_log : list rgb_call;
    ext_log : list ext_call }.

Definition set_counters (c : counters_s) (s : capture_s) : capture_s :=
  mk_capture c (signal s) (FRAME_BUFFER s) (SKIP_NEXT_NUM_FRAMES s)
    (KNOWN_MODES s) (ALIASES s) (IS_ALIASED_INPUT_RESOLUTION s)
    (CAPTURE_COLOR_DEPTH s) (PROGRAM_EXIT_REQUESTED s) (hw s) (api_log s) (ext_log s).

Definition set_signal (g : signal_s) (s : capture_s) : capture_s :=
  mk_capture (counters s) g (FRAME_BUFFER s) (SKIP_NEXT_NUM_FRAMES s)
    (KNOWN_MODES s) (ALIASES s) (IS_ALIASED_INPUT_RESOLUTION s)
    (CAPTURE_COLOR_DEPTH s) (PROGRAM_EXIT_REQUESTED s) (hw s) (api_log s) (ext_log s).

Definition set_FRAME_BUFFER (f : captured_frame_s) (s : capture_s) : capture_s :=
  mk_capture (counters s) (signal s) f (SKIP_NEXT_NUM_FRAMES s)
    (KNOWN_MODES s) (ALIASES s) (IS_ALIASED_INPUT_RESOLUTION s)
    (CAPTURE_COLOR_DEPTH s) (PROGRAM_EXIT_REQUESTED s) (hw s) (api_log s) (ext_log s).

Definition set_SKIP_NEXT_NUM_FRAMES (n : Z) (s : capture_s) : capture_s :=
  mk_capture (counters s) (signal s) (FRAME_BUFFER s) n
    (KNOWN_MODES s) (ALIASES s) (IS_ALIASED_INPUT_RESOLUTION s)
    (CAPTURE_COLOR_DEPTH s) (PROGRAM_EXIT_REQUESTED s) (hw s) (api_log s) (ext_log s).

Definition set_KNOWN_MODES (l : list mode_params_s) (s : capture_s) : capture_s :=
  mk_capture (counters s) (signal s) (FRAME_BUFFER s) (SKIP_NEXT_NUM_FRAMES s)
    l (ALIASES s) (IS_ALIASED_INPUT_RESOLUTION s)
    (CAPTURE_COLOR_DEPTH s) (PROGRAM_EXIT_REQUESTED s) (hw s) (api_log s) (ext_log s).

Definition set_ALIASES (l : list mode_alias_s) (s : capture_s) : capture_s :=
  mk_capture (counters s) (signal s) (FRAME_BUFFER s) (SKIP_NEXT_NUM_FRAMES s)
    (KNOWN_MODES s) l (IS_ALIASED_INPUT_RESOLUTION s)
    (CAPTURE_COLOR_DEPTH s) (PROGRAM_EXIT_REQUESTED s) (hw s) (api_log s) (ext_log s).

Definition set_IS_ALIASED_INPUT_RESOLUTION (b : bool) (s : capture_s) : capture_s :=
  mk_capture (counters s) (signal s) (FRAME_BUFFER s) (SKIP_NEXT_NUM_FRAMES s)
    (KNOWN_MODES s) (ALIASES s) b
    (CAPTURE_COLOR_DEPTH s) (PROGRAM_EXIT_REQUESTED s) (hw s) (api_log s) (ext_log s).

(** One API call: the card moves on and the call is logged. *)
Definition after_call (c : rgb_call) (s : capture_s) : capture_s :=
  mk_capture (counters s) (signal s) (FRAME_BUFFER s) (SKIP_NEXT_NUM_FRAMES s)
    (KNOWN_MODES s) (ALIASES s) (IS_ALIASED_INPUT_RESOLUTION s)
    (CAPTURE_COLOR_DEPTH s) (PROGRAM_EXIT_REQUESTED s)
    (fst (rgb_do (hw s) c)) (api_log s ++ [c]) (ext_log s).

(** One call into another unit of the program. *)
Definition after_ext (e : ext_call) (s : capture_s) : capture_s :=
  mk_capture (counters s) (signal s) (FRAME_BUFFER s) (SKIP_NEXT_NUM_FRAMES s)
    (KNOWN_MODES s) (ALIASES s) (IS_ALIASED_INPUT_RESOLUTION s)
    (CAPTURE_COLOR_DEPTH s) (PROGRAM_EXIT_REQUESTED s) (hw s) (api_log s)
    (ext_log s ++ [e]).

(** *** State with failure

    A computation either ends the program at a failed [k_assert] ([None]) or
    returns a value and the next state. *)
Definition M (A : Type) : Type := capture_s -> option (A * capture_s).

Definition ret {A : Type} (a : A) : M A := fun s => Some (a, s).

Definition bind {A B : Type} (m : M A) (k : A -> M B) : M B :=
  fun s => match m s with
           | Some (a, s') => k a s'
           | None => None
           end.

Definition gets {A : Type} (f : capture_s -> A) : M A := fun s => Some (f s, s).

Definition modify (f : capture_s -> capture_s) : M unit := fun s => Some (tt, f s).

Definition k_assert (b : bool) : M unit :=
  fun s => if b then Some (tt, s) else None.

(** [apicall_succeeds(RGB...(CAPTURE_HANDLE, ...))]. *)
Definition apicall (c : rgb_call) : M bool :=
  fun s => Some (snd (rgb_do (hw s) c), after_call c s).

Definition notify (e : ext_call) : M unit := modify (after_ext e).

End WithDevice.

Arguments capture_s dev : clear implicits.
Arguments M dev A : clear implicits.

Declare Scope capture_scope.
Delimit Scope capture_scope with capture.
Notation "x <- m ;; k" := (bind m (fun x => k))
  (at level 61, m at next level, right associativity) : capture_scope.
Notation "m ;;; k" := (bind m (fun _ => k))
  (at level 61, right associativity) : capture_scope.

(** ** The capture unit: the driver callbacks and the event pump *)

Section Ingress.
Context {dev : RGBEasy}.

Definition incr_skipped (c : counters_s) : counters_s :=
  mk_counters (CNT_FRAMES_PROCESSED c) (CNT_FRAMES_CAPTURED c)
              (wrap_u32 (CNT_FRAMES_SKIPPED c + 1)).

Definition incr_captured (c : counters_s) : counters_s :=
  mk_counters (CNT_FRAMES_PROCESSED c) (wrap_u32 (CNT_FRAMES_CAPTURED c + 1))
              (CNT_FRAMES_SKIPPED c).

(** Modelled from the spec: [heap_bytes_s::up_to] (common/memory.h is not
    among the sources).  The spec has the frame copy "bounded by
    [slot.capacity]": the byte count is capped at the size of the buffer. *)
Definition up_to (buffer : list Z) (size : Z) : Z :=
  Z.min size (Z.of_nat (List.length buffer)).

(** [memcpy(dst, src, n)] on a buffer held as a list of bytes. *)
Definition memcpy (dst src : list Z) (n : Z) : list Z :=
  let copied := firstn (Z.to_nat n) src in
  copied ++ skipn (List.length copied) dst.

(** The label [done:] of [frame_captured]. *)
Definition frame_done (s : capture_s dev) : capture_s dev :=
  set_counters (incr_captured (counters s)) s.

(** [rgbeasy_callbacks_n::frame_captured].  The assignments to
    [FRAME_BUFFER.r] convert to [unsigned long], taken as 32 bits wide. *)
Definition frame_captured (frameInfo : option BITMAPINFOHEADER)
    (frameData : option (list Z)) (s : capture_s dev) : capture_s dev :=
  if negb (CNT_FRAMES_CAPTURED (counters s) =? CNT_FRAMES_PROCESSED (counters s))
  then set_counters (incr_skipped (counters s)) s
  else if PROGRAM_EXIT_REQUESTED s then frame_done s
  else match frameData, frameInfo with
       | Some data, Some info =>
           match pixels (FRAME_BUFFER s) with
           | None => frame_done s
           | Some buffer =>
               if biBitCount info >? MAX_BIT_DEPTH then frame_done s
               else
                 let res := mk_resolution (wrap_u32 (biWidth info))
                                          (wrap_u32 (Z.abs (biHeight info)))
                                          (biBitCount info) in
                 let n := up_to buffer (wrap_u32 (w res * h res * (bpp res / 8))) in
                 frame_done
                   (set_FRAME_BUFFER (mk_frame res (Some (memcpy buffer data n))) s)
           end
       | _, _ => frame_done s
       end.

(** [rgbeasy_callbacks_n::video_mode_changed]. *)
Definition video_mode_changed (s : capture_s dev) : capture_s dev :=
  if PROGRAM_EXIT_REQUESTED s then s
  else
    let g := signal s in
    set_signal (mk_signal (UNRECOVERABLE_CAPTURE_ERROR g)
                          true
                          (SIGNAL_WAS_LOST g)
                          (RECEIVING_A_SIGNAL g)
                          (SIGNAL_BECAME_INVALID g)
                          false
                          (negb (RECEIVING_A_SIGNAL g))) s.

(** [rgbeasy_callbacks_n::invalid_signal]. *)
Definition invalid_signal (horClock verClock : Z) (s : capture_s dev) : capture_s dev :=
  if PROGRAM_EXIT_REQUESTED s then s
  else
    let s := after_call (RGBInvalidSignal horClock verClock) s in
    let g := signal s in
    set_signal (mk_signal (UNRECOVERABLE_CAPTURE_ERROR g)
                          (RECEIVED_NEW_VIDEO_MODE g)
                          (SIGNAL_WAS_LOST g)
                          (RECEIVING_A_SIGNAL g)
                          (SIGNAL_BECAME_INVALID g)
                          true
                          (SIGNAL_WOKE_UP g)) s.

(** [rgbeasy_callbacks_n::no_signal]. *)
Definition no_signal (s : capture_s dev) : capture_s dev :=
  let s := after_call RGBNoSignal s in
  let g := signal s in
  set_signal (mk_signal (UNRECOVERABLE_CAPTURE_ERROR g)
                        (RECEIVED_NEW_VIDEO_MODE g)
                        true
                        (RECEIVING_A_SIGNAL g)
                        (SIGNAL_BECAME_INVALID g)
                        (SIGNAL_IS_INVALID g)
                        (SIGNAL_WOKE_UP g)) s.

(** [rgbeasy_callbacks_n::error]. *)
Definition error (s : capture_s dev) : capture_s dev :=
  let g := signal s in
  set_signal (mk_signal true
                        (RECEIVED_NEW_VIDEO_MODE g)
                        (SIGNAL_WAS_LOST g)
                        (RECEIVING_A_SIGNAL g)
                        (SIGNAL_BECAME_INVALID g)
                        (SIGNAL_IS_INVALID g)
                        (SIGNAL_WOKE_UP g)) s.

Definition kc_missed_input_frames_count (s : capture_s dev) : Z :=
  CNT_FRAMES_SKIPPED (counters s).

Definition kc_should_skip_next_frame (s : capture_s dev) : bool :=
  SKIP_NEXT_NUM_FRAMES s >? 0.

(** [kc_mark_frame_buffer_as_processed]. *)
Definition kc_mark_frame_buffer_as_processed (s : capture_s dev) : capture_s dev :=
  let c := counters s in
  let s := set_counters (mk_counters (CNT_FRAMES_CAPTURED c) (CNT_FRAMES_CAPTURED c)
                                     (CNT_FRAMES_SKIPPED c)) s in
  if SKIP_NEXT_NUM_FRAMES s >? 0
  then set_SKIP_NEXT_NUM_FRAMES (wrap_u32 (SKIP_NEXT_NUM_FRAMES s - 1)) s
  else s.

Definition kc_is_invalid_signal (s : capture_s dev) : bool :=
  SIGNAL_IS_INVALID (signal s).

Definition kc_no_signal (s : capture_s dev) : bool :=
  negb (RECEIVING_A_SIGNAL (signal s)).

(** [kc_get_next_capture_event]: the event, and the state the call leaves. *)
Definition kc_get_next_capture_event (s : capture_s dev)
  : capture_event_e * capture_s dev :=
  let g := signal s in
  if UNRECOVERABLE_CAPTURE_ERROR g then
    (CEVENT_UNRECOVERABLE_ERROR, s)
  else if RECEIVED_NEW_VIDEO_MODE g then
    (CEVENT_NEW_VIDEO_MODE,
     set_signal (mk_signal (UNRECOVERABLE_CAPTURE_ERROR g)
                           (RECEIVED_NEW_VIDEO_MODE g)
                           (SIGNAL_WAS_LOST g)
                           true
                           (SIGNAL_BECAME_INVALID g)
                           false
                           (SIGNAL_WOKE_UP g)) s)
  else if SIGNAL_WAS_LOST g then
    (CEVENT_NO_SIGNAL,
     set_signal (mk_signal (UNRECOVERABLE_CAPTURE_ERROR g)
                           (RECEIVED_NEW_VIDEO_MODE g)
                           false
                           false
                           (SIGNAL_BECAME_INVALID g)
                           (SIGNAL_IS_INVALID g)
                           (SIGNAL_WOKE_UP g)) s)
  else if negb (RECEIVING_A_SIGNAL g) then
    (CEVENT_SLEEP, s)
  else if SIGNAL_BECAME_INVALID g then
    (CEVENT_INVALID_SIGNAL,
     set_signal (mk_signal (UNRECOVERABLE_CAPTURE_ERROR g)
                           (RECEIVED_NEW_VIDEO_MODE g)
                           (SIGNAL_WAS_LOST g)
                           false
                           false
                           true
                           (SIGNAL_WOKE_UP g)) s)
  else if SIGNAL_IS_INVALID g then
    (CEVENT_SLEEP, s)
  else if negb (CNT_FRAMES_CAPTURED (counters s) =? CNT_FRAMES_PROCESSED (counters s)) then
    (CEVENT_NEW_FRAME, s)
  else
    (CEVENT_NONE, s).

End Ingress.

(** ** The capture unit: hardware queries, mode parameters and aliases *)

Section Modes.
Context {dev : RGBEasy}.
Local Open Scope capture_scope.

(** The five getters of a video-settings query, joined by [||]: one failed
    call makes the whole query return [{0}]. *)
Definition read_video_settings (rd : rgb_reading) (c : card) : input_video_settings_s :=
  match rgb_get c rd Phase, rgb_get c rd BlackLevel, rgb_get c rd HorPosition,
        rgb_get c rd VerPosition, rgb_get c rd HorScale with
  | Some ph, Some bl, Some hp, Some vp, Some hs => mk_video hs hp vp ph bl
  | _, _, _, _, _ => zero_video
  end.

Definition read_color_settings (rd : rgb_reading) (c : card) : input_color_settings_s :=
  match rgb_get c rd Brightness, rgb_get c rd Contrast, rgb_get_colour_balance c rd with
  | Some br, Some co, Some b =>
      mk_color br co (cb_redBright b) (cb_redContr b) (cb_greenBright b)
               (cb_greenContr b) (cb_blueBright b) (cb_blueContr b)
  | _, _, _ => zero_color
  end.

(** [capture_hardware_s::status_s::video_settings] and the [metainfo_s]
    queries. *)
Definition video_settings (s : capture_s dev) := read_video_settings Current (hw s).
Definition default_video_settings (s : capture_s dev) := read_video_settings Default (hw s).
Definition minimum_video_settings (s : capture_s dev) := read_video_settings Minimum (hw s).
Definition maximum_video_settings (s : capture_s dev) := read_video_settings Maximum (hw s).
Definition default_color_settings (s : capture_s dev) := read_color_settings Default (hw s).

(** [capture_hardware_s::status_s::capture_resolution], in a build with
    [USE_RGBEASY_API]: a failed getter trips the assertion. *)
Definition capture_resolution : M dev resolution_s :=
  fun s =>
    match rgb_get (hw s) Current CaptureWidth, rgb_get (hw s) Current CaptureHeight with
    | Some cw, Some ch => Some (mk_resolution cw ch (CAPTURE_COLOR_DEPTH s), s)
    | _, _ => None
    end.

Definition same_size (a b : resolution_s) : bool :=
  (w a =? w b) && (h a =? h b).

(** The search loop of [update_known_mode_params]: the index at which the
    loop stops, which is the size of the list when nothing matches. *)
Fixpoint known_mode_index (modes : list mode_params_s) (res : resolution_s) : nat :=
  match modes with
  | [] => 0%nat
  | m :: rest => if same_size (r m) res then 0%nat else S (known_mode_index rest res)
  end.

Fixpoint update_nth {A : Type} (n : nat) (f : A -> A) (l : list A) : list A :=
  match l, n with
  | [], _ => []
  | x :: rest, O => f x :: rest
  | x :: rest, S n' => x :: update_nth n' f rest
  end.

(** [update_known_mode_params]. *)
Definition update_known_mode_params (res : resolution_s)
    (c : option input_color_settings_s) (v : option input_video_settings_s)
  : M dev unit :=
  modes <- gets KNOWN_MODES ;;
  let idx := known_mode_index modes res in
  (if (idx <? List.length modes)%nat then ret tt
   else
     dc <- gets default_color_settings ;;
     dv <- gets default_video_settings ;;
     modify (set_KNOWN_MODES (modes ++ [mk_mode res dc dv])) ;;;
     notify (kd_signal_new_known_mode res)) ;;;
  modify (fun s =>
    set_KNOWN_MODES
      (update_nth idx
         (fun m => mk_mode (r m)
                     (match c with Some c' => c' | None => color m end)
                     (match v with Some v' => v' | None => video m end))
         (KNOWN_MODES s)) s).

(** [kc_adjust_capture_vertical_offset].  [newPos] is the sum in [long];
    the model covers the runs in which it does not overflow. *)
Definition kc_adjust_capture_vertical_offset (delta : Z) : M dev bool :=
  if delta =? 0 then ret true
  else
    cur <- gets video_settings ;;
    lo <- gets minimum_video_settings ;;
    hi <- gets maximum_video_settings ;;
    let newPos := verPos cur + delta in
    if (newPos <? Z.max 2 (to_int (verPos lo))) || (newPos >? verPos hi)
    then ret false
    else
      ok <- apicall (RGBSetVerPosition newPos) ;;
      (if ok then notify kd_update_gui_video_params else ret tt) ;;;
      ret true.

(** [kc_adjust_capture_horizontal_offset]. *)
Definition kc_adjust_capture_horizontal_offset (delta : Z) : M dev bool :=
  if delta =? 0 then ret true
  else
    cur <- gets video_settings ;;
    lo <- gets minimum_video_settings ;;
    hi <- gets maximum_video_settings ;;
    let newPos := horPos cur + delta in
    if (newPos <? horPos lo) || (newPos >? horPos hi)
    then ret false
    else
      ok <- apicall (RGBSetHorPosition newPos) ;;
      (if ok then notify kd_update_gui_video_params else ret tt) ;;;
      ret true.

(** [kc_force_capture_input_resolution].  [RGBGetOutputSize] leaves
    [wd = hd = 0] when it fails. *)
Definition kc_force_capture_input_resolution (res : resolution_s) : M dev bool :=
  currentInputRes <- capture_resolution ;;
  if (w res =? w currentInputRes) && (h res =? h currentInputRes) then ret false
  else
    tested <- apicall (RGBTestCaptureWidth (w res)) ;;
    if negb tested then ret false
    else
      ok_w <- apicall (RGBSetCaptureWidth (w res)) ;;
      if negb ok_w then ret false
      else
        ok_h <- apicall (RGBSetCaptureHeight (h res)) ;;
        if negb ok_h then ret false
        else
          ok_o <- apicall (RGBSetOutputSize (w res) (h res)) ;;
          if negb ok_o then ret false
          else
            out <- gets (fun s => match rgb_get_output_size (hw s) with
                                  | Some o => o
                                  | None => (0, 0)
                                  end) ;;
            if negb (fst out =? w res) || negb (snd out =? h res) then ret false
            else
              modify (fun s =>
                set_SKIP_NEXT_NUM_FRAMES (wrap_u32 (SKIP_NEXT_NUM_FRAMES s + 2)) s) ;;;
              ret true.

(** The loop of [kc_alias_resolution_index], counting from [i]. *)
Fixpoint alias_index_from (i : Z) (aliases : list mode_alias_s) (res : resolution_s) : Z :=
  match aliases with
  | [] => -1
  | a :: rest =>
      if (w (from a) =? w res) && (h (from a) =? h res) then i
      else alias_index_from (i + 1) rest res
  end.

(** [kc_alias_resolution_index]. *)
Definition kc_alias_resolution_index (s : capture_s dev) (res : resolution_s) : Z :=
  alias_index_from 0 (ALIASES s) res.

(** [kc_mode_params_for_resolution]. *)
Definition kc_mode_params_for_resolution (s : capture_s dev) (res : resolution_s)
  : mode_params_s :=
  match find (fun m => (w (r m) =? w res) && (h (r m) =? h res)) (KNOWN_MODES s) with
  | Some m => m
  | None => mk_mode res (default_color_settings s) (default_video_settings s)
  end.

(** The eight writes of [kc_apply_mode_parameters], in the order made. *)
Definition mode_parameter_calls (p : mode_params_s) : list rgb_call :=
  [ RGBSetPhase (phase (video p));
    RGBSetBlackLevel (blackLevel (video p));
    RGBSetHorScale (horScale (video p));
    RGBSetHorPosition (horPos (video p));
    RGBSetVerPosition (verPos (video p));
    RGBSetBrightness (bright (color p));
    RGBSetContrast (contr (color p));
    RGBSetColourBalance
      (mk_balance (redBright (color p)) (greenBright (color p)) (blueBright (color p))
                  (redContr (color p)) (greenContr (color p)) (blueContr (color p))) ].

Fixpoint apicalls (cs : list rgb_call) : M dev unit :=
  match cs with
  | [] => ret tt
  | c :: rest => apicall c ;;; apicalls rest
  end.

(** [kc_apply_mode_parameters]: the return values of the writes are not
    looked at. *)
Definition kc_apply_mode_parameters (res : resolution_s) : M dev bool :=
  p <- gets (fun s => kc_mode_params_for_resolution s res) ;;
  apicalls (mode_parameter_calls p) ;;;
  ret true.

Definition kc_is_aliased_resolution (s : capture_s dev) : bool :=
  IS_ALIASED_INPUT_RESOLUTION s.

(** [ALIASES[aliasIdx]]; the index comes from [kc_alias_resolution_index]
    and is in range whenever it is not negative. *)
Definition alias_at (s : capture_s dev) (idx : Z) : mode_alias_s :=
  nth (Z.to_nat idx) (ALIASES s)
      (mk_alias (mk_resolution 0 0 0) (mk_resolution 0 0 0)).

(** [aliased]. *)
Definition aliased (res : resolution_s) : M dev resolution_s :=
  aliasIdx <- gets (fun s => kc_alias_resolution_index s res) ;;
  if aliasIdx >=? 0 then
    newRes <- gets (fun s => to (alias_at s aliasIdx)) ;;
    forced <- kc_force_capture_input_resolution res ;;
    if negb forced then
      modify (set_IS_ALIASED_INPUT_RESOLUTION false) ;;;
      ret res
    else
      modify (set_IS_ALIASED_INPUT_RESOLUTION true) ;;;
      ret newRes
  else
    modify (set_IS_ALIASED_INPUT_RESOLUTION false) ;;;
    ret res.

Definition clear_RECEIVED_NEW_VIDEO_MODE (s : capture_s dev) : capture_s dev :=
  let g := signal s in
  set_signal (mk_signal (UNRECOVERABLE_CAPTURE_ERROR g)
                        false
                        (SIGNAL_WAS_LOST g)
                        (RECEIVING_A_SIGNAL g)
                        (SIGNAL_BECAME_INVALID g)
                        (SIGNAL_IS_INVALID g)
                        (SIGNAL_WOKE_UP g)) s.

(** [kc_apply_new_capture_resolution]. *)
Definition kc_apply_new_capture_resolution : M dev unit :=
  reported <- capture_resolution ;;
  res <- aliased reported ;;
  kc_apply_mode_parameters res ;;;
  modify clear_RECEIVED_NEW_VIDEO_MODE.

(** [kc_set_capture_video_params]. *)
Definition kc_set_capture_video_params (v : input_video_settings_s) : M dev unit :=
  nosig <- gets kc_no_signal ;;
  if nosig then ret tt
  else
    apicalls [ RGBSetPhase (phase v); RGBSetBlackLevel (blackLevel v);
               RGBSetHorPosition (horPos v); RGBSetHorScale (horScale v);
               RGBSetVerPosition (verPos v) ] ;;;
    res <- capture_resolution ;;
    update_known_mode_params res None (Some v).

(** [kc_broadcast_aliases_to_gui]. *)
Definition kc_broadcast_aliases_to_gui : M dev unit :=
  modify (after_ext kd_clear_known_aliases) ;;;
  modify (fun s => fold_left (fun acc a => after_ext (kd_signal_new_known_alias a) acc)
                             (ALIASES s) s).

(** [kc_update_alias_resolutions]. *)
Definition kc_update_alias_resolutions (aliases : list mode_alias_s) : M dev unit :=
  modify (set_ALIASES aliases) ;;;
  nosig <- gets kc_no_signal ;;
  if negb nosig then
    currentRes <- capture_resolution ;;
    stored <- gets ALIASES ;;
    match find (fun a => (w (from a) =? w currentRes) && (h (from a) =? h currentRes))
               stored with
    | Some a => notify (kmain_change_capture_input_resolution (to a))
    | None => ret tt
    end
  else ret tt.

End Modes.

(** ** The capture unit: the alias file *)

Section AliasFile.
Context {dev : RGBEasy}.
Local Open Scope capture_scope.

Definition comma : ascii := ","%char.
Definition newline : ascii := "010"%char.

(** [QTextStream << n] for an unsigned number: its decimal digits. *)
Definition decimal (n : Z) : string :=
  DecimalString.NilZero.string_of_uint (N.to_uint (Z.to_N n)).

(** [QString::toUInt()] on text free of white space and sign: the number a
    string of decimal digits denotes when it fits [uint], and 0 for any
    other text.  (Qt also accepts surrounding white space and a leading
    plus sign, which the streamed numbers never carry.) *)
Definition toUInt (s : string) : Z :=
  match DecimalString.NilZero.uint_of_string s with
  | Some d => let n := Z.of_N (N.of_uint d) in if n <? u32_modulus then n else 0
  | None => 0
  end.

(** The line [kc_save_aliases] streams for one alias. *)
Definition alias_line (a : mode_alias_s) : string :=
  (decimal (w (from a)) ++ String comma
    (decimal (h (from a)) ++ String comma
      (decimal (w (to a)) ++ String comma
        (decimal (h (to a)) ++ String comma (String newline EmptyString)))))%string.

Definition alias_file_text (aliases : list mode_alias_s) : string :=
  fold_right (fun a rest => (alias_line a ++ rest)%string) EmptyString aliases.

(** [kc_save_aliases]: [writable] says whether opening the temporary file,
    removing the old file and renaming succeed.  The result carries the
    text that then stands in the file. *)
Definition kc_save_aliases (writable : bool) : M dev (bool * option string) :=
  if writable then
    text <- gets (fun s => alias_file_text (ALIASES s)) ;;
    ret (true, Some text)
  else
    notify (kd_show_headless_error_message "Data was not saved") ;;;
    ret (false, None).

(** The pieces of [s] between the occurrences of [sep]. *)
Fixpoint split_on (sep : ascii) (s : string) : list string :=
  match s with
  | EmptyString => [EmptyString]
  | String c rest =>
      if Ascii.eqb c sep then EmptyString :: split_on sep rest
      else match split_on sep rest with
           | piece :: pieces => String c piece :: pieces
           | [] => [String c EmptyString]
           end
  end.

(** A terminator ends a piece: what follows the last one counts only when
    it is not empty. *)
Definition terminated_pieces (sep : ascii) (s : string) : list string :=
  let pieces := split_on sep s in
  match last pieces EmptyString with
  | EmptyString => removelast pieces
  | _ => pieces
  end.

(** Modelled from the spec: the row [csv_parse_c] makes of one line
    (common/csv.h is not among the sources).  The spec gives the lines of
    the alias file as "from_w,from_h,to_w,to_h," with a significant trailing
    comma, and those of the mode-parameter file as "key,integer": each comma
    ends a field, and text after the last comma is a field of its own. *)
Definition csv_row (line : string) : list string := terminated_pieces comma line.

(** Modelled from the spec: [csv_parse_c::contents] (common/csv.h is not
    among the sources), on the text of the file: one row for each line, in
    order; the blank lines that separate the blocks of a mode-parameter file
    give no row. *)
Definition csv_contents (text : string) : list (list string) :=
  filter (fun row => negb (Nat.eqb (List.length row) 0))
         (map csv_row (terminated_pieces newline text)).

(** The body of the loop of [kc_load_aliases] over the rows: [None] is the
    jump to [fail:].  The loader does not set the [bpp] of the resolutions
    it builds; the model puts 0 there. *)
Fixpoint aliases_of_rows (rows : list (list string)) : option (list mode_alias_s) :=
  match rows with
  | [] => Some []
  | row :: rest =>
      match row with
      | [fw; fh; tw; th] =>
          match aliases_of_rows rest with
          | Some others =>
              Some (mk_alias (mk_resolution (toUInt fw) (toUInt fh) 0)
                             (mk_resolution (toUInt tw) (toUInt th) 0) :: others)
          | None => None
          end
      | _ => None
      end
  end.

(** The platform's width of [unsigned long], in which the comparison of the
    sort multiplies. *)
Variable ulong : long_width.

(** [std::sort] with the comparison of [kc_load_aliases]: ascending in
    [to.w * to.h], the product taken in [unsigned long].  [std::sort] leaves
    the order of equal keys open; insertion gives one of its outcomes. *)
Definition alias_sort_key (a : mode_alias_s) : Z := wrap_ulong ulong (w (to a) * h (to a)).

Fixpoint insert_alias (a : mode_alias_s) (l : list mode_alias_s) : list mode_alias_s :=
  match l with
  | [] => [a]
  | b :: rest =>
      if alias_sort_key b <? alias_sort_key a
      then b :: insert_alias a rest
      else a :: b :: rest
  end.

Definition sort_aliases (l : list mode_alias_s) : list mode_alias_s :=
  fold_right insert_alias [] l.

(** [kc_load_aliases]: [file] is [None] for an empty file name and the text
    of the named file otherwise. *)
Definition kc_load_aliases (file : option string) (automaticCall : bool) : M dev bool :=
  match file with
  | None => ret true
  | Some text =>
      match aliases_of_rows (csv_contents text) with
      | None =>
          notify (kd_show_headless_error_message "Data was not loaded") ;;;
          ret false
      | Some aliasesFromDisk =>
          kc_update_alias_resolutions aliasesFromDisk ;;;
          modify (fun s => set_ALIASES (sort_aliases (ALIASES s)) s) ;;;
          kc_broadcast_aliases_to_gui ;;;
          (if negb automaticCall then notify kpropagate_new_input_video_mode
           else ret tt) ;;;
          ret true
      end
  end.

End AliasFile.

End Capture.
Import Capture.

(** ** A simulated card

   A device that accepts every call and reports back what it was last
   given; its minimum vertical position is below 2, as on the
   VisionRGB-PRO2 the source mentions. *)

Module SimCard.

Record sim_s : Type := mk_sim
  { sim_width : Z; sim_height : Z;
    sim_output : Z * Z;
    sim_video : input_video_settings_s;
    sim_balance : colour_balance;
    sim_bright : Z; sim_contr : Z }.

Definition sim_get (c : sim_s) (rd : rgb_reading) (p : rgb_param) : option Z :=
  match rd, p with
  | Current, Phase => Some (phase (sim_video c))
  | Current, BlackLevel => Some (blackLevel (sim_video c))
  | Current, HorPosition => Some (horPos (sim_video c))
  | Current, VerPosition => Some (verPos (sim_video c))
  | Current, HorScale => Some (horScale (sim_video c))
  | Current, Brightness => Some (sim_bright c)
  | Current, Contrast => Some (sim_contr c)
  | Current, CaptureWidth => Some (sim_width c)
  | Current, CaptureHeight => Some (sim_height c)
  | Default, CaptureWidth | Default, CaptureHeight => None
  | Default, VerPosition => Some 0
  | Default, _ => Some 32
  | Minimum, _ => Some 0
  | Maximum, _ => Some 4095
  end.

Definition sim_do (c : sim_s) (call : rgb_call) : sim_s * bool :=
  match call with
  | RGBSetPhase v =>
      (mk_sim (sim_width c) (sim_height c) (sim_output c)
         (mk_video (horScale (sim_video c)) (horPos (sim_video c)) (verPos (sim_video c))
                   v (blackLevel (sim_video c)))
         (sim_balance c) (sim_bright c) (sim_contr c), true)
  | RGBSetBlackLevel v =>
      (mk_sim (sim_width c) (sim_height c) (sim_output c)
         (mk_video (horScale (sim_video c)) (horPos (sim_video c)) (verPos (sim_video c))
                   (phase (sim_video c)) v)
         (sim_balance c) (sim_bright c) (sim_contr c), true)
  | RGBSetHorScale v =>
      (mk_sim (sim_width c) (sim_height c) (sim_output c)
         (mk_video v (horPos (sim_video c)) (verPos (sim_video c))
                   (phase (sim_video c)) (blackLevel (sim_video c)))
         (sim_balance c) (sim_bright c) (sim_contr c), true)
  | RGBSetHorPosition v =>
      (mk_sim (sim_width c) (sim_height c) (sim_output c)
         (mk_video (horScale (sim_video c)) v (verPos (sim_video c))
                   (phase (sim_video c)) (blackLevel (sim_video c)))
         (sim_balance c) (sim_bright c) (sim_contr c), true)
  | RGBSetVerPosition v =>
      (mk_sim (sim_width c) (sim_height c) (sim_output c)
         (mk_video (horScale (sim_video c)) (horPos (sim_video c)) v
                   (phase (sim_video c)) (blackLevel (sim_video c)))
         (sim_balance c) (sim_bright c) (sim_contr c), true)
  | RGBSetBrightness v =>
      (mk_sim (sim_width c) (sim_height c) (sim_output c) (sim_video c)
         (sim_balance c) v (sim_contr c), true)
  | RGBSetContrast v =>
      (mk_sim (sim_width c) (sim_height c) (sim_output c) (sim_video c)
         (sim_balance c) (sim_bright c) v, true)
  | RGBSetColourBalance b =>
      (mk_sim (sim_width c) (sim_height c) (sim_output c) (sim_video c)
         b (sim_bright c) (sim_contr c), true)
  | RGBTestCaptureWidth _ => (c, true)
  | RGBSetCaptureWidth width =>
      (mk_sim width (sim_height c) (sim_output c) (sim_video c)
         (sim_balance c) (sim_bright c) (sim_contr c), true)
  | RGBSetCaptureHeight height =>
      (mk_sim (sim_width c) height (sim_output c) (sim_video c)
         (sim_balance c) (sim_bright c) (sim_contr c), true)
  | RGBSetOutputSize width height =>
      (mk_sim (sim_width c) (sim_height c) (width, height) (sim_video c)
         (sim_balance c) (sim_bright c) (sim_contr c), true)
  | RGBInvalidSignal _ _ => (c, true)
  | RGBNoSignal => (c, true)
  end.

#[export] Instance sim : RGBEasy :=
  {| card := sim_s;
     rgb_get := sim_get;
     rgb_get_colour_balance := fun c rd =>
       match rd with
       | Current => Some (sim_balance c)
       | _ => Some (mk_balance 32 32 32 128 128 128)
       end;
     rgb_get_output_size := fun c => Some (sim_output c);
     rgb_do := sim_do |}.

(** A card capturing [cw] x [ch], with vertical position [vpos]. *)
Definition sim_card (cw ch vpos : Z) : sim_s :=
  mk_sim cw ch (cw, ch) (mk_video 100 50 vpos 16 8)
         (mk_balance 32 32 32 128 128 128) 32 128.

(** The unit as it stands after start-up, attached to card [c]; a buffer
    of 64 bytes stands in for the [MAX_FRAME_SIZE] bytes of the frame
    buffer. *)
Definition initial (c : sim_s) : capture_s sim :=
  mk_capture (mk_counters 0 0 0)
             (mk_signal false false false true false false false)
             (mk_frame (mk_resolution 640 480 32) (Some (repeat 0 64%nat)))
             0 [] [] false 32 false c [] [].

(** A 2 x 2 frame of 32 bits per pixel, as the frame callback receives it. *)
Definition small_frame : option BITMAPINFOHEADER * option (list Z) :=
  (Some (mk_info 2 2 32), Some [1; 2; 3; 4; 5; 6; 7; 8; 9; 10; 11; 12; 13; 14; 15; 16]).

Definition res_800x600 : resolution_s := mk_resolution 800 600 32.
Definition res_1024x768 : resolution_s := mk_resolution 1024 768 32.

(** The alias of the alias-switch scenario: 800 x 600 stands for
    1024 x 768. *)
Definition alias_800_to_1024 : mode_alias_s :=
  mk_alias (mk_resolution 800 600 0) (mk_resolution 1024 768 0).

(** A second alias with the same [from]. *)
Definition alias_800_to_640 : mode_alias_s :=
  mk_alias (mk_resolution 800 600 0) (mk_resolution 640 480 0).

(** Stored parameters for the two resolutions of the scenario, told apart
    by their vertical position. *)
Definition params_800x600 : mode_params_s :=
  mk_mode (mk_resolution 800 600 0) (mk_color 30 120 31 121 32 122 33 123)
          (mk_video 1056 40 11 5 8).
Definition params_1024x768 : mode_params_s :=
  mk_mode (mk_resolution 1024 768 0) (mk_color 34 124 35 125 36 126 37 127)
          (mk_video 1344 60 22 6 8).

(** The alias-switch scenario: the card reports 800 x 600, the alias list
    is {(800,600) -> (1024,768)}, and parameters are stored for both
    resolutions. *)
Definition alias_switch : capture_s sim :=
  set_KNOWN_MODES [params_800x600; params_1024x768]
    (set_ALIASES [alias_800_to_1024] (initial (sim_card 800 600 10))).

(** Stored parameters whose vertical position is 1, as a mode-parameter
    file with the line "vPos,1" leaves them. *)
Definition params_640x480_low : mode_params_s :=
  mk_mode (mk_resolution 640 480 0) (mk_color 32 128 32 128 32 128 32 128)
          (mk_video 800 50 1 16 8).

Definition low_position_stored : capture_s sim :=
  set_KNOWN_MODES [params_640x480_low] (initial (sim_card 640 480 10)).

End SimCard.

(** ** The scaler unit *)

Module Scaler.

(** The scaling functions a [scaling_filter_s] can point to. *)
Inductive scaler_func : Type :=
| s_scaler_nearest
| s_scaler_linear
| s_scaler_area
| s_scaler_cubic
| s_scaler_lanczos.

Record scaling_filter_s : Type := mk_filter { name : string; scale : scaler_func }.

(** A [const scaling_filter_s*]: null, or the address of an element of
    [SCALING_FILTERS]. *)
Inductive filter_ptr : Type :=
| nullptr
| filter_at (i : nat).

Inductive aspect_mode_e : Type := native | traditional_4_3 | always_4_3.

(** [PIXELFORMAT] of the RGBEasy API: the three formats the program names,
    and any other value of the enumeration. *)
Inductive PIXELFORMAT : Type :=
| RGB_PIXELFORMAT_555
| RGB_PIXELFORMAT_565
| RGB_PIXELFORMAT_888
| RGB_PIXELFORMAT_other (id : Z).

(** The [conversionType] handed to [cv::cvtColor]; [CV_unset] is the
    initial 0. *)
Inductive cv_conversion : Type :=
| CV_unset
| CV_BGR5652BGRA
| CV_BGR5552BGRA
| CV_RGBA2BGRA
| CV_BGR2BGRA.

Definition OUTPUT_BIT_DEPTH : Z := 32.

Section WithBuild.

(** The build switch [USE_OPENCV]. *)
Variable USE_OPENCV : bool.

(** The output bounds of common/globals.h, which is not among the sources:
    they stay parameters. *)
Variables MAX_OUTPUT_WIDTH MAX_OUTPUT_HEIGHT MIN_OUTPUT_WIDTH MIN_OUTPUT_HEIGHT : Z.

(** [real], and [round(n * s)] stored back into an [unsigned long] field:
    floating point stays abstract. *)
Variable real : Type.
Variable round_scaled : Z -> real -> Z.

Definition SCALING_FILTERS : list scaling_filter_s :=
  if USE_OPENCV then
    [ mk_filter "Nearest" s_scaler_nearest;
      mk_filter "Linear" s_scaler_linear;
      mk_filter "Area" s_scaler_area;
      mk_filter "Cubic" s_scaler_cubic;
      mk_filter "Lanczos" s_scaler_lanczos ]
  else
    [ mk_filter "Nearest" s_scaler_nearest ].

(** The statics of scaler.cpp that the functions below read or write. *)
Record scaler_s : Type := mk_scaler
  { UPSCALE_FILTER : filter_ptr;
    DOWNSCALE_FILTER : filter_ptr;
    ASPECT_MODE : aspect_mode_e;
    FORCE_ASPECT : bool;
    BASE_RESOLUTION : resolution_s;
    FORCE_BASE_RESOLUTION : bool;
    OUTPUT_SCALING : real;
    FORCE_SCALING : bool }.

(** The bounds check of [ks_output_resolution], on the width... *)
Definition bound_width (width : Z) : Z :=
  if width >? MAX_OUTPUT_WIDTH then MAX_OUTPUT_HEIGHT
  else if width <? MIN_OUTPUT_WIDTH then MIN_OUTPUT_WIDTH
  else width.

(** ...and on the height. *)
Definition bound_height (height : Z) : Z :=
  if height >? MAX_OUTPUT_HEIGHT then MAX_OUTPUT_HEIGHT
  else if height <? MIN_OUTPUT_HEIGHT then MIN_OUTPUT_HEIGHT
  else height.

(** [ks_output_resolution].  [recording] is [Some] of
    [krecord_video_resolution()] while [krecord_is_recording()] holds, and
    [inRes] is what [kc_hardware().status.capture_resolution()] returned. *)
Definition ks_output_resolution (recording : option resolution_s)
    (inRes : resolution_s) (sc : scaler_s) : resolution_s :=
  match recording with
  | Some rec => mk_resolution (w rec) (h rec) OUTPUT_BIT_DEPTH
  | None =>
      let outRes := inRes in
      let outRes := if FORCE_BASE_RESOLUTION sc then BASE_RESOLUTION sc else outRes in
      let outRes :=
        if FORCE_SCALING sc
        then mk_resolution (round_scaled (w outRes) (OUTPUT_SCALING sc))
                           (round_scaled (h outRes) (OUTPUT_SCALING sc))
                           (bpp outRes)
        else outRes in
      mk_resolution (bound_width (w outRes)) (bound_height (h outRes)) OUTPUT_BIT_DEPTH
  end.

(** The choice of [conversionType] in [s_convert_frame_to_bgra].
    [pixel_format] is what [kc_pixel_format()] returned. *)
Definition conversion_type (pixel_format : PIXELFORMAT) (frame : captured_frame_s)
  : cv_conversion :=
  let conversionType := CV_unset in
  match pixel_format with
  | RGB_PIXELFORMAT_565 => CV_BGR5652BGRA
  | RGB_PIXELFORMAT_555 => CV_BGR5552BGRA
  | _ =>
      let conversionType :=
        if bpp (frame_r frame) =? 32 then CV_RGBA2BGRA else conversionType in
      let conversionType :=
        if bpp (frame_r frame) =? 24 then CV_BGR2BGRA else CV_BGR5652BGRA in
      conversionType
  end.

(** [s_convert_frame_to_bgra], up to the call of [cv::cvtColor]: the
    conversion it asks for.  [None] is a failed assertion: a build without
    OpenCV, or a null colour-conversion buffer. *)
Definition s_convert_frame_to_bgra (pixel_format : PIXELFORMAT)
    (COLORCONV_BUFFER_is_null : bool) (frame : captured_frame_s) : option cv_conversion :=
  if USE_OPENCV then
    if COLORCONV_BUFFER_is_null then None
    else Some (conversion_type pixel_format frame)
  else None.

(** The search loop of [ks_scaler_for_name_string], counting from [i]. *)
Fixpoint scaler_index_from (i : nat) (filters : list scaling_filter_s) (wanted : string)
  : option nat :=
  match filters with
  | [] => None
  | f :: rest =>
      if String.eqb (name f) wanted then Some i
      else scaler_index_from (S i) rest wanted
  end.

(** [ks_scaler_for_name_string].  [None] is the failed assertion on an
    empty list of filters. *)
Definition ks_scaler_for_name_string (wanted : string) : option filter_ptr :=
  match SCALING_FILTERS with
  | [] => None
  | _ :: _ =>
      match scaler_index_from 0 SCALING_FILTERS wanted with
      | Some i => Some (filter_at i)
      | None => Some (filter_at 0)
      end
  end.

(** What a filter pointer points to. *)
Definition deref (p : filter_ptr) : option scaling_filter_s :=
  match p with
  | nullptr => None
  | filter_at i => nth_error SCALING_FILTERS i
  end.

(** [ks_set_upscaling_filter] and [ks_set_downscaling_filter]. *)
Definition ks_set_upscaling_filter (wanted : string) (sc : scaler_s) : option scaler_s :=
  match ks_scaler_for_name_string wanted with
  | Some f =>
      Some (mk_scaler f (DOWNSCALE_FILTER sc) (ASPECT_MODE sc) (FORCE_ASPECT sc)
                      (BASE_RESOLUTION sc) (FORCE_BASE_RESOLUTION sc)
                      (OUTPUT_SCALING sc) (FORCE_SCALING sc))
  | None => None
  end.

Definition ks_set_downscaling_filter (wanted : string) (sc : scaler_s) : option scaler_s :=
  match ks_scaler_for_name_string wanted with
  | Some f =>
      Some (mk_scaler (UPSCALE_FILTER sc) f (ASPECT_MODE sc) (FORCE_ASPECT sc)
                      (BASE_RESOLUTION sc) (FORCE_BASE_RESOLUTION sc)
                      (OUTPUT_SCALING sc) (FORCE_SCALING sc))
  | None => None
  end.

End WithBuild.

Arguments mk_scaler {real}.
Arguments UPSCALE_FILTER {real}.
Arguments DOWNSCALE_FILTER {real}.
Arguments ASPECT_MODE {real}.
Arguments FORCE_ASPECT {real}.
Arguments BASE_RESOLUTION {real}.
Arguments FORCE_BASE_RESOLUTION {real}.
Arguments OUTPUT_SCALING {real}.
Arguments FORCE_SCALING {real}.

End Scaler.
Import Scaler.

(** * Properties of the capture unit *)

Module CaptureFacts.

Local Open Scope capture_scope.

(** [flag_split] takes a conditional of the code apart on the value it
    tests. *)
Ltac flag_split :=
  match goal with
  | |- context [if ?b then _ else _] => destruct b eqn:?
  end.

(** ** The frame counters *)

Section Counters.
Context {dev : RGBEasy}.

Definition frame_args : Type := (option BITMAPINFOHEADER * option (list Z))%type.

(** The frame callback run once for each delivered frame, in order. *)
Definition on_frames (frames : list frame_args) (s : capture_s dev) : capture_s dev :=
  fold_left (fun acc f => frame_captured (fst f) (snd f) acc) frames s.

(** A frame that finds the slot free advances only [captured], whatever
    the frame is and whichever path to [done:] is taken. *)
Lemma frame_captured_free (info : option BITMAPINFOHEADER) (data : option (list Z))
    (s : capture_s dev) :
  CNT_FRAMES_CAPTURED (counters s) = CNT_FRAMES_PROCESSED (counters s) ->
  counters (frame_captured info data s) = incr_captured (counters s).
Proof.
  intros Heq. unfold frame_captured.
  rewrite Heq, Z.eqb_refl. simpl.
  destruct (PROGRAM_EXIT_REQUESTED s); [reflexivity|].
  destruct data as [d|]; [|reflexivity].
  destruct info as [i|]; [|reflexivity].
  destruct (pixels (FRAME_BUFFER s)); [|reflexivity].
  destruct (biBitCount i >? MAX_BIT_DEPTH); reflexivity.
Qed.

(** A frame that finds the slot taken advances only [skipped]. *)
Lemma frame_captured_busy (info : option BITMAPINFOHEADER) (data : option (list Z))
    (s : capture_s dev) :
  CNT_FRAMES_CAPTURED (counters s) <> CNT_FRAMES_PROCESSED (counters s) ->
  frame_captured info data s = set_counters (incr_skipped (counters s)) s.
Proof.
  intros Hne. unfold frame_captured.
  apply Z.eqb_neq in Hne. rewrite Hne. reflexivity.
Qed.

(** The shape of the counters after a first accepted frame and [n] dropped
    ones. *)
Lemma frames_after_accept (frames : list frame_args) (s : capture_s dev) :
  CNT_FRAMES_CAPTURED (counters s) <> CNT_FRAMES_PROCESSED (counters s) ->
  CNT_FRAMES_CAPTURED (counters (on_frames frames s)) = CNT_FRAMES_CAPTURED (counters s)
  /\ CNT_FRAMES_PROCESSED (counters (on_frames frames s))
     = CNT_FRAMES_PROCESSED (counters s)
  /\ CNT_FRAMES_SKIPPED (counters (on_frames frames s))
     = fold_left (fun k _ => wrap_u32 (k + 1)) frames (CNT_FRAMES_SKIPPED (counters s)).
Proof.
  revert s. induction frames as [|f rest IH]; intros s Hne.
  - simpl. auto.
  - simpl. rewrite (frame_captured_busy (fst f) (snd f) s Hne).
    destruct (IH (set_counters (incr_skipped (counters s)) s)) as (Hc & Hp & Hs).
    + simpl. exact Hne.
    + unfold on_frames in *. rewrite Hc, Hp, Hs. simpl. auto.
Qed.

(** C2, as the code has it.  Four frames delivered back to back from
    [captured = processed = 0] (and nothing skipped yet), with no
    [kc_mark_frame_buffer_as_processed] in between, leave [captured = 1],
    [processed = 0] and [skipped = 3]: the first frame is accepted and
    advances [captured]; each of the next three is dropped on the fast path,
    which advances [skipped] only. *)
Theorem four_frames_without_mark_processed (f1 f2 f3 f4 : frame_args)
    (s : capture_s dev) :
  CNT_FRAMES_CAPTURED (counters s) = 0 ->
  CNT_FRAMES_PROCESSED (counters s) = 0 ->
  CNT_FRAMES_SKIPPED (counters s) = 0 ->
  counters (on_frames [f1; f2; f3; f4] s) = mk_counters 0 1 3.
Proof.
  intros Hc Hp Hs.
  pose (s1 := frame_captured (fst f1) (snd f1) s).
  assert (H1 : counters s1 = mk_counters 0 1 0).
  { unfold s1. rewrite frame_captured_free by congruence.
    unfold incr_captured. rewrite Hc, Hp, Hs. reflexivity. }
  change (on_frames [f1; f2; f3; f4] s) with (on_frames [f2; f3; f4] s1).
  destruct (frames_after_accept [f2; f3; f4] s1) as (Hc' & Hp' & Hs').
  { rewrite H1. simpl. discriminate. }
  destruct (counters (on_frames [f2; f3; f4] s1)) as [p c k].
  simpl in Hc', Hp', Hs'. rewrite H1 in Hc', Hp', Hs'. simpl in Hc', Hp', Hs'.
  subst. reflexivity.
Qed.

(** ** Marking a frame as processed *)

(** C9.  [kc_mark_frame_buffer_as_processed] makes [processed] equal to
    [captured] (leaving [captured] as it was), takes exactly one off a
    positive [SKIP_NEXT_NUM_FRAMES] and leaves a zero one at zero: the
    count never wraps below zero. *)
Theorem kc_mark_frame_buffer_as_processed_spec (s : capture_s dev) :
  is_u32 (SKIP_NEXT_NUM_FRAMES s) ->
  let s' := kc_mark_frame_buffer_as_processed s in
  CNT_FRAMES_CAPTURED (counters s') = CNT_FRAMES_PROCESSED (counters s')
  /\ CNT_FRAMES_CAPTURED (counters s') = CNT_FRAMES_CAPTURED (counters s)
  /\ (0 < SKIP_NEXT_NUM_FRAMES s ->
      SKIP_NEXT_NUM_FRAMES s' = SKIP_NEXT_NUM_FRAMES s - 1)
  /\ (SKIP_NEXT_NUM_FRAMES s = 0 -> SKIP_NEXT_NUM_FRAMES s' = 0)
  /\ is_u32 (SKIP_NEXT_NUM_FRAMES s').
Proof.
  intros Hrange s'. subst s'. unfold kc_mark_frame_buffer_as_processed, is_u32 in *.
  simpl. destruct (SKIP_NEXT_NUM_FRAMES s >? 0) eqn:Hpos; simpl.
  - apply Z.gtb_lt in Hpos.
    assert (Hw : wrap_u32 (SKIP_NEXT_NUM_FRAMES s - 1) = SKIP_NEXT_NUM_FRAMES s - 1).
    { unfold wrap_u32. apply Z.mod_small. unfold u32_modulus in *. lia. }
    rewrite Hw. unfold u32_modulus in *. repeat split; try lia.
  - pose proof (Zgt_cases (SKIP_NEXT_NUM_FRAMES s) 0) as Hle. rewrite Hpos in Hle.
    repeat split; lia.
Qed.

End Counters.

(** ** A new video mode *)

Section NewMode.
Context {dev : RGBEasy}.

(** The state after a list of API calls. *)
Definition run_calls (cs : list rgb_call) (s : capture_s dev) : capture_s dev :=
  fold_left (fun acc c => after_call c acc) cs s.

Lemma apicalls_run (cs : list rgb_call) (s : capture_s dev) :
  apicalls cs s = Some (tt, run_calls cs s).
Proof.
  revert s. induction cs as [|c rest IH]; intros s; simpl.
  - reflexivity.
  - unfold bind, apicall. simpl. apply IH.
Qed.

Lemma run_calls_frame (cs : list rgb_call) (s : capture_s dev) :
  api_log (run_calls cs s) = api_log s ++ cs
  /\ ext_log (run_calls cs s) = ext_log s
  /\ signal (run_calls cs s) = signal s
  /\ counters (run_calls cs s) = counters s
  /\ SKIP_NEXT_NUM_FRAMES (run_calls cs s) = SKIP_NEXT_NUM_FRAMES s
  /\ IS_ALIASED_INPUT_RESOLUTION (run_calls cs s) = IS_ALIASED_INPUT_RESOLUTION s
  /\ ALIASES (run_calls cs s) = ALIASES s
  /\ KNOWN_MODES (run_calls cs s) = KNOWN_MODES s.
Proof.
  revert s. induction cs as [|c rest IH]; intros s; simpl.
  - rewrite app_nil_r. repeat split.
  - destruct (IH (after_call c s)) as (Ha & He & Hg & Hc & Hk & Hi & Hl & Hm).
    unfold run_calls in *. rewrite Ha, He, Hg, Hc, Hk, Hi, Hl, Hm. simpl.
    rewrite <- app_assoc. repeat split.
Qed.

(** Reading the capture resolution leaves the state alone. *)
Lemma capture_resolution_pure (s s' : capture_s dev) (res : resolution_s) :
  capture_resolution s = Some (res, s') -> s' = s.
Proof.
  unfold capture_resolution.
  destruct (rgb_get (hw s) Current CaptureWidth);
    destruct (rgb_get (hw s) Current CaptureHeight); congruence.
Qed.

(** It looks at the card and at [CAPTURE_COLOR_DEPTH] only. *)
Lemma capture_resolution_same_card (s t : capture_s dev) (res : resolution_s) :
  hw t = hw s -> CAPTURE_COLOR_DEPTH t = CAPTURE_COLOR_DEPTH s ->
  capture_resolution s = Some (res, s) ->
  capture_resolution t = Some (res, t).
Proof.
  unfold capture_resolution. intros -> ->.
  destruct (rgb_get (hw s) Current CaptureWidth);
    destruct (rgb_get (hw s) Current CaptureHeight); congruence.
Qed.

(** [kc_force_capture_input_resolution] turns down the resolution the card
    is already in, before any call reaches the card. *)
Lemma force_current_refused (s : capture_s dev) (reported res : resolution_s) :
  capture_resolution s = Some (reported, s) ->
  same_size res reported = true ->
  kc_force_capture_input_resolution res s = Some (false, s).
Proof.
  intros Hrep Hsame. unfold kc_force_capture_input_resolution, bind.
  rewrite Hrep. unfold same_size in Hsame. rewrite Hsame. reflexivity.
Qed.

Lemma same_size_refl (res : resolution_s) : same_size res res = true.
Proof. unfold same_size. now rewrite !Z.eqb_refl. Qed.

(** [aliased], called on the resolution the card reports, returns that
    resolution and clears the flag, alias or no alias: the resolution it
    asks the card to switch to is the one it was given. *)
Lemma aliased_reported (s : capture_s dev) (reported : resolution_s) :
  capture_resolution s = Some (reported, s) ->
  aliased reported s = Some (reported, set_IS_ALIASED_INPUT_RESOLUTION false s).
Proof.
  intros Hrep. unfold aliased, bind, gets, modify, ret.
  destruct (kc_alias_resolution_index s reported >=? 0); [|reflexivity].
  rewrite (force_current_refused s reported reported Hrep (same_size_refl reported)).
  reflexivity.
Qed.

(** Clearing the new-mode flag touches nothing else. *)
Lemma clear_flag_frame (t : capture_s dev) :
  api_log (clear_RECEIVED_NEW_VIDEO_MODE t) = api_log t
  /\ IS_ALIASED_INPUT_RESOLUTION (clear_RECEIVED_NEW_VIDEO_MODE t)
     = IS_ALIASED_INPUT_RESOLUTION t
  /\ SKIP_NEXT_NUM_FRAMES (clear_RECEIVED_NEW_VIDEO_MODE t) = SKIP_NEXT_NUM_FRAMES t
  /\ RECEIVED_NEW_VIDEO_MODE (signal (clear_RECEIVED_NEW_VIDEO_MODE t)) = false.
Proof. repeat split. Qed.

(** What handling a new video mode comes to. *)
Lemma kc_apply_new_capture_resolution_eq (s : capture_s dev) (reported : resolution_s) :
  capture_resolution s = Some (reported, s) ->
  kc_apply_new_capture_resolution s
  = Some (tt, clear_RECEIVED_NEW_VIDEO_MODE
                (run_calls (mode_parameter_calls (kc_mode_params_for_resolution s reported))
                           (set_IS_ALIASED_INPUT_RESOLUTION false s))).
Proof.
  intros Hrep. unfold kc_apply_new_capture_resolution, bind.
  rewrite Hrep, (aliased_reported s reported Hrep).
  unfold kc_apply_mode_parameters, bind, gets. rewrite apicalls_run.
  reflexivity.
Qed.

(** ** The event pump *)

(** The priority list of the specification, in its words: each entry is
    the condition of one numbered rule and the event the rule emits;
    "signal is NoSignal" reads [RECEIVING_A_SIGNAL] unset and "signal is
    InvalidSignal" reads [SIGNAL_IS_INVALID] set. *)
Definition next_event_priority : list ((capture_s dev -> bool) * capture_event_e) :=
  [ (fun s => UNRECOVERABLE_CAPTURE_ERROR (signal s), CEVENT_UNRECOVERABLE_ERROR);
    (fun s => RECEIVED_NEW_VIDEO_MODE (signal s), CEVENT_NEW_VIDEO_MODE);
    (fun s => SIGNAL_WAS_LOST (signal s), CEVENT_NO_SIGNAL);
    (fun s => negb (RECEIVING_A_SIGNAL (signal s)), CEVENT_SLEEP);
    (fun s => SIGNAL_BECAME_INVALID (signal s), CEVENT_INVALID_SIGNAL);
    (fun s => SIGNAL_IS_INVALID (signal s), CEVENT_SLEEP);
    (fun s => negb (CNT_FRAMES_CAPTURED (counters s) =? CNT_FRAMES_PROCESSED (counters s)),
     CEVENT_NEW_FRAME) ].

(** First match wins; no match is [CEVENT_NONE]. *)
Fixpoint first_match (rules : list ((capture_s dev -> bool) * capture_event_e))
    (s : capture_s dev) : capture_event_e :=
  match rules with
  | [] => CEVENT_NONE
  | (guard, e) :: rest => if guard s then e else first_match rest s
  end.

(** C3, as the code has it.  For every state, [kc_get_next_capture_event]
    returns the event of the first rule that matches, in the order
    UnrecoverableError, NewVideoMode, NoSignal, Sleep (no signal),
    InvalidSignal (edge), Sleep (invalid), NewFrame, None.  When it returns
    NewVideoMode it has set [RECEIVING_A_SIGNAL] and cleared
    [SIGNAL_IS_INVALID], and [RECEIVED_NEW_VIDEO_MODE] is still set: the flag
    is consumed by [kc_apply_new_capture_resolution], which clears it
    whenever the card reports its resolution. *)
Theorem kc_get_next_capture_event_priority (s : capture_s dev) :
  fst (kc_get_next_capture_event s) = first_match next_event_priority s
  /\ (fst (kc_get_next_capture_event s) = CEVENT_NEW_VIDEO_MODE ->
      RECEIVED_NEW_VIDEO_MODE (signal (snd (kc_get_next_capture_event s))) = true
      /\ RECEIVING_A_SIGNAL (signal (snd (kc_get_next_capture_event s))) = true
      /\ SIGNAL_IS_INVALID (signal (snd (kc_get_next_capture_event s))) = false
      /\ forall reported,
           capture_resolution (snd (kc_get_next_capture_event s))
           = Some (reported, snd (kc_get_next_capture_event s)) ->
           exists s',
             kc_apply_new_capture_resolution (snd (kc_get_next_capture_event s))
             = Some (tt, s')
             /\ RECEIVED_NEW_VIDEO_MODE (signal s') = false).
Proof.
  split.
  - unfold kc_get_next_capture_event. simpl.
    repeat (flag_split; simpl; try reflexivity).
  - unfold kc_get_next_capture_event.
    destruct (UNRECOVERABLE_CAPTURE_ERROR (signal s)); [simpl; discriminate|].
    destruct (RECEIVED_NEW_VIDEO_MODE (signal s)) eqn:Hnew.
    + intros _. simpl. repeat split.
      intros reported Hrep. eexists. split.
      * apply (kc_apply_new_capture_resolution_eq _ reported Hrep).
      * unfold clear_RECEIVED_NEW_VIDEO_MODE. reflexivity.
    + repeat (flag_split; simpl; try discriminate).
Qed.

End NewMode.

(** ** Aliases *)

Section Aliases.
Context {dev : RGBEasy}.

(** The calls with which [kc_force_capture_input_resolution] acts on the
    card. *)
Definition is_resolution_call (c : rgb_call) : bool :=
  match c with
  | RGBTestCaptureWidth _ | RGBSetCaptureWidth _
  | RGBSetCaptureHeight _ | RGBSetOutputSize _ _ => true
  | _ => false
  end.

Definition no_alias_for (res : resolution_s) (l : list mode_alias_s) : Prop :=
  Forall (fun b => same_size (from b) res = false) l.

(** The search returns the position of the first alias whose [from] has
    the wanted size, and -1 when there is none. *)
Lemma alias_index_from_first (l : list mode_alias_s) (res : resolution_s) (i : Z) :
  (no_alias_for res l /\ alias_index_from i l res = -1)
  \/ (exists pre a post,
        l = pre ++ a :: post
        /\ no_alias_for res pre
        /\ same_size (from a) res = true
        /\ alias_index_from i l res = i + Z.of_nat (List.length pre)).
Proof.
  revert i. induction l as [|b rest IH]; intros i.
  - left. split; [constructor | reflexivity].
  - simpl. change ((w (from b) =? w res) && (h (from b) =? h res))
      with (same_size (from b) res).
    destruct (same_size (from b) res) eqn:Hb.
    + right. exists [], b, rest. simpl. repeat split; [constructor | exact Hb | lia].
    + destruct (IH (i + 1)) as [(Hnone & Hidx) | (pre & a & post & Hl & Hpre & Ha & Hidx)].
      * left. split; [constructor; assumption | exact Hidx].
      * right. exists (b :: pre), a, post. subst rest. simpl List.length.
        repeat split; [constructor; assumption | exact Ha | rewrite Hidx; lia].
Qed.

Lemma alias_index_found (l : list mode_alias_s) (res : resolution_s) (a : mode_alias_s)
    (i : Z) :
  In a l -> same_size (from a) res = true -> i <= alias_index_from i l res.
Proof.
  intros Hin Ha.
  destruct (alias_index_from_first l res i)
    as [(Hnone & _) | (pre & a' & post & _ & _ & _ & Hidx)].
  - unfold no_alias_for in Hnone. rewrite Forall_forall in Hnone.
    specialize (Hnone a Hin). congruence.
  - rewrite Hidx. lia.
Qed.

(** C1, evaluated on the code.  Let the card report a resolution for which
    the alias list holds an alias to a different resolution.  Handling the
    NewVideoMode event then finds the alias ([kc_alias_resolution_index] is
    not negative) but sends no resolution call to the card: the calls made
    are exactly the eight parameter writes for the reported resolution, not
    those keyed on the alias target; [IS_ALIASED_INPUT_RESOLUTION] ends
    false and [SKIP_NEXT_NUM_FRAMES] is not raised.  [aliased] hands
    [kc_force_capture_input_resolution] the resolution it was given instead
    of the alias target, and that request is turned down as already set. *)
Theorem alias_target_never_forced (s : capture_s dev) (reported : resolution_s)
    (a : mode_alias_s) :
  capture_resolution s = Some (reported, s) ->
  In a (ALIASES s) ->
  same_size (from a) reported = true ->
  same_size (to a) reported = false ->
  0 <= kc_alias_resolution_index s reported
  /\ exists s',
       kc_apply_new_capture_resolution s = Some (tt, s')
       /\ api_log s'
          = api_log s ++ mode_parameter_calls (kc_mode_params_for_resolution s reported)
       /\ existsb is_resolution_call
            (mode_parameter_calls (kc_mode_params_for_resolution s reported)) = false
       /\ IS_ALIASED_INPUT_RESOLUTION s' = false
       /\ SKIP_NEXT_NUM_FRAMES s' = SKIP_NEXT_NUM_FRAMES s.
Proof.
  intros Hrep Hin Hfrom _. split.
  - unfold kc_alias_resolution_index. exact (alias_index_found _ _ a 0 Hin Hfrom).
  - exists (clear_RECEIVED_NEW_VIDEO_MODE
              (run_calls (mode_parameter_calls (kc_mode_params_for_resolution s reported))
                         (set_IS_ALIASED_INPUT_RESOLUTION false s))).
    split; [exact (kc_apply_new_capture_resolution_eq s reported Hrep)|].
    destruct (run_calls_frame
                (mode_parameter_calls (kc_mode_params_for_resolution s reported))
                (set_IS_ALIASED_INPUT_RESOLUTION false s))
      as (Ha & _ & _ & _ & Hk & Hi & _ & _).
    destruct (clear_flag_frame
                (run_calls (mode_parameter_calls (kc_mode_params_for_resolution s reported))
                           (set_IS_ALIASED_INPUT_RESOLUTION false s)))
      as (Ca & Ci & Ck & _).
    rewrite Ca, Ci, Ck, Ha, Hk, Hi.
    split; [reflexivity|]. split; [reflexivity|]. split; reflexivity.
Qed.

(** Storing a list of aliases goes through whenever there is no signal or
    the card reports its resolution; it changes [ALIASES] and the log of
    outside calls, and nothing else that the alias functions read. *)
Lemma kc_update_alias_resolutions_runs (aliases : list mode_alias_s) (s : capture_s dev) :
  (kc_no_signal s = true \/ exists reported, capture_resolution s = Some (reported, s)) ->
  exists s',
    kc_update_alias_resolutions aliases s = Some (tt, s')
    /\ ALIASES s' = aliases.
Proof.
  intros Hready.
  unfold kc_update_alias_resolutions, bind, modify, gets, notify, ret.
  change (kc_no_signal (set_ALIASES aliases s)) with (kc_no_signal s).
  destruct (kc_no_signal s) eqn:Hsig; simpl.
  - eexists. split; reflexivity.
  - destruct Hready as [Hno | (reported & Hrep)]; [congruence|].
    rewrite (capture_resolution_same_card s (set_ALIASES aliases s) reported
               eq_refl eq_refl Hrep).
    simpl. destruct (find _ aliases); eexists; split; reflexivity.
Qed.

(** C6, as the code has it.  [kc_update_alias_resolutions] stores the list
    it is given as it is, duplicates and order included, and
    [kc_alias_resolution_index] resolves a resolution to the first alias of
    the stored list whose [from] has that size (-1 when there is none): of
    several aliases with one [from], the earliest is the one in force.  The
    call returns whenever there is no signal or the card reports its
    resolution. *)
Theorem kc_update_alias_resolutions_stores_list (aliases : list mode_alias_s)
    (s : capture_s dev) :
  (kc_no_signal s = true \/ exists reported, capture_resolution s = Some (reported, s)) ->
  exists s',
    kc_update_alias_resolutions aliases s = Some (tt, s')
    /\ ALIASES s' = aliases
    /\ forall res,
         (no_alias_for res aliases /\ kc_alias_resolution_index s' res = -1)
         \/ (exists pre a post,
               aliases = pre ++ a :: post
               /\ no_alias_for res pre
               /\ same_size (from a) res = true
               /\ kc_alias_resolution_index s' res = Z.of_nat (List.length pre)
               /\ alias_at s' (kc_alias_resolution_index s' res) = a).
Proof.
  intros Hready.
  destruct (kc_update_alias_resolutions_runs aliases s Hready) as (s' & Hrun & Hstored). exists s'. repeat split; try assumption.
  intros res. unfold kc_alias_resolution_index, alias_at. rewrite Hstored.
  destruct (alias_index_from_first aliases res 0)
    as [(Hnone & Hidx) | (pre & a & post & Hl & Hpre & Ha & Hidx)].
  - left. split; assumption.
  - right. exists pre, a, post. rewrite Hidx, Z.add_0_l, Nat2Z.id.
    split; [exact Hl|]. split; [exact Hpre|]. split; [exact Ha|].
    split; [reflexivity|].
    rewrite Hl, app_nth2 by apply Nat.le_refl.
    now rewrite Nat.sub_diag.
Qed.

End Aliases.

(** ** The vertical position *)

Section VerticalPosition.
Context {dev : RGBEasy}.

Lemma to_int_small (z : Z) : is_int z -> to_int z = z.
Proof.
  unfold is_int, to_int. intros Hz.
  rewrite Z.mod_small by lia. lia.
Qed.

(** The function, with its binds carried out. *)
Lemma kc_adjust_capture_vertical_offset_eq (delta : Z) (s : capture_s dev) :
  kc_adjust_capture_vertical_offset delta s
  = if delta =? 0 then Some (true, s)
    else
      let newPos := verPos (video_settings s) + delta in
      if (newPos <? Z.max 2 (to_int (verPos (minimum_video_settings s))))
         || (newPos >? verPos (maximum_video_settings s))
      then Some (false, s)
      else
        Some (true,
              if snd (rgb_do (hw s) (RGBSetVerPosition newPos))
              then after_ext kd_update_gui_video_params
                             (after_call (RGBSetVerPosition newPos) s)
              else after_call (RGBSetVerPosition newPos) s).
Proof.
  unfold kc_adjust_capture_vertical_offset.
  destruct (delta =? 0); [reflexivity|].
  unfold bind, gets, ret, apicall, notify, modify. cbv zeta.
  destruct ((verPos (video_settings s) + delta
               <? Z.max 2 (to_int (verPos (minimum_video_settings s))))
            || (verPos (video_settings s) + delta
                  >? verPos (maximum_video_settings s))); [reflexivity|].
  destruct (snd (rgb_do (hw s) (RGBSetVerPosition (verPos (video_settings s) + delta))));
    reflexivity.
Qed.

(** C7, as the code has it.  With a non-zero [delta],
    [kc_adjust_capture_vertical_offset] returns false and leaves the state
    as it was (no call reaches the card) whenever the new position would
    fall below max(2, driver minimum) or above the driver maximum, and
    otherwise writes exactly the new position; with a zero [delta] it
    returns true and makes no call.  Hence every vertical position this
    function writes is at least 2, whatever minimum the driver reports.
    The driver minimum is taken to fit [int], to which the code converts
    it. *)
Theorem kc_adjust_capture_vertical_offset_bounds (delta : Z) (s : capture_s dev) :
  is_int (verPos (minimum_video_settings s)) ->
  (delta = 0 -> kc_adjust_capture_vertical_offset delta s = Some (true, s))
  /\ (delta <> 0 ->
      verPos (video_settings s) + delta < Z.max 2 (verPos (minimum_video_settings s))
      \/ verPos (video_settings s) + delta > verPos (maximum_video_settings s) ->
      kc_adjust_capture_vertical_offset delta s = Some (false, s))
  /\ (delta <> 0 ->
      Z.max 2 (verPos (minimum_video_settings s)) <= verPos (video_settings s) + delta
        <= verPos (maximum_video_settings s) ->
      exists s',
        kc_adjust_capture_vertical_offset delta s = Some (true, s')
        /\ api_log s' = api_log s ++ [RGBSetVerPosition (verPos (video_settings s) + delta)])
  /\ (forall b s' v,
        kc_adjust_capture_vertical_offset delta s = Some (b, s') ->
        In (RGBSetVerPosition v) (api_log s') ->
        In (RGBSetVerPosition v) (api_log s) \/ 2 <= v).
Proof.
  intros Hmin.
  rewrite kc_adjust_capture_vertical_offset_eq, (to_int_small _ Hmin). cbv zeta.
  set (newPos := verPos (video_settings s) + delta).
  set (lo := verPos (minimum_video_settings s)).
  set (hi := verPos (maximum_video_settings s)).
  destruct (Z.eqb_spec delta 0) as [Hzero | Hnonzero].
  - repeat split; try (intros; congruence).
    intros b s' v [= _ <-] Hin. now left.
  - destruct (Z.ltb_spec newPos (Z.max 2 lo)) as [Hbelow | Hfloor]; simpl.
    + repeat split; try (intros; congruence); try (intros; lia).
      intros b s' v [= _ <-] Hin. now left.
    + pose proof (Zgt_cases newPos hi) as Hcase.
      destruct (newPos >? hi).
      * repeat split; try (intros; congruence); try (intros; lia).
        intros b s' v [= _ <-] Hin. now left.
      * split; [intros; congruence|].
        split; [intros _ [Hlt | Hgt]; lia|].
        split.
        -- intros _ _.
           destruct (snd (rgb_do (hw s) (RGBSetVerPosition newPos)));
             eexists; split; reflexivity.
        -- intros b s' v.
           destruct (snd (rgb_do (hw s) (RGBSetVerPosition newPos)));
             intros [= _ <-]; simpl; intros Hin; apply in_app_or in Hin;
             (destruct Hin as [Hold | [Hnew | []]]; [now left | right]);
             injection Hnew as <-; pose proof (Z.le_max_l 2 lo); lia.
Qed.

End VerticalPosition.

(** ** The alias file: saving, then loading *)

Section AliasRoundTrip.
Context {dev : RGBEasy}.

(** *** Text *)

(** [free_of sep s]: the character [sep] does not occur in [s]. *)
Fixpoint free_of (sep : ascii) (s : string) : Prop :=
  match s with
  | EmptyString => True
  | String c rest => c <> sep /\ free_of sep rest
  end.

Lemma append_assoc (a b c : string) : ((a ++ b) ++ c = a ++ (b ++ c))%string.
Proof. induction a as [|x a IH]; simpl; [reflexivity | now rewrite IH]. Qed.

Lemma free_of_append (sep : ascii) (a b : string) :
  free_of sep a -> free_of sep b -> free_of sep (a ++ b).
Proof.
  induction a as [|x a IH]; simpl; [tauto|].
  intros (Hx & Ha) Hb. split; [exact Hx | exact (IH Ha Hb)].
Qed.

(** A piece free of the separator, followed by a separator, is the first
    piece of the split. *)
Lemma split_on_piece (sep : ascii) (piece rest : string) :
  free_of sep piece ->
  split_on sep (piece ++ String sep rest) = piece :: split_on sep rest.
Proof.
  induction piece as [|c piece IH]; simpl.
  - intros _. now rewrite Ascii.eqb_refl.
  - intros (Hc & Hfree).
    apply Ascii.eqb_neq in Hc. rewrite Hc, (IH Hfree). reflexivity.
Qed.

(** Decimal digits are neither commas nor line ends. *)
Lemma digits_free_of (sep : ascii) (d : Decimal.uint) :
  (sep = comma \/ sep = newline) ->
  free_of sep (DecimalString.NilEmpty.string_of_uint d).
Proof.
  intros Hsep. induction d; simpl; try exact I;
    (split; [destruct Hsep as [-> | ->]; discriminate | assumption]).
Qed.

Lemma decimal_free_of (sep : ascii) (n : Z) :
  (sep = comma \/ sep = newline) -> free_of sep (decimal n).
Proof.
  intros Hsep. unfold decimal, DecimalString.NilZero.string_of_uint.
  destruct (N.to_uint (Z.to_N n)) eqn:Hd;
    try (rewrite <- Hd; apply digits_free_of; exact Hsep).
  simpl. split; [destruct Hsep as [-> | ->]; discriminate | exact I].
Qed.

(** Reading back a streamed number gives the number, as long as it fits
    [uint]. *)
Lemma toUInt_decimal (n : Z) : is_u32 n -> toUInt (decimal n) = n.
Proof.
  unfold is_u32, toUInt, decimal. intros Hn.
  rewrite DecimalString.NilZero.usu.
  - rewrite DecimalN.Unsigned.of_to, Z2N.id by lia.
    destruct (Z.ltb_spec n u32_modulus); [reflexivity | lia].
  - destruct (Z.to_N n); simpl; [discriminate|].
    apply DecimalPos.Unsigned.to_uint_nonnil.
Qed.

(** *** Lines and rows *)

(** The fields of the line of an alias. *)
Definition alias_fields (a : mode_alias_s) : list string :=
  [ decimal (w (from a)); decimal (h (from a)); decimal (w (to a)); decimal (h (to a)) ].

(** The line of an alias without its line end. *)
Definition alias_body (a : mode_alias_s) : string :=
  (decimal (w (from a)) ++ String comma
    (decimal (h (from a)) ++ String comma
      (decimal (w (to a)) ++ String comma
        (decimal (h (to a)) ++ String comma EmptyString))))%string.

Lemma alias_line_body (a : mode_alias_s) (rest : string) :
  (alias_line a ++ rest)%string = (alias_body a ++ String newline rest)%string.
Proof.
  unfold alias_line, alias_body.
  repeat (rewrite append_assoc; simpl). reflexivity.
Qed.

Lemma alias_body_free_of_newline (a : mode_alias_s) : free_of newline (alias_body a).
Proof.
  unfold alias_body.
  repeat (apply free_of_append;
          [apply decimal_free_of; now right | simpl; split; [discriminate|]]).
  exact I.
Qed.

Lemma csv_row_alias_body (a : mode_alias_s) : csv_row (alias_body a) = alias_fields a.
Proof.
  unfold csv_row, terminated_pieces, alias_body.
  rewrite !split_on_piece by (apply decimal_free_of; now left).
  reflexivity.
Qed.

Lemma split_lines_alias_file (l : list mode_alias_s) :
  split_on newline (alias_file_text l) = map alias_body l ++ [EmptyString].
Proof.
  induction l as [|a l IH]; simpl; [reflexivity|].
  rewrite alias_line_body, split_on_piece by apply alias_body_free_of_newline.
  now rewrite IH.
Qed.

(** Every saved line is read as the row of its four fields. *)
Lemma csv_contents_alias_file (l : list mode_alias_s) :
  csv_contents (alias_file_text l) = map alias_fields l.
Proof.
  unfold csv_contents, terminated_pieces.
  rewrite split_lines_alias_file, last_last, removelast_last, map_map.
  induction l as [|a l IH]; simpl; [reflexivity|].
  rewrite csv_row_alias_body. simpl. now rewrite IH.
Qed.

(** *** Aliases *)

Definition alias_in_range (a : mode_alias_s) : Prop :=
  is_u32 (w (from a)) /\ is_u32 (h (from a)) /\ is_u32 (w (to a)) /\ is_u32 (h (to a)).

(** What identifies an alias: the two sizes. *)
Definition alias_sizes (a : mode_alias_s) : list Z :=
  [ w (from a); h (from a); w (to a); h (to a) ].

(** The alias the loader builds from the row of [a]. *)
Definition as_loaded (a : mode_alias_s) : mode_alias_s :=
  mk_alias (mk_resolution (w (from a)) (h (from a)) 0)
           (mk_resolution (w (to a)) (h (to a)) 0).

Lemma row_values (a : mode_alias_s) :
  alias_in_range a -> map toUInt (alias_fields a) = alias_sizes a.
Proof.
  intros (H1 & H2 & H3 & H4). unfold alias_fields, alias_sizes. simpl.
  now rewrite !toUInt_decimal.
Qed.

Lemma aliases_of_saved_rows (l : list mode_alias_s) :
  Forall alias_in_range l ->
  aliases_of_rows (map alias_fields l) = Some (map as_loaded l).
Proof.
  induction 1 as [|a l (H1 & H2 & H3 & H4) _ IH]; simpl; [reflexivity|].
  rewrite IH, !toUInt_decimal by assumption. reflexivity.
Qed.

(** What [toUInt] returns is a [uint]. *)
Lemma toUInt_range (field : string) : is_u32 (toUInt field).
Proof.
  unfold toUInt, is_u32.
  destruct (DecimalString.NilZero.uint_of_string field) as [d|];
    [|unfold u32_modulus; lia].
  destruct (Z.ltb_spec (Z.of_N (N.of_uint d)) u32_modulus);
    [split; [apply N2Z.is_nonneg | assumption] | unfold u32_modulus; lia].
Qed.

(** The aliases the loop of [kc_load_aliases] builds hold the values of
    the fields, row by row. *)
Lemma aliases_of_rows_values (rows : list (list string)) (l : list mode_alias_s) :
  aliases_of_rows rows = Some l -> map alias_sizes l = map (map toUInt) rows.
Proof.
  revert l. induction rows as [|row rest IH]; intros l; simpl.
  - now intros [= <-].
  - destruct row as [|f1 [|f2 [|f3 [|f4 [|f5 more]]]]]; try discriminate.
    destruct (aliases_of_rows rest) as [others|]; [|discriminate].
    intros [= <-]. simpl. now rewrite (IH others eq_refl).
Qed.

(** *** Sorting *)

Variable ulong : long_width.

Definition key_le (a b : mode_alias_s) : Prop :=
  alias_sort_key ulong a <= alias_sort_key ulong b.

Lemma insert_alias_perm (a : mode_alias_s) (l : list mode_alias_s) :
  Permutation (insert_alias ulong a l) (a :: l).
Proof.
  induction l as [|b l IH]; simpl; [reflexivity|].
  destruct (alias_sort_key ulong b <? alias_sort_key ulong a); [|reflexivity].
  rewrite IH. apply perm_swap.
Qed.

Lemma sort_aliases_perm (l : list mode_alias_s) : Permutation (sort_aliases ulong l) l.
Proof.
  induction l as [|a l IH]; simpl; [reflexivity|].
  rewrite insert_alias_perm. now constructor.
Qed.

Lemma insert_alias_sorted (a : mode_alias_s) (l : list mode_alias_s) :
  StronglySorted key_le l -> StronglySorted key_le (insert_alias ulong a l).
Proof.
  induction 1 as [|b l Hsorted IH Hall]; simpl.
  - constructor; constructor.
  - destruct (Z.ltb_spec (alias_sort_key ulong b) (alias_sort_key ulong a)) as [Hlt | Hge].
    + constructor; [exact IH|].
      rewrite insert_alias_perm. constructor; [unfold key_le; lia | exact Hall].
    + constructor; [constructor; assumption|].
      constructor; [exact Hge|].
      eapply Forall_impl; [|exact Hall]. unfold key_le. intros c Hc. lia.
Qed.

Lemma sort_aliases_sorted (l : list mode_alias_s) :
  StronglySorted key_le (sort_aliases ulong l).
Proof.
  induction l as [|a l IH]; simpl; [constructor | now apply insert_alias_sorted].
Qed.

(** *** Loading *)

(** Telling the GUI about the aliases leaves them as they are. *)
Lemma broadcast_keeps_aliases (l : list mode_alias_s) (s : capture_s dev) :
  ALIASES (fold_left (fun acc a => after_ext (kd_signal_new_known_alias a) acc) l s)
  = ALIASES s.
Proof.
  revert s. induction l as [|a l IH]; intros s; simpl; [reflexivity|].
  now rewrite IH.
Qed.

(** A file whose rows all have four fields loads whenever the aliases can
    be stored, and leaves them sorted in [ALIASES]. *)
Lemma kc_load_aliases_runs (text : string) (automaticCall : bool)
    (fromDisk : list mode_alias_s) (s : capture_s dev) :
  aliases_of_rows (csv_contents text) = Some fromDisk ->
  (kc_no_signal s = true \/ exists reported, capture_resolution s = Some (reported, s)) ->
  exists s',
    kc_load_aliases ulong (Some text) automaticCall s = Some (true, s')
    /\ ALIASES s' = sort_aliases ulong fromDisk.
Proof.
  intros Hrows Hready.
  destruct (kc_update_alias_resolutions_runs fromDisk s Hready) as (s1 & Hrun & Hstored).
  unfold kc_load_aliases. rewrite Hrows. unfold bind at 1. rewrite Hrun.
  unfold kc_broadcast_aliases_to_gui, bind, modify, notify, ret.
  destruct automaticCall; simpl; eexists; (split; [reflexivity|]);
    simpl; rewrite broadcast_keeps_aliases; simpl; now rewrite Hstored.
Qed.

(** C8, as amended.  Let the aliases in force have sizes that fit [uint].
    A save that can write its file writes one line per alias; the loader
    reads every such line as a row of exactly four fields, each an unsigned
    number, whose values are the four sizes of the alias (zero where a size
    is zero); and loading the saved text, in any state in which the aliases
    can be stored, succeeds (the malformed-row exit is not taken) and leaves
    in [ALIASES] the same aliases, as pairs of sizes, in ascending order of
    [to.w * to.h], the product taken in [unsigned long] of either width. *)
Theorem saved_aliases_load_back (saver loader : capture_s dev) (automaticCall : bool) :
  Forall alias_in_range (ALIASES saver) ->
  (kc_no_signal loader = true
   \/ exists reported, capture_resolution loader = Some (reported, loader)) ->
  kc_save_aliases true saver
  = Some ((true, Some (alias_file_text (ALIASES saver))), saver)
  /\ Forall (fun row => List.length row = 4%nat)
            (csv_contents (alias_file_text (ALIASES saver)))
  /\ Forall (Forall (fun field => is_u32 (toUInt field)))
            (csv_contents (alias_file_text (ALIASES saver)))
  /\ map (map toUInt) (csv_contents (alias_file_text (ALIASES saver)))
     = map alias_sizes (ALIASES saver)
  /\ exists loaded,
       kc_load_aliases ulong (Some (alias_file_text (ALIASES saver))) automaticCall loader
       = Some (true, loaded)
       /\ Permutation (map alias_sizes (ALIASES loaded)) (map alias_sizes (ALIASES saver))
       /\ StronglySorted key_le (ALIASES loaded).
Proof.
  intros Hrange Hready.
  rewrite csv_contents_alias_file.
  split; [reflexivity|].
  split; [apply Forall_map, Forall_forall; reflexivity|].
  split.
  { apply Forall_forall. intros row _. apply Forall_forall. intros field _.
    apply toUInt_range. }
  split.
  { rewrite map_map. apply map_ext_in. intros a Hin.
    apply row_values. rewrite Forall_forall in Hrange. now apply Hrange. }
  destruct (kc_load_aliases_runs (alias_file_text (ALIASES saver)) automaticCall
              (map as_loaded (ALIASES saver)) loader) as (loaded & Hload & Hstored).
  - rewrite csv_contents_alias_file. now apply aliases_of_saved_rows.
  - exact Hready.
  - exists loaded. split; [exact Hload|]. rewrite Hstored. split.
    + rewrite (Permutation_map alias_sizes (sort_aliases_perm _)), map_map.
      reflexivity.
    + apply sort_aliases_sorted.
Qed.

End AliasRoundTrip.

(** ** The scenarios of the specification, on the simulated card *)

Section Scenarios.
Import SimCard.

(** C2 at a concrete run: four 2 x 2 frames after start-up. *)
Lemma four_frames_without_mark_processed_witness :
  counters (on_frames [small_frame; small_frame; small_frame; small_frame]
                      (initial (sim_card 640 480 10)))
  = mk_counters 0 1 3.
Proof.
  apply (four_frames_without_mark_processed small_frame small_frame small_frame
           small_frame (initial (sim_card 640 480 10))); reflexivity.
Defined.

(** C2 as stated fails: after the four frames [captured] is 1, not 4;
    a dropped frame does not advance it. *)
Lemma four_frames_captured_is_one :
  CNT_FRAMES_CAPTURED
    (counters (on_frames [small_frame; small_frame; small_frame; small_frame]
                         (initial (sim_card 640 480 10)))) = 1
  /\ CNT_FRAMES_CAPTURED
       (counters (on_frames [small_frame; small_frame; small_frame; small_frame]
                            (initial (sim_card 640 480 10)))) <> 4.
Proof. split; [reflexivity | discriminate]. Qed.

(** C9 at a concrete state: two frames to skip, one frame captured. *)
Lemma kc_mark_frame_buffer_as_processed_witness :
  let s := set_SKIP_NEXT_NUM_FRAMES 2
             (frame_captured (fst small_frame) (snd small_frame)
                             (initial (sim_card 640 480 10))) in
  CNT_FRAMES_CAPTURED (counters (kc_mark_frame_buffer_as_processed s))
  = CNT_FRAMES_PROCESSED (counters (kc_mark_frame_buffer_as_processed s))
  /\ SKIP_NEXT_NUM_FRAMES (kc_mark_frame_buffer_as_processed s) = 1.
Proof.
  intros s.
  assert (Hrange : is_u32 (SKIP_NEXT_NUM_FRAMES s)) by (split; [discriminate | reflexivity]).
  pose proof (kc_mark_frame_buffer_as_processed_spec s Hrange) as (Heq & _ & Hdec & _).
  split; [exact Heq | exact (Hdec eq_refl)].
Defined.

(** C3 as stated fails: after a mode change, the event pump returns
    NewVideoMode and [RECEIVED_NEW_VIDEO_MODE] is still set when it
    returns. *)
Lemma new_video_mode_flag_survives_next_event :
  fst (kc_get_next_capture_event (video_mode_changed (initial (sim_card 640 480 10))))
  = CEVENT_NEW_VIDEO_MODE
  /\ RECEIVED_NEW_VIDEO_MODE
       (signal (snd (kc_get_next_capture_event
                       (video_mode_changed (initial (sim_card 640 480 10)))))) = true.
Proof. split; reflexivity. Qed.

(** C1 at the alias-switch scenario: the calls made are the writes of the
    parameters stored for 800 x 600 (vertical position 11), not of those
    stored for 1024 x 768 (vertical position 22), and no frame is set to be
    skipped. *)
Lemma alias_target_never_forced_witness :
  exists s',
    kc_apply_new_capture_resolution alias_switch = Some (tt, s')
    /\ api_log s' = mode_parameter_calls params_800x600
    /\ IS_ALIASED_INPUT_RESOLUTION s' = false
    /\ SKIP_NEXT_NUM_FRAMES s' = 0.
Proof.
  destruct (alias_target_never_forced alias_switch res_800x600 alias_800_to_1024)
    as (_ & s' & Hrun & Hlog & _ & Hflag & Hskip);
    [reflexivity | left; reflexivity | reflexivity | reflexivity |].
  exists s'. repeat split; assumption.
Defined.

(** C6 as stated fails: given two aliases for 800 x 600, the unit stores
    both, and the lookup resolves 800 x 600 to the first of them (index 0,
    target 1024 x 768), not to the last (index 1, target 640 x 480). *)
Lemma duplicate_aliases_are_kept :
  exists s',
    kc_update_alias_resolutions [alias_800_to_1024; alias_800_to_640]
                                (initial (sim_card 1280 1024 10)) = Some (tt, s')
    /\ ALIASES s' = [alias_800_to_1024; alias_800_to_640]
    /\ List.length (filter (fun a => same_size (from a) res_800x600) (ALIASES s')) = 2%nat
    /\ kc_alias_resolution_index s' res_800x600 = 0
    /\ to (alias_at s' (kc_alias_resolution_index s' res_800x600))
       = mk_resolution 1024 768 0.
Proof. eexists. repeat split. Qed.

(** C6 at the same list of two aliases. *)
Lemma kc_update_alias_resolutions_stores_list_witness :
  exists s',
    kc_update_alias_resolutions [alias_800_to_1024; alias_800_to_640]
                                (initial (sim_card 1280 1024 10)) = Some (tt, s')
    /\ ALIASES s' = [alias_800_to_1024; alias_800_to_640].
Proof.
  destruct (kc_update_alias_resolutions_stores_list
              [alias_800_to_1024; alias_800_to_640] (initial (sim_card 1280 1024 10)))
    as (s' & Hrun & Hstored & _).
  - right. eexists. reflexivity.
  - exists s'. split; assumption.
Defined.

(** C7 as stated fails twice over.  With a zero [delta] and the card at
    vertical position 1, the adjustment returns true although the position
    is below 2.  And applying stored mode parameters whose vertical
    position is 1 writes that 1 to the card. *)
Lemma vertical_position_below_two :
  kc_adjust_capture_vertical_offset 0 (initial (sim_card 640 480 1))
  = Some (true, initial (sim_card 640 480 1))
  /\ verPos (video_settings (initial (sim_card 640 480 1))) + 0 < 2
  /\ exists s',
       kc_apply_mode_parameters (mk_resolution 640 480 32) low_position_stored
       = Some (true, s')
       /\ In (RGBSetVerPosition 1) (api_log s').
Proof.
  split; [reflexivity|]. split; [reflexivity|].
  eexists. split; [reflexivity|]. simpl. tauto.
Qed.

(** C7 at a concrete adjustment: from position 10, a step of -9 would
    reach 1 and is turned down; the card reports a minimum of 0. *)
Lemma kc_adjust_capture_vertical_offset_bounds_witness :
  kc_adjust_capture_vertical_offset (-9) (initial (sim_card 640 480 10))
  = Some (false, initial (sim_card 640 480 10)).
Proof.
  assert (Hmin : is_int (verPos (minimum_video_settings (initial (sim_card 640 480 10)))))
    by (split; [discriminate | reflexivity]).
  destruct (kc_adjust_capture_vertical_offset_bounds (-9) (initial (sim_card 640 480 10)) Hmin)
    as (_ & Hrefuse & _).
  apply Hrefuse; [discriminate | left; reflexivity].
Defined.

(** The line end, as text. *)
Definition line_end : string := String newline EmptyString.

(** C8 as stated fails: a row of zeros is a well-formed row, and loading
    it puts into force an alias whose sizes are 0.  Saved again, that alias
    is written as four fields that are not positive numbers. *)
Lemma alias_of_zeros_is_saved_as_zeros :
  exists s,
    kc_load_aliases long_64_bits (Some ("0,0,0,0," ++ line_end)%string) true
                    (initial (sim_card 640 480 10)) = Some (true, s)
    /\ ALIASES s = [mk_alias (mk_resolution 0 0 0) (mk_resolution 0 0 0)]
    /\ kc_save_aliases true s = Some ((true, Some ("0,0,0,0," ++ line_end)%string), s)
    /\ csv_contents ("0,0,0,0," ++ line_end)%string = [["0"; "0"; "0"; "0"]]%string
    /\ ~ Forall (Forall (fun field => 0 < toUInt field))
               (csv_contents (alias_file_text (ALIASES s))).
Proof.
  eexists. split; [reflexivity|]. split; [reflexivity|]. split; [reflexivity|].
  split; [reflexivity|].
  intros Hall. inversion Hall as [|row rows Hrow _]; subst.
  inversion Hrow as [|field fields Hfield _]; subst.
  vm_compute in Hfield. discriminate.
Qed.

(** Three aliases, held in an order that is not that of their targets'
    areas; the area of the first is 2^32. *)
Definition three_aliases : capture_s sim :=
  set_ALIASES [ mk_alias (mk_resolution 1 1 0) (mk_resolution 65536 65536 0);
                alias_800_to_1024;
                mk_alias (mk_resolution 2 2 0) (mk_resolution 1 1 0) ]
              (initial (sim_card 640 480 10)).

(** C8 at three aliases that the load has to reorder: saved and loaded
    into a freshly started unit, the three come back, sorted. *)
Lemma saved_aliases_load_back_witness :
  exists loaded,
    kc_load_aliases long_64_bits (Some (alias_file_text (ALIASES three_aliases))) false
                    (initial (sim_card 640 480 10)) = Some (true, loaded)
    /\ Permutation (map alias_sizes (ALIASES loaded))
                   (map alias_sizes (ALIASES three_aliases))
    /\ StronglySorted (key_le long_64_bits) (ALIASES loaded).
Proof.
  destruct (saved_aliases_load_back long_64_bits three_aliases
              (initial (sim_card 640 480 10)) false)
    as (_ & _ & _ & _ & loaded & Hload & Hperm & Hsorted).
  - repeat constructor; discriminate.
  - right. eexists. reflexivity.
  - exists loaded. repeat split; assumption.
Defined.

(** The order in which the three come back depends on the width of
    [unsigned long]: at 64 bits the alias whose target has the area 2^32
    comes last, at 32 bits its area wraps to 0 and it comes first. *)
Lemma loaded_order_by_long_width :
  (exists loaded,
     kc_load_aliases long_64_bits (Some (alias_file_text (ALIASES three_aliases))) false
                     (initial (sim_card 640 480 10)) = Some (true, loaded)
     /\ map alias_sizes (ALIASES loaded)
        = [[2; 2; 1; 1]; [800; 600; 1024; 768]; [1; 1; 65536; 65536]])
  /\ (exists loaded,
        kc_load_aliases long_32_bits (Some (alias_file_text (ALIASES three_aliases))) false
                        (initial (sim_card 640 480 10)) = Some (true, loaded)
        /\ map alias_sizes (ALIASES loaded)
           = [[1; 1; 65536; 65536]; [2; 2; 1; 1]; [800; 600; 1024; 768]]).
Proof. split; eexists; (split; [vm_compute; reflexivity | reflexivity]). Qed.

End Scenarios.

End CaptureFacts.

(** * Properties of the scaler unit *)

Module ScalerFacts.

Section OutputResolution.

Variables MAX_OUTPUT_WIDTH MAX_OUTPUT_HEIGHT MIN_OUTPUT_WIDTH MIN_OUTPUT_HEIGHT : Z.
Variable real : Type.
Variable round_scaled : Z -> real -> Z.

Local Abbreviation output_resolution :=
  (ks_output_resolution MAX_OUTPUT_WIDTH MAX_OUTPUT_HEIGHT MIN_OUTPUT_WIDTH
                        MIN_OUTPUT_HEIGHT real round_scaled).

(** The resolution [ks_output_resolution] has arrived at when it reaches
    its bounds check: the base resolution, magnified if asked. *)
Definition requested_resolution (inRes : resolution_s) (sc : scaler_s real) : resolution_s :=
  let base := if FORCE_BASE_RESOLUTION sc then BASE_RESOLUTION sc else inRes in
  if FORCE_SCALING sc
  then mk_resolution (round_scaled (w base) (OUTPUT_SCALING sc))
                     (round_scaled (h base) (OUTPUT_SCALING sc))
                     (bpp base)
  else base.

Lemma ks_output_resolution_not_recording (inRes : resolution_s) (sc : scaler_s real) :
  output_resolution None inRes sc
  = mk_resolution
      (bound_width MAX_OUTPUT_WIDTH MAX_OUTPUT_HEIGHT MIN_OUTPUT_WIDTH
                   (w (requested_resolution inRes sc)))
      (bound_height MAX_OUTPUT_HEIGHT MIN_OUTPUT_HEIGHT
                    (h (requested_resolution inRes sc)))
      OUTPUT_BIT_DEPTH.
Proof.
  unfold ks_output_resolution, requested_resolution.
  destruct (FORCE_BASE_RESOLUTION sc), (FORCE_SCALING sc); reflexivity.
Qed.

(** C4, evaluated on the code.  The [bpp] of the output resolution is
    always 32.  While recording, the output is the recorder's resolution,
    with no bounds check.  Otherwise the height is brought into
    [MIN_OUTPUT_HEIGHT, MAX_OUTPUT_HEIGHT], and a width that does not exceed
    [MAX_OUTPUT_WIDTH] is raised to [MIN_OUTPUT_WIDTH] when below it and kept
    when not; but a width that exceeds [MAX_OUTPUT_WIDTH] is set to
    [MAX_OUTPUT_HEIGHT], the bound of the other axis, and not to
    [MAX_OUTPUT_WIDTH]. *)
Theorem ks_output_resolution_bounds (recording : option resolution_s)
    (inRes : resolution_s) (sc : scaler_s real) :
  bpp (output_resolution recording inRes sc) = 32
  /\ (forall rec, recording = Some rec ->
        w (output_resolution recording inRes sc) = w rec
        /\ h (output_resolution recording inRes sc) = h rec)
  /\ (recording = None ->
      (MAX_OUTPUT_WIDTH < w (requested_resolution inRes sc) ->
         w (output_resolution recording inRes sc) = MAX_OUTPUT_HEIGHT)
      /\ (w (requested_resolution inRes sc) <= MAX_OUTPUT_WIDTH ->
            w (output_resolution recording inRes sc)
            = Z.max MIN_OUTPUT_WIDTH (w (requested_resolution inRes sc)))
      /\ (MIN_OUTPUT_HEIGHT <= MAX_OUTPUT_HEIGHT ->
            MIN_OUTPUT_HEIGHT <= h (output_resolution recording inRes sc)
                              <= MAX_OUTPUT_HEIGHT)).
Proof.
  split; [destruct recording; reflexivity|].
  split; [intros rec ->; split; reflexivity|].
  intros ->. rewrite ks_output_resolution_not_recording. simpl.
  unfold bound_width, bound_height.
  set (req := requested_resolution inRes sc).
  repeat split.
  - intros Habove. apply Z.gtb_lt in Habove. now rewrite Habove.
  - intros Hwithin.
    pose proof (Zgt_cases (w req) MAX_OUTPUT_WIDTH) as Hc.
    destruct (w req >? MAX_OUTPUT_WIDTH); [lia|].
    destruct (Z.ltb_spec (w req) MIN_OUTPUT_WIDTH); lia.
  - pose proof (Zgt_cases (h req) MAX_OUTPUT_HEIGHT) as Hc.
    destruct (h req >? MAX_OUTPUT_HEIGHT); [lia|].
    destruct (Z.ltb_spec (h req) MIN_OUTPUT_HEIGHT); lia.
  - pose proof (Zgt_cases (h req) MAX_OUTPUT_HEIGHT) as Hc.
    destruct (h req >? MAX_OUTPUT_HEIGHT); [lia|].
    destruct (Z.ltb_spec (h req) MIN_OUTPUT_HEIGHT); lia.
Qed.

End OutputResolution.

(** A scaler that magnifies threefold; a whole factor is held as an
    integer, for which [round(n * s)] is the product. *)
Definition magnify_threefold : scaler_s Z :=
  mk_scaler nullptr nullptr native true (mk_resolution 640 480 0) false 3 true.

(** C4 at a concrete input.  In a build whose output bounds are 160 x 100
    to 4096 x 2160, a 1920 x 1080 capture magnified threefold asks for a
    width of 5760, which comes out as 2160, the maximum height, where a
    clamp to the maximum width gives 4096. *)
Lemma width_bound_takes_maximum_height :
  ks_output_resolution 4096 2160 160 100 Z (fun n s => n * s) None
                       (mk_resolution 1920 1080 32) magnify_threefold
  = mk_resolution 2160 2160 32.
Proof. reflexivity. Qed.

Section PixelFormat.

(** [s_convert_frame_to_bgra] taken by itself.  In a build with OpenCV and
    with the colour-conversion buffer allocated, a frame whose pixel format
    is neither RGB565 nor RGB555 is converted BGR to BGRA when its depth is
    24 and RGB565 to BGRA at every other depth, 32 included: the choice of
    RGBA to BGRA made for depth 32 is overwritten by the test for depth 24
    that follows it.  [ks_scale_frame], the only caller, passes no frame of
    32 bits. *)
Lemma conversion_for_unrecognised_format (pixel_format : PIXELFORMAT)
    (frame : captured_frame_s) :
  pixel_format <> RGB_PIXELFORMAT_565 ->
  pixel_format <> RGB_PIXELFORMAT_555 ->
  s_convert_frame_to_bgra true pixel_format false frame
  = Some (if bpp (frame_r frame) =? 24 then CV_BGR2BGRA else CV_BGR5652BGRA).
Proof.
  intros H565 H555. unfold s_convert_frame_to_bgra, conversion_type.
  destruct pixel_format; try congruence; reflexivity.
Qed.

(** The function by itself at a 32-bit frame in the 888 format: the
    conversion asked for is RGB565 to BGRA. *)
Lemma conversion_of_a_32_bit_frame :
  s_convert_frame_to_bgra true RGB_PIXELFORMAT_888 false
    (mk_frame (mk_resolution 640 480 32) (Some []))
  = Some CV_BGR5652BGRA.
Proof.
  apply (conversion_for_unrecognised_format RGB_PIXELFORMAT_888
           (mk_frame (mk_resolution 640 480 32) (Some []))); discriminate.
Qed.

End PixelFormat.

Section FilterLookup.

Variable USE_OPENCV : bool.

Definition no_filter_named (wanted : string) (filters : list scaling_filter_s) : Prop :=
  Forall (fun g => name g <> wanted) filters.

(** The search stops at the first filter with the wanted name. *)
Lemma scaler_index_from_first (filters : list scaling_filter_s) (wanted : string) (i : nat) :
  (no_filter_named wanted filters /\ scaler_index_from i filters wanted = None)
  \/ (exists pre f post,
        filters = pre ++ f :: post
        /\ no_filter_named wanted pre
        /\ name f = wanted
        /\ scaler_index_from i filters wanted = Some (i + List.length pre)%nat).
Proof.
  revert i. induction filters as [|g rest IH]; intros i; simpl.
  - left. split; [constructor | reflexivity].
  - destruct (String.eqb_spec (name g) wanted) as [Hg | Hg].
    + right. exists [], g, rest. simpl. rewrite Nat.add_0_r.
      repeat split; [constructor | exact Hg].
    + destruct (IH (S i)) as [(Hnone & Hidx) | (pre & f & post & Hl & Hpre & Hf & Hidx)].
      * left. split; [constructor; assumption | exact Hidx].
      * right. exists (g :: pre), f, post. subst rest. simpl.
        rewrite Hidx, Nat.add_succ_r.
        repeat split; [constructor; assumption | exact Hf].
Qed.

(** No two filters of the list share a name. *)
Lemma SCALING_FILTERS_names_differ :
  NoDup (map name (SCALING_FILTERS USE_OPENCV)).
Proof.
  unfold SCALING_FILTERS. destruct USE_OPENCV; simpl;
    repeat (constructor; [simpl; intuition discriminate|]); constructor.
Qed.

Lemma SCALING_FILTERS_first :
  exists rest, SCALING_FILTERS USE_OPENCV = mk_filter "Nearest" s_scaler_nearest :: rest.
Proof. unfold SCALING_FILTERS. destruct USE_OPENCV; eexists; reflexivity. Qed.

(** Names tell the filters of a list apart when no two are the same. *)
Lemma same_name_same_filter (filters : list scaling_filter_s) (f g : scaling_filter_s) :
  NoDup (map name filters) -> In f filters -> In g filters -> name f = name g -> f = g.
Proof.
  induction filters as [|x rest IH]; simpl; [tauto|].
  intros Hnodup Hf Hg Hname. inversion Hnodup as [|? ? Hnotin Hrest]; subst.
  destruct Hf as [<- | Hf], Hg as [<- | Hg]; try reflexivity.
  - exfalso. apply Hnotin. rewrite Hname. now apply in_map.
  - exfalso. apply Hnotin. rewrite <- Hname. now apply in_map.
  - now apply IH.
Qed.

(** The function, with the assertion on the list discharged. *)
Lemma ks_scaler_for_name_string_eq (wanted : string) :
  ks_scaler_for_name_string USE_OPENCV wanted
  = Some (filter_at match scaler_index_from 0 (SCALING_FILTERS USE_OPENCV) wanted with
                    | Some i => i
                    | None => 0%nat
                    end).
Proof.
  unfold ks_scaler_for_name_string.
  destruct (scaler_index_from 0 (SCALING_FILTERS USE_OPENCV) wanted);
    unfold SCALING_FILTERS; destruct USE_OPENCV; reflexivity.
Qed.

(** C10.  For every name, [ks_scaler_for_name_string] returns a pointer
    that is not null and points into the list of filters: to the one filter
    with that name when there is one, and to the first filter of the list,
    "Nearest", when there is none.  The assertion on an empty list never
    fails, and [ks_set_upscaling_filter] stores the pointer so found. *)
Theorem ks_scaler_for_name_string_never_null (wanted : string) :
  exists i f,
    ks_scaler_for_name_string USE_OPENCV wanted = Some (filter_at i)
    /\ deref USE_OPENCV (filter_at i) = Some f
    /\ In f (SCALING_FILTERS USE_OPENCV)
    /\ ((exists g, In g (SCALING_FILTERS USE_OPENCV) /\ name g = wanted) ->
        name f = wanted
        /\ forall g, In g (SCALING_FILTERS USE_OPENCV) -> name g = wanted -> g = f)
    /\ ((forall g, In g (SCALING_FILTERS USE_OPENCV) -> name g <> wanted) ->
        i = 0%nat /\ f = mk_filter "Nearest" s_scaler_nearest)
    /\ forall (real : Type) (sc : scaler_s real),
         exists sc',
           ks_set_upscaling_filter USE_OPENCV real wanted sc = Some sc'
           /\ UPSCALE_FILTER sc' = filter_at i.
Proof.
  destruct SCALING_FILTERS_first as (rest & Hlist).
  unfold ks_set_upscaling_filter, deref.
  rewrite ks_scaler_for_name_string_eq.
  destruct (scaler_index_from_first (SCALING_FILTERS USE_OPENCV) wanted 0)
    as [(Hnone & Hidx) | (pre & f & post & Hl & Hpre & Hf & Hidx)];
    rewrite Hidx.
  - exists 0%nat, (mk_filter "Nearest" s_scaler_nearest).
    split; [reflexivity|].
    split; [rewrite Hlist; reflexivity|].
    split; [rewrite Hlist; now left|].
    split.
    + intros (g & Hin & Hg). unfold no_filter_named in Hnone.
      rewrite Forall_forall in Hnone. now destruct (Hnone g Hin).
    + split; [intros _; split; reflexivity|].
      intros real sc. eexists. split; reflexivity.
  - assert (Hin : In f (SCALING_FILTERS USE_OPENCV))
      by (rewrite Hl; apply in_or_app; right; now left).
    exists (0 + List.length pre)%nat, f.
    split; [reflexivity|].
    split; [rewrite Hl; simpl; rewrite nth_error_app2, Nat.sub_diag by apply Nat.le_refl;
            reflexivity|].
    split; [exact Hin|].
    split.
    + intros _. split; [exact Hf|].
      intros g Hg Hname. symmetry.
      apply (same_name_same_filter (SCALING_FILTERS USE_OPENCV));
        [apply SCALING_FILTERS_names_differ | exact Hin | exact Hg | congruence].
    + split.
      * intros Hno. destruct (Hno f Hin Hf).
      * intros real sc. eexists. split; reflexivity.
Qed.

End FilterLookup.

End ScalerFacts.

(** * Further properties of the capture unit *)

Module IngressFacts.

Import CaptureFacts.
Local Open Scope capture_scope.

Section Slot.
Context {dev : RGBEasy}.

(** X1.  A frame that arrives while the slot is free but cannot be taken (the
    program is exiting, the callback got a null pointer, the frame buffer is
    not allocated, or the frame is deeper than 32 bits) leaves the frame
    buffer and everything else alone and still advances [captured]. *)
Theorem rejected_frame_still_counts (info : option BITMAPINFOHEADER)
    (data : option (list Z)) (s : capture_s dev) :
  CNT_FRAMES_CAPTURED (counters s) = CNT_FRAMES_PROCESSED (counters s) ->
  (PROGRAM_EXIT_REQUESTED s = true
   \/ data = None
   \/ info = None
   \/ pixels (FRAME_BUFFER s) = None
   \/ exists i, info = Some i /\ MAX_BIT_DEPTH < biBitCount i) ->
  frame_captured info data s = set_counters (incr_captured (counters s)) s.
Proof.
  intros Hfree Hwhy. unfold frame_captured, frame_done.
  rewrite Hfree, Z.eqb_refl. simpl.
  destruct (PROGRAM_EXIT_REQUESTED s); [reflexivity|].
  destruct data as [d|]; [|reflexivity].
  destruct info as [i|]; [|reflexivity].
  destruct (pixels (FRAME_BUFFER s)) as [buffer|]; [|reflexivity].
  destruct (Z.gtb_spec (biBitCount i) MAX_BIT_DEPTH) as [Hdeep | Hfits]; [reflexivity|].
  exfalso.
  destruct Hwhy as [H | [H | [H | [H | (i' & [= <-] & H)]]]]; try discriminate. lia.
Qed.

(** A frame that is taken publishes its size and depth in the frame
    buffer and keeps the buffer allocated. *)
Theorem accepted_frame_is_published (i : BITMAPINFOHEADER) (data buffer : list Z)
    (s : capture_s dev) :
  CNT_FRAMES_CAPTURED (counters s) = CNT_FRAMES_PROCESSED (counters s) ->
  PROGRAM_EXIT_REQUESTED s = false ->
  pixels (FRAME_BUFFER s) = Some buffer ->
  biBitCount i <= MAX_BIT_DEPTH ->
  frame_r (FRAME_BUFFER (frame_captured (Some i) (Some data) s))
  = mk_resolution (wrap_u32 (biWidth i)) (wrap_u32 (Z.abs (biHeight i))) (biBitCount i)
  /\ pixels (FRAME_BUFFER (frame_captured (Some i) (Some data) s)) <> None
  /\ counters (frame_captured (Some i) (Some data) s) = incr_captured (counters s).
Proof.
  intros Hfree Hrun Hbuf Hdepth. unfold frame_captured, frame_done.
  rewrite Hfree, Z.eqb_refl, Hrun, Hbuf. simpl.
  destruct (Z.gtb_spec (biBitCount i) MAX_BIT_DEPTH) as [Hdeep | _]; [lia|].
  simpl. repeat split. discriminate.
Qed.

(** X2.  While a frame waits to be processed, no number of further frames
    changes the frame buffer: the frame in the slot is not overwritten
    before [kc_mark_frame_buffer_as_processed]. *)
Theorem waiting_frame_is_not_overwritten (frames : list frame_args) (s : capture_s dev) :
  CNT_FRAMES_CAPTURED (counters s) <> CNT_FRAMES_PROCESSED (counters s) ->
  FRAME_BUFFER (on_frames frames s) = FRAME_BUFFER s
  /\ signal (on_frames frames s) = signal s
  /\ api_log (on_frames frames s) = api_log s.
Proof.
  revert s. induction frames as [|f rest IH]; intros s Hbusy; [repeat split|].
  simpl. rewrite (frame_captured_busy (fst f) (snd f) s Hbusy).
  destruct (IH (set_counters (incr_skipped (counters s)) s)) as (Hf & Hg & Ha);
    [exact Hbusy|].
  unfold on_frames in *. rewrite Hf, Hg, Ha. repeat split.
Qed.

End Slot.

(** ** Any interleaving of the callbacks and the event pump *)

Section Interleavings.
Context {dev : RGBEasy}.

(** The operations that read or write the counters and signal flags: the
    five driver callbacks, the event pump, marking a frame as processed,
    and the handler of a new video mode. *)
Inductive ingress_op : Type :=
| op_frame_captured (info : option BITMAPINFOHEADER) (data : option (list Z))
| op_video_mode_changed
| op_invalid_signal (horClock verClock : Z)
| op_no_signal
| op_error
| op_get_next_capture_event
| op_mark_frame_buffer_as_processed
| op_apply_new_capture_resolution.

(** One operation; [None] when the mode handler meets a failed assertion. *)
Definition ingress_step (op : ingress_op) (s : capture_s dev) : option (capture_s dev) :=
  match op with
  | op_frame_captured info data => Some (frame_captured info data s)
  | op_video_mode_changed => Some (video_mode_changed s)
  | op_invalid_signal horClock verClock => Some (invalid_signal horClock verClock s)
  | op_no_signal => Some (no_signal s)
  | op_error => Some (error s)
  | op_get_next_capture_event => Some (snd (kc_get_next_capture_event s))
  | op_mark_frame_buffer_as_processed => Some (kc_mark_frame_buffer_as_processed s)
  | op_apply_new_capture_resolution =>
      match kc_apply_new_capture_resolution s with
      | Some (_, s') => Some s'
      | None => None
      end
  end.

Fixpoint ingress_run (ops : list ingress_op) (s : capture_s dev) : option (capture_s dev) :=
  match ops with
  | [] => Some s
  | op :: rest =>
      match ingress_step op s with
      | Some s' => ingress_run rest s'
      | None => None
      end
  end.

(** The mode handler writes to the card and clears the new-mode flag; the
    counters, the frame buffer and the other flags stay. *)
Lemma kc_apply_new_capture_resolution_frame (s s' : capture_s dev) (u : unit) :
  kc_apply_new_capture_resolution s = Some (u, s') ->
  counters s' = counters s
  /\ FRAME_BUFFER s' = FRAME_BUFFER s
  /\ signal s' = signal (clear_RECEIVED_NEW_VIDEO_MODE s).
Proof.
  intros Hrun.
  assert (Hrep : exists reported, capture_resolution s = Some (reported, s)).
  { unfold kc_apply_new_capture_resolution, bind in Hrun.
    destruct (capture_resolution s) as [[reported s1]|] eqn:Hc; [|discriminate].
    exists reported. pose proof (capture_resolution_pure s s1 reported Hc) as ->.
    reflexivity. }
  destruct Hrep as (reported & Hrep).
  rewrite (kc_apply_new_capture_resolution_eq s reported Hrep) in Hrun.
  injection Hrun as _ <-.
  unfold clear_RECEIVED_NEW_VIDEO_MODE, mode_parameter_calls, run_calls. simpl.
  repeat split.
Qed.

(** At most one frame is outstanding ([captured] is [processed] or one
    ahead of it, modulo 2^32) ... *)
Definition at_most_one_outstanding (s : capture_s dev) : Prop :=
  CNT_FRAMES_CAPTURED (counters s) = CNT_FRAMES_PROCESSED (counters s)
  \/ CNT_FRAMES_CAPTURED (counters s) = wrap_u32 (CNT_FRAMES_PROCESSED (counters s) + 1).

Lemma ingress_step_outstanding (op : ingress_op) (s s' : capture_s dev) :
  at_most_one_outstanding s -> ingress_step op s = Some s' -> at_most_one_outstanding s'.
Proof.
  unfold at_most_one_outstanding. intros Hinv Hstep.
  destruct op; simpl in Hstep.
  - injection Hstep as <-.
    destruct (Z.eq_dec (CNT_FRAMES_CAPTURED (counters s)) (CNT_FRAMES_PROCESSED (counters s)))
      as [Hfree | Hbusy].
    + rewrite (frame_captured_free info data s Hfree). simpl. right. now rewrite Hfree.
    + rewrite (frame_captured_busy info data s Hbusy). simpl. exact Hinv.
  - injection Hstep as <-. unfold video_mode_changed.
    destruct (PROGRAM_EXIT_REQUESTED s); exact Hinv.
  - injection Hstep as <-. unfold invalid_signal.
    destruct (PROGRAM_EXIT_REQUESTED s); exact Hinv.
  - injection Hstep as <-. exact Hinv.
  - injection Hstep as <-. exact Hinv.
  - injection Hstep as <-. unfold kc_get_next_capture_event.
    repeat (flag_split; simpl; try exact Hinv).
  - injection Hstep as <-. unfold kc_mark_frame_buffer_as_processed. simpl.
    destruct (SKIP_NEXT_NUM_FRAMES s >? 0); simpl; now left.
  - destruct (kc_apply_new_capture_resolution s) as [[u t]|] eqn:Hrun; [|discriminate].
    injection Hstep as <-.
    destruct (kc_apply_new_capture_resolution_frame s t u Hrun) as (Hc & _ & _).
    now rewrite Hc.
Qed.

(** X3.  ... under every interleaving of the callbacks, the event pump, the
    marking of frames and the mode handler, started with no frame
    outstanding. *)
Theorem never_two_frames_outstanding (ops : list ingress_op) (s s' : capture_s dev) :
  CNT_FRAMES_CAPTURED (counters s) = CNT_FRAMES_PROCESSED (counters s) ->
  ingress_run ops s = Some s' ->
  at_most_one_outstanding s'.
Proof.
  intros Hstart. assert (Hinv : at_most_one_outstanding s) by now left.
  clear Hstart. revert s Hinv.
  induction ops as [|op rest IH]; intros s Hinv Hrun; simpl in Hrun.
  - now injection Hrun as <-.
  - destruct (ingress_step op s) as [t|] eqn:Hstep; [|discriminate].
    exact (IH t (ingress_step_outstanding op s t Hinv Hstep) Hrun).
Qed.

(** The frame callback does not touch the signal flags. *)
Lemma frame_captured_signal (info : option BITMAPINFOHEADER) (data : option (list Z))
    (s : capture_s dev) :
  signal (frame_captured info data s) = signal s.
Proof.
  unfold frame_captured, frame_done.
  destruct (negb _); [reflexivity|].
  destruct (PROGRAM_EXIT_REQUESTED s); [reflexivity|].
  destruct data; [|reflexivity]. destruct info; [|reflexivity].
  destruct (pixels (FRAME_BUFFER s)); [|reflexivity].
  destruct (_ >? _); reflexivity.
Qed.

Lemma ingress_step_became_invalid (op : ingress_op) (s s' : capture_s dev) :
  SIGNAL_BECAME_INVALID (signal s) = false ->
  ingress_step op s = Some s' ->
  SIGNAL_BECAME_INVALID (signal s') = false.
Proof.
  intros Hinv Hstep. destruct op; simpl in Hstep.
  - injection Hstep as <-. now rewrite frame_captured_signal.
  - injection Hstep as <-. unfold video_mode_changed.
    destruct (PROGRAM_EXIT_REQUESTED s); exact Hinv.
  - injection Hstep as <-. unfold invalid_signal.
    destruct (PROGRAM_EXIT_REQUESTED s); exact Hinv.
  - injection Hstep as <-. exact Hinv.
  - injection Hstep as <-. exact Hinv.
  - injection Hstep as <-. unfold kc_get_next_capture_event.
    repeat (flag_split; simpl; try assumption; try reflexivity).
  - injection Hstep as <-. unfold kc_mark_frame_buffer_as_processed. simpl.
    destruct (SKIP_NEXT_NUM_FRAMES s >? 0); exact Hinv.
  - destruct (kc_apply_new_capture_resolution s) as [[u t]|] eqn:Hrun; [|discriminate].
    injection Hstep as <-.
    destruct (kc_apply_new_capture_resolution_frame s t u Hrun) as (_ & _ & Hg).
    rewrite Hg. exact Hinv.
Qed.

(** X5.  None of these operations sets [SIGNAL_BECAME_INVALID] (the
    invalid-signal callback sets [SIGNAL_IS_INVALID] instead), so under
    every interleaving started with the flag unset the event pump never
    returns [CEVENT_INVALID_SIGNAL]: an invalid signal shows only as
    [CEVENT_SLEEP]. *)
Theorem invalid_signal_event_is_never_emitted (ops : list ingress_op)
    (s s' : capture_s dev) :
  SIGNAL_BECAME_INVALID (signal s) = false ->
  ingress_run ops s = Some s' ->
  SIGNAL_BECAME_INVALID (signal s') = false
  /\ fst (kc_get_next_capture_event s') <> CEVENT_INVALID_SIGNAL.
Proof.
  intros Hstart Hrun.
  assert (Hend : SIGNAL_BECAME_INVALID (signal s') = false).
  { revert s Hstart Hrun. induction ops as [|op rest IH]; intros s Hstart Hrun;
      simpl in Hrun.
    - now injection Hrun as <-.
    - destruct (ingress_step op s) as [t|] eqn:Hstep; [|discriminate].
      exact (IH t (ingress_step_became_invalid op s t Hstart Hstep) Hrun). }
  split; [exact Hend|].
  unfold kc_get_next_capture_event. rewrite Hend.
  repeat (flag_split; simpl; try discriminate).
Qed.

(** X6.  The event pump hands out a frame only while a valid signal is being
    received and no flag is pending, and doing so changes nothing; and it
    reports no event only when every captured frame has been processed. *)
Theorem new_frame_only_with_valid_signal (s : capture_s dev) :
  (fst (kc_get_next_capture_event s) = CEVENT_NEW_FRAME ->
   RECEIVING_A_SIGNAL (signal s) = true
   /\ SIGNAL_IS_INVALID (signal s) = false
   /\ UNRECOVERABLE_CAPTURE_ERROR (signal s) = false
   /\ RECEIVED_NEW_VIDEO_MODE (signal s) = false
   /\ SIGNAL_WAS_LOST (signal s) = false
   /\ CNT_FRAMES_CAPTURED (counters s) <> CNT_FRAMES_PROCESSED (counters s)
   /\ snd (kc_get_next_capture_event s) = s)
  /\ (fst (kc_get_next_capture_event s) = CEVENT_NONE ->
      CNT_FRAMES_CAPTURED (counters s) = CNT_FRAMES_PROCESSED (counters s)
      /\ snd (kc_get_next_capture_event s) = s).
Proof.
  unfold kc_get_next_capture_event.
  destruct (UNRECOVERABLE_CAPTURE_ERROR (signal s)); [split; discriminate|].
  destruct (RECEIVED_NEW_VIDEO_MODE (signal s)); [split; discriminate|].
  destruct (SIGNAL_WAS_LOST (signal s)); [split; discriminate|].
  destruct (RECEIVING_A_SIGNAL (signal s)); [|split; discriminate].
  destruct (SIGNAL_BECAME_INVALID (signal s)); [split; discriminate|].
  destruct (SIGNAL_IS_INVALID (signal s)); [split; discriminate|].
  simpl.
  destruct (Z.eqb_spec (CNT_FRAMES_CAPTURED (counters s)) (CNT_FRAMES_PROCESSED (counters s)));
    simpl; split; try discriminate; intros _; repeat split; assumption.
Qed.

(** The frame callbacks of a run. *)
Fixpoint frames_offered (ops : list ingress_op) : Z :=
  match ops with
  | [] => 0
  | op_frame_captured _ _ :: rest => 1 + frames_offered rest
  | _ :: rest => frames_offered rest
  end.

Definition frames_counted (s : capture_s dev) : Z :=
  wrap_u32 (CNT_FRAMES_CAPTURED (counters s) + CNT_FRAMES_SKIPPED (counters s)).

Lemma wrap_u32_succ_l (a b : Z) : wrap_u32 (wrap_u32 (a + 1) + b) = wrap_u32 (a + b + 1).
Proof.
  unfold wrap_u32. rewrite Zplus_mod_idemp_l. f_equal. lia.
Qed.

Lemma wrap_u32_succ_r (a b : Z) : wrap_u32 (a + wrap_u32 (b + 1)) = wrap_u32 (a + b + 1).
Proof.
  unfold wrap_u32. rewrite Zplus_mod_idemp_r. f_equal. lia.
Qed.

Lemma wrap_u32_add_l (a b : Z) : wrap_u32 (wrap_u32 a + b) = wrap_u32 (a + b).
Proof. unfold wrap_u32. now rewrite Zplus_mod_idemp_l. Qed.

Lemma ingress_step_counted (op : ingress_op) (s s' : capture_s dev) :
  ingress_step op s = Some s' ->
  frames_counted s' = wrap_u32 (frames_counted s + frames_offered [op]).
Proof.
  unfold frames_counted. intros Hstep.
  assert (Hsame : forall t : capture_s dev,
             CNT_FRAMES_CAPTURED (counters t) = CNT_FRAMES_CAPTURED (counters s) ->
             CNT_FRAMES_SKIPPED (counters t) = CNT_FRAMES_SKIPPED (counters s) ->
             wrap_u32 (CNT_FRAMES_CAPTURED (counters t) + CNT_FRAMES_SKIPPED (counters t))
             = wrap_u32 (wrap_u32 (CNT_FRAMES_CAPTURED (counters s)
                                   + CNT_FRAMES_SKIPPED (counters s)) + 0)).
  { intros t -> ->. now rewrite wrap_u32_add_l, Z.add_0_r. }
  destruct op; simpl in Hstep; simpl frames_offered.
  - injection Hstep as <-. rewrite wrap_u32_add_l.
    destruct (Z.eq_dec (CNT_FRAMES_CAPTURED (counters s)) (CNT_FRAMES_PROCESSED (counters s)))
      as [Hfree | Hbusy].
    + rewrite (frame_captured_free info data s Hfree). simpl.
      rewrite wrap_u32_succ_l. f_equal; lia.
    + rewrite (frame_captured_busy info data s Hbusy). simpl.
      rewrite wrap_u32_succ_r. f_equal; lia.
  - injection Hstep as <-. apply Hsame; unfold video_mode_changed;
      destruct (PROGRAM_EXIT_REQUESTED s); reflexivity.
  - injection Hstep as <-. apply Hsame; unfold invalid_signal;
      destruct (PROGRAM_EXIT_REQUESTED s); reflexivity.
  - injection Hstep as <-. apply Hsame; reflexivity.
  - injection Hstep as <-. apply Hsame; reflexivity.
  - injection Hstep as <-. apply Hsame; unfold kc_get_next_capture_event;
      repeat (flag_split; simpl; try reflexivity).
  - injection Hstep as <-. apply Hsame; unfold kc_mark_frame_buffer_as_processed; simpl;
      destruct (SKIP_NEXT_NUM_FRAMES s >? 0); reflexivity.
  - destruct (kc_apply_new_capture_resolution s) as [[u t]|] eqn:Hrun; [|discriminate].
    injection Hstep as <-.
    destruct (kc_apply_new_capture_resolution_frame s t u Hrun) as (Hc & _ & _).
    apply Hsame; now rewrite Hc.
Qed.

(** X4.  No frame goes uncounted and none is counted twice: under every
    interleaving, each frame the driver offers advances exactly one of
    [captured] and [skipped] by one, so that the two counters together have
    advanced by the number of frames offered (modulo 2^32, as the counters
    wrap).  Nothing else moves either counter. *)
Theorem every_frame_is_counted_once (ops : list ingress_op) (s s' : capture_s dev) :
  ingress_run ops s = Some s' ->
  wrap_u32 (CNT_FRAMES_CAPTURED (counters s') + CNT_FRAMES_SKIPPED (counters s'))
  = wrap_u32 (CNT_FRAMES_CAPTURED (counters s) + CNT_FRAMES_SKIPPED (counters s)
              + frames_offered ops).
Proof.
  revert s. induction ops as [|op rest IH]; intros s Hrun; simpl in Hrun.
  - injection Hrun as <-. simpl. now rewrite Z.add_0_r.
  - destruct (ingress_step op s) as [t|] eqn:Hstep; [|discriminate].
    rewrite (IH t Hrun).
    pose proof (ingress_step_counted op s t Hstep) as Hone.
    unfold frames_counted in Hone.
    rewrite <- (wrap_u32_add_l (CNT_FRAMES_CAPTURED (counters t) + _)), Hone.
    assert (Hcons : frames_offered (op :: rest) = frames_offered [op] + frames_offered rest)
      by (destruct op; simpl; lia).
    rewrite wrap_u32_add_l, <- Z.add_assoc, wrap_u32_add_l, Hcons.
    reflexivity.
Qed.

End Interleavings.

(** ** Forcing a capture resolution *)

Section Forcing.
Context {dev : RGBEasy}.

(** The four calls of an attempt to force a resolution, in order. *)
Definition force_attempt (res : resolution_s) : list rgb_call :=
  [ RGBTestCaptureWidth (w res); RGBSetCaptureWidth (w res);
    RGBSetCaptureHeight (h res); RGBSetOutputSize (w res) (h res) ].

(** What [RGBGetOutputSize] leaves in [wd] and [hd]. *)
Definition output_size_read (s : capture_s dev) : Z * Z :=
  match rgb_get_output_size (hw s) with
  | Some o => o
  | None => (0, 0)
  end.

(** The calls of a list made one after the other from [s], up to and
    including the first the card refuses. *)
Fixpoint calls_until_refused (calls : list rgb_call) (s : capture_s dev) : list rgb_call :=
  match calls with
  | [] => []
  | c :: rest =>
      c :: (if snd (rgb_do (hw s) c) then calls_until_refused rest (after_call c s)
            else [])
  end.

(** Whether the card accepts every call of a list, made one after the
    other from [s]. *)
Fixpoint all_accepted (calls : list rgb_call) (s : capture_s dev) : bool :=
  match calls with
  | [] => true
  | c :: rest => snd (rgb_do (hw s) c) && all_accepted rest (after_call c s)
  end.

(** The card after the calls of a list. *)
Definition card_after (calls : list rgb_call) (s : capture_s dev) : card :=
  fold_left (fun c call => fst (rgb_do c call)) calls (hw s).

(** The outline of a run of [kc_force_capture_input_resolution]: its calls
    are first calls of an attempt, and the frames to skip change with a
    true result only. *)
Lemma kc_force_capture_input_resolution_outline (res : resolution_s)
    (s s' : capture_s dev) (b : bool) :
  kc_force_capture_input_resolution res s = Some (b, s') ->
  (exists n, api_log s' = api_log s ++ firstn n (force_attempt res))
  /\ (b = true ->
      api_log s' = api_log s ++ force_attempt res
      /\ output_size_read s' = (w res, h res)
      /\ SKIP_NEXT_NUM_FRAMES s' = wrap_u32 (SKIP_NEXT_NUM_FRAMES s + 2))
  /\ (b = false -> SKIP_NEXT_NUM_FRAMES s' = SKIP_NEXT_NUM_FRAMES s)
  /\ (snd (rgb_do (hw s) (RGBTestCaptureWidth (w res))) = false ->
      b = false /\ exists n, api_log s' = api_log s ++ firstn n [RGBTestCaptureWidth (w res)])
  /\ (forall reported, capture_resolution s = Some (reported, s) ->
      same_size res reported = true -> b = false /\ s' = s).
Proof.
  unfold kc_force_capture_input_resolution, bind.
  destruct (capture_resolution s) as [[reported s0]|] eqn:Hrep; [|discriminate].
  pose proof (capture_resolution_pure s s0 reported Hrep) as ->.
  change ((w res =? w reported) && (h res =? h reported)) with (same_size res reported).
  destruct (same_size res reported) eqn:Hsame.
  { intros [= <- <-]. repeat split; try discriminate.
    - exists 0%nat. simpl. now rewrite app_nil_r.
    - exists 0%nat. simpl. now rewrite app_nil_r. }
  unfold apicall, gets, modify, ret. cbv beta iota.
  set (s1 := after_call (RGBTestCaptureWidth (w res)) s).
  destruct (snd (rgb_do (hw s) (RGBTestCaptureWidth (w res)))) eqn:Htest; 
    cbv beta iota delta [negb].
  2:{ intros [= <- <-].
      repeat split; try discriminate; try (exfalso; congruence);
        exists 1%nat; reflexivity. }
  set (s2 := after_call (RGBSetCaptureWidth (w res)) s1).
  destruct (snd (rgb_do (hw s1) (RGBSetCaptureWidth (w res)))); cbv beta iota delta [negb].
  2:{ intros [= <- <-].
      repeat split; try discriminate; try (exfalso; congruence).
      exists 2%nat. simpl. now rewrite <- app_assoc. }
  set (s3 := after_call (RGBSetCaptureHeight (h res)) s2).
  destruct (snd (rgb_do (hw s2) (RGBSetCaptureHeight (h res)))); cbv beta iota delta [negb].
  2:{ intros [= <- <-].
      repeat split; try discriminate; try (exfalso; congruence).
      exists 3%nat. simpl. now rewrite <- !app_assoc. }
  set (s4 := after_call (RGBSetOutputSize (w res) (h res)) s3).
  destruct (snd (rgb_do (hw s3) (RGBSetOutputSize (w res) (h res)))); cbv beta iota delta [negb].
  2:{ intros [= <- <-].
      repeat split; try discriminate; try (exfalso; congruence).
      exists 4%nat. simpl. now rewrite <- !app_assoc. }
  change (match rgb_get_output_size (hw s4) with
          | Some o => o
          | None => (0, 0)
          end) with (output_size_read s4).
  assert (Hlog : api_log s4 = api_log s ++ force_attempt res)
    by (simpl; now rewrite <- !app_assoc).
  destruct (Z.eqb_spec (fst (output_size_read s4)) (w res)) as [Hw | Hw];
    destruct (Z.eqb_spec (snd (output_size_read s4)) (h res)) as [Hh | Hh];
    simpl; intros [= <- <-];
    repeat split; try discriminate; try (exfalso; congruence);
    try (exists 4%nat; exact Hlog).
  - exact Hlog.
  - change (output_size_read s4 = (w res, h res)).
    destruct (output_size_read s4). simpl in *. congruence.
Qed.

(** A run of [kc_force_capture_input_resolution] for a resolution other
    than the reported one, call by call. *)
Lemma kc_force_capture_input_resolution_calls (res reported : resolution_s)
    (s s' : capture_s dev) (b : bool) :
  kc_force_capture_input_resolution res s = Some (b, s') ->
  capture_resolution s = Some (reported, s) ->
  same_size res reported = false ->
  api_log s' = api_log s ++ calls_until_refused (force_attempt res) s
  /\ hw s' = card_after (calls_until_refused (force_attempt res) s) s
  /\ (b = true <->
      all_accepted (force_attempt res) s = true
      /\ output_size_read s' = (w res, h res)).
Proof.
  unfold kc_force_capture_input_resolution, bind. intros Hrun Hrep Hsame.
  rewrite Hrep in Hrun.
  change ((w res =? w reported) && (h res =? h reported)) with (same_size res reported)
    in Hrun.
  rewrite Hsame in Hrun. revert Hrun.
  unfold apicall, gets, modify, ret, force_attempt, card_after. cbv beta iota.
  cbn [calls_until_refused all_accepted].
  set (s1 := after_call (RGBTestCaptureWidth (w res)) s).
  destruct (snd (rgb_do (hw s) (RGBTestCaptureWidth (w res))));
    cbv beta iota delta [negb andb].
  2:{ intros [= <- <-]. split; [reflexivity|]. split; [reflexivity|].
      split; [discriminate | intros (H & _); discriminate]. }
  set (s2 := after_call (RGBSetCaptureWidth (w res)) s1).
  destruct (snd (rgb_do (hw s1) (RGBSetCaptureWidth (w res))));
    cbv beta iota delta [negb andb].
  2:{ intros [= <- <-]. split; [simpl; now rewrite <- app_assoc|].
      split; [reflexivity|].
      split; [discriminate | intros (H & _); discriminate]. }
  set (s3 := after_call (RGBSetCaptureHeight (h res)) s2).
  destruct (snd (rgb_do (hw s2) (RGBSetCaptureHeight (h res))));
    cbv beta iota delta [negb andb].
  2:{ intros [= <- <-]. split; [simpl; now rewrite <- !app_assoc|].
      split; [reflexivity|].
      split; [discriminate | intros (H & _); discriminate]. }
  set (s4 := after_call (RGBSetOutputSize (w res) (h res)) s3).
  destruct (snd (rgb_do (hw s3) (RGBSetOutputSize (w res) (h res))));
    cbv beta iota delta [negb andb].
  2:{ intros [= <- <-]. split; [simpl; now rewrite <- !app_assoc|].
      split; [reflexivity|].
      split; [discriminate | intros (H & _); discriminate]. }
  change (match rgb_get_output_size (hw s4) with
          | Some o => o
          | None => (0, 0)
          end) with (output_size_read s4).
  assert (Hlog : api_log s4 = api_log s ++ force_attempt res)
    by (simpl; now rewrite <- !app_assoc).
  destruct (Z.eqb_spec (fst (output_size_read s4)) (w res)) as [Hw | Hw];
    destruct (Z.eqb_spec (snd (output_size_read s4)) (h res)) as [Hh | Hh];
    simpl; intros [= <- <-];
    (split; [exact Hlog|]); (split; [reflexivity|]).
  - split; [intros _; split; [reflexivity|] | reflexivity].
    change (output_size_read s4 = (w res, h res)).
    destruct (output_size_read s4). simpl in *. congruence.
  - split; [discriminate|]. intros (_ & Hread). exfalso. apply Hh.
    change (output_size_read s4 = (w res, h res)) in Hread. now rewrite Hread.
  - split; [discriminate|]. intros (_ & Hread). exfalso. apply Hw.
    change (output_size_read s4 = (w res, h res)) in Hread. now rewrite Hread.
  - split; [discriminate|]. intros (_ & Hread). exfalso. apply Hw.
    change (output_size_read s4 = (w res, h res)) in Hread. now rewrite Hread.
Qed.

(** X7.  [kc_force_capture_input_resolution] makes the calls of an attempt in
    order and stops at the first that fails: for a resolution other than
    the reported one, the calls made are exactly those of the attempt up to
    and including the first the card refuses, and the card is left as these
    calls leave it.  It returns true exactly when the card accepted all
    four and the output size read back (0 x 0 when the read fails) is the
    requested one, and exactly then asks for two frames to be skipped.
    When the card refuses the width in the test call, no set call is made.
    A request for the resolution already reported makes no call at all. *)
Theorem kc_force_capture_input_resolution_effects (res : resolution_s)
    (s s' : capture_s dev) (b : bool) :
  kc_force_capture_input_resolution res s = Some (b, s') ->
  (exists n, api_log s' = api_log s ++ firstn n (force_attempt res))
  /\ (b = true ->
      api_log s' = api_log s ++ force_attempt res
      /\ output_size_read s' = (w res, h res)
      /\ SKIP_NEXT_NUM_FRAMES s' = wrap_u32 (SKIP_NEXT_NUM_FRAMES s + 2))
  /\ (b = false -> SKIP_NEXT_NUM_FRAMES s' = SKIP_NEXT_NUM_FRAMES s)
  /\ (snd (rgb_do (hw s) (RGBTestCaptureWidth (w res))) = false ->
      b = false /\ exists n, api_log s' = api_log s ++ firstn n [RGBTestCaptureWidth (w res)])
  /\ (forall reported, capture_resolution s = Some (reported, s) ->
      same_size res reported = true -> b = false /\ s' = s)
  /\ (forall reported, capture_resolution s = Some (reported, s) ->
      same_size res reported = false ->
      api_log s' = api_log s ++ calls_until_refused (force_attempt res) s
      /\ hw s' = card_after (calls_until_refused (force_attempt res) s) s
      /\ (b = true <->
          all_accepted (force_attempt res) s = true
          /\ output_size_read s' = (w res, h res))).
Proof.
  intros Hrun.
  destruct (kc_force_capture_input_resolution_outline res s s' b Hrun)
    as (Hlog & Htrue & Hfalse & Htest & Hsame).
  repeat (split; [assumption|]).
  intros reported Hrep Hother.
  exact (kc_force_capture_input_resolution_calls res reported s s' b Hrun Hrep Hother).
Qed.

End Forcing.

(** ** The horizontal position *)

Section HorizontalPosition.
Context {dev : RGBEasy}.

(** The function, with its binds carried out. *)
Lemma kc_adjust_capture_horizontal_offset_eq (delta : Z) (s : capture_s dev) :
  kc_adjust_capture_horizontal_offset delta s
  = if delta =? 0 then Some (true, s)
    else
      let newPos := horPos (video_settings s) + delta in
      if (newPos <? horPos (minimum_video_settings s))
         || (newPos >? horPos (maximum_video_settings s))
      then Some (false, s)
      else
        Some (true,
              if snd (rgb_do (hw s) (RGBSetHorPosition newPos))
              then after_ext kd_update_gui_video_params
                             (after_call (RGBSetHorPosition newPos) s)
              else after_call (RGBSetHorPosition newPos) s).
Proof.
  unfold kc_adjust_capture_horizontal_offset.
  destruct (delta =? 0); [reflexivity|].
  unfold bind, gets, ret, apicall, notify, modify. cbv zeta.
  destruct ((horPos (video_settings s) + delta <? horPos (minimum_video_settings s))
            || (horPos (video_settings s) + delta >? horPos (maximum_video_settings s)));
    [reflexivity|].
  destruct (snd (rgb_do (hw s) (RGBSetHorPosition (horPos (video_settings s) + delta))));
    reflexivity.
Qed.

(** X8.  [kc_adjust_capture_horizontal_offset] always returns.  It returns false
    exactly when the step is not zero and would leave the range the driver
    reports, and then changes nothing; any position it writes is the
    current one plus the step and lies within that range; and the GUI is
    told to refresh only after a write the card accepted. *)
Theorem kc_adjust_capture_horizontal_offset_bounds (delta : Z) (s : capture_s dev) :
  exists b s',
    kc_adjust_capture_horizontal_offset delta s = Some (b, s')
    /\ (b = false <->
        delta <> 0
        /\ (horPos (video_settings s) + delta < horPos (minimum_video_settings s)
            \/ horPos (maximum_video_settings s) < horPos (video_settings s) + delta))
    /\ (b = false -> s' = s)
    /\ (forall v, In (RGBSetHorPosition v) (api_log s') ->
          In (RGBSetHorPosition v) (api_log s)
          \/ (v = horPos (video_settings s) + delta
              /\ horPos (minimum_video_settings s) <= v <= horPos (maximum_video_settings s)))
    /\ (In kd_update_gui_video_params (ext_log s') ->
        In kd_update_gui_video_params (ext_log s)
        \/ snd (rgb_do (hw s) (RGBSetHorPosition (horPos (video_settings s) + delta))) = true).
Proof.
  rewrite kc_adjust_capture_horizontal_offset_eq. cbv zeta.
  set (newPos := horPos (video_settings s) + delta).
  set (lo := horPos (minimum_video_settings s)).
  set (hi := horPos (maximum_video_settings s)).
  destruct (Z.eqb_spec delta 0) as [Hzero | Hnonzero].
  - exists true, s. split; [reflexivity|].
    split; [split; [discriminate | intros (Hne & _); contradiction]|].
    split; [discriminate|]. split; intros; now left.
  - destruct (Z.ltb_spec newPos lo) as [Hbelow | Hfloor]; simpl.
    + exists false, s. split; [reflexivity|].
      split; [split; [intros _; split; [assumption | left; assumption] | reflexivity]|].
      split; [reflexivity|]. split; intros; now left.
    + pose proof (Zgt_cases newPos hi) as Hcase.
      destruct (newPos >? hi).
      * exists false, s. split; [reflexivity|].
        split; [split; [intros _; split; [assumption | right; lia] | reflexivity]|].
        split; [reflexivity|]. split; intros; now left.
      * eexists true, _. split; [reflexivity|].
        split; [split; [discriminate | intros (_ & [Hlt | Hgt]); lia]|].
        split; [discriminate|].
        destruct (snd (rgb_do (hw s) (RGBSetHorPosition newPos))); simpl; split.
        -- intros v Hin. apply in_app_or in Hin.
           destruct Hin as [Hold | [[= <-] | []]]; [now left | right; lia].
        -- intros _. now right.
        -- intros v Hin. apply in_app_or in Hin.
           destruct Hin as [Hold | [[= <-] | []]]; [now left | right; lia].
        -- intros Hin. now left.
Qed.

End HorizontalPosition.

(** ** The store of mode parameters *)

Section ModeStore.
Context {dev : RGBEasy}.

(** The entry of a list of modes for a size, as
    [kc_mode_params_for_resolution] searches it. *)
Definition stored_mode (modes : list mode_params_s) (res : resolution_s)
  : option mode_params_s :=
  find (fun m => (w (r m) =? w res) && (h (r m) =? h res)) modes.

Lemma same_size_other (a b c : resolution_s) :
  same_size a b = true -> same_size c b = false -> same_size a c = false.
Proof.
  unfold same_size. intros Hab Hcb.
  apply andb_true_iff in Hab. destruct Hab as (Hw & Hh).
  apply Z.eqb_eq in Hw, Hh. apply andb_false_iff in Hcb. apply andb_false_iff.
  destruct Hcb as [Hc | Hc]; apply Z.eqb_neq in Hc; [left | right];
    apply Z.eqb_neq; congruence.
Qed.

(** The search of [update_known_mode_params] stops where the lookup finds
    its entry, and runs off the end exactly when there is none. *)
Lemma known_mode_index_stored (modes : list mode_params_s) (res : resolution_s) :
  match stored_mode modes res with
  | Some m =>
      (known_mode_index modes res < List.length modes)%nat
      /\ nth_error modes (known_mode_index modes res) = Some m
  | None => known_mode_index modes res = List.length modes
  end.
Proof.
  unfold stored_mode. induction modes as [|m rest IH]; simpl; [reflexivity|].
  change ((w (r m) =? w res) && (h (r m) =? h res)) with (same_size (r m) res).
  destruct (same_size (r m) res); simpl.
  - split; [lia | reflexivity].
  - destruct (find _ rest); [|now rewrite IH].
    destruct IH as (Hlt & Hnth). split; [lia | exact Hnth].
Qed.

(** Rewriting the settings of the entry for [res] changes what is stored
    for [res] and for nothing else. *)
Lemma stored_mode_update (modes : list mode_params_s) (res other : resolution_s)
    (f : mode_params_s -> mode_params_s) :
  (forall m, r (f m) = r m) ->
  stored_mode (update_nth (known_mode_index modes res) f modes) res
  = option_map f (stored_mode modes res)
  /\ (same_size other res = false ->
      stored_mode (update_nth (known_mode_index modes res) f modes) other
      = stored_mode modes other).
Proof.
  intros Hkeep. unfold stored_mode.
  induction modes as [|m rest (IHres & IHother)]; simpl; [split; reflexivity|].
  change ((w (r m) =? w res) && (h (r m) =? h res)) with (same_size (r m) res).
  destruct (same_size (r m) res) eqn:Hm; simpl.
  - rewrite Hkeep.
    change ((w (r m) =? w res) && (h (r m) =? h res)) with (same_size (r m) res).
    rewrite Hm. split; [reflexivity|].
    intros Hother.
    change ((w (r m) =? w other) && (h (r m) =? h other)) with (same_size (r m) other).
    now rewrite (same_size_other (r m) res other Hm Hother).
  - change ((w (r m) =? w res) && (h (r m) =? h res)) with (same_size (r m) res).
    rewrite Hm. split; [exact IHres|].
    intros Hother. rewrite (IHother Hother). reflexivity.
Qed.

Lemma stored_mode_app (modes : list mode_params_s) (m : mode_params_s)
    (res : resolution_s) :
  stored_mode (modes ++ [m]) res
  = match stored_mode modes res with
    | Some found => Some found
    | None => if same_size (r m) res then Some m else None
    end.
Proof.
  unfold stored_mode. induction modes as [|x rest IH]; simpl; [reflexivity|].
  destruct ((w (r x) =? w res) && (h (r x) =? h res)); [reflexivity | exact IH].
Qed.

Lemma update_nth_length {A : Type} (n : nat) (f : A -> A) (l : list A) :
  List.length (update_nth n f l) = List.length l.
Proof.
  revert n. induction l as [|x rest IH]; intros [|n]; simpl; try reflexivity.
  now rewrite IH.
Qed.

(** The settings given to an update, over those in force. *)
Definition updated (c : option input_color_settings_s) (v : option input_video_settings_s)
    (m : mode_params_s) : mode_params_s :=
  mk_mode (r m)
          match c with Some c' => c' | None => color m end
          match v with Some v' => v' | None => video m end.

(** Appending a fresh entry and rewriting it, as the code does for a size
    not yet stored, leaves every stored entry as found. *)
Lemma stored_mode_update_fresh (modes : list mode_params_s) (fresh : mode_params_s)
    (f : mode_params_s -> mode_params_s) (other : resolution_s) :
  (forall m, r (f m) = r m) ->
  stored_mode (update_nth (List.length modes) f (modes ++ [fresh])) other
  = match stored_mode modes other with
    | Some found => Some found
    | None => if same_size (r fresh) other then Some (f fresh) else None
    end.
Proof.
  intros Hkeep. unfold stored_mode. induction modes as [|x rest IH]; simpl.
  - rewrite Hkeep. reflexivity.
  - destruct ((w (r x) =? w other) && (h (r x) =? h other)); [reflexivity | exact IH].
Qed.

(** The list [update_known_mode_params] leaves for the list [modes]: a
    fresh entry is appended when the search ran off the end, and the entry
    at the index found is rewritten. *)
Definition modes_after_update (modes : list mode_params_s) (res : resolution_s)
    (fresh : mode_params_s) (f : mode_params_s -> mode_params_s) : list mode_params_s :=
  update_nth (known_mode_index modes res) f
    (if (known_mode_index modes res <? List.length modes)%nat then modes
     else modes ++ [fresh]).

Lemma stored_mode_after_update (modes : list mode_params_s) (res : resolution_s)
    (fresh : mode_params_s) (f : mode_params_s -> mode_params_s) :
  r fresh = res -> (forall m, r (f m) = r m) ->
  stored_mode (modes_after_update modes res fresh f) res
  = Some (f match stored_mode modes res with Some m => m | None => fresh end)
  /\ (forall other, same_size other res = false ->
        stored_mode (modes_after_update modes res fresh f) other = stored_mode modes other)
  /\ List.length (modes_after_update modes res fresh f)
     = match stored_mode modes res with
       | Some _ => List.length modes
       | None => S (List.length modes)
       end.
Proof.
  intros Hfresh Hkeep. unfold modes_after_update.
  pose proof (known_mode_index_stored modes res) as Hidx.
  rewrite update_nth_length.
  destruct (stored_mode modes res) as [m|] eqn:Hstored.
  - destruct Hidx as (Hlt & _). apply Nat.ltb_lt in Hlt. rewrite Hlt.
    destruct (stored_mode_update modes res res f Hkeep) as (Hres & _).
    rewrite Hres, Hstored. split; [reflexivity|]. split; [|reflexivity].
    intros other Hother.
    destruct (stored_mode_update modes res other f Hkeep) as (_ & Hrest).
    exact (Hrest Hother).
  - rewrite Hidx, Nat.ltb_irrefl.
    split; [|split].
    + rewrite (stored_mode_update_fresh modes fresh f res Hkeep), Hstored, Hfresh.
      now rewrite same_size_refl.
    + intros other Hother.
      rewrite (stored_mode_update_fresh modes fresh f other Hkeep), Hfresh.
      destruct (stored_mode modes other); [reflexivity|].
      assert (Hne : same_size res other = false).
      { unfold same_size in *. rewrite (Z.eqb_sym (w res)), (Z.eqb_sym (h res)).
        exact Hother. }
      now rewrite Hne.
    + rewrite length_app. simpl. lia.
Qed.

(** [update_known_mode_params] with its binds carried out: it always
    returns, writes [KNOWN_MODES] and the notification of a new mode, and
    nothing else. *)
Lemma update_known_mode_params_runs (res : resolution_s)
    (c : option input_color_settings_s) (v : option input_video_settings_s)
    (s : capture_s dev) :
  exists s',
    update_known_mode_params res c v s = Some (tt, s')
    /\ KNOWN_MODES s'
       = modes_after_update (KNOWN_MODES s) res
           (mk_mode res (default_color_settings s) (default_video_settings s))
           (updated c v)
    /\ ext_log s'
       = ext_log s
         ++ (if (known_mode_index (KNOWN_MODES s) res <? List.length (KNOWN_MODES s))%nat
             then [] else [kd_signal_new_known_mode res])
    /\ api_log s' = api_log s
    /\ hw s' = hw s.
Proof.
  unfold update_known_mode_params, modes_after_update, bind, gets, modify, notify, ret.
  fold (updated c v).
  destruct (known_mode_index (KNOWN_MODES s) res <? List.length (KNOWN_MODES s))%nat.
  - eexists. split; [reflexivity|]. simpl. rewrite app_nil_r. repeat split.
  - eexists. split; [reflexivity|]. simpl. repeat split.
Qed.

(** The lookup, through the search of the stored entry. *)
Lemma kc_mode_params_for_resolution_stored (s : capture_s dev) (res : resolution_s) :
  kc_mode_params_for_resolution s res
  = match stored_mode (KNOWN_MODES s) res with
    | Some m => m
    | None => mk_mode res (default_color_settings s) (default_video_settings s)
    end.
Proof. reflexivity. Qed.

(** X9.  [update_known_mode_params] always returns, and is the insert that goes
    with the lookup [kc_mode_params_for_resolution]: afterwards the lookup
    of the updated size gives the settings that were passed, and for a
    setting that was not passed what the lookup gave before (the stored
    value, or the card's default for a size not yet known); the lookup of
    every other size is unchanged; a size already known gets no second
    entry and no notification, a new size gets one entry and one
    [kd_signal_new_known_mode]; and no call reaches the card. *)
Theorem update_known_mode_params_then_lookup (res : resolution_s)
    (c : option input_color_settings_s) (v : option input_video_settings_s)
    (s : capture_s dev) :
  exists s',
    update_known_mode_params res c v s = Some (tt, s')
    /\ color (kc_mode_params_for_resolution s' res)
       = match c with
         | Some c' => c'
         | None => color (kc_mode_params_for_resolution s res)
         end
    /\ video (kc_mode_params_for_resolution s' res)
       = match v with
         | Some v' => v'
         | None => video (kc_mode_params_for_resolution s res)
         end
    /\ (forall other, same_size other res = false ->
          kc_mode_params_for_resolution s' other = kc_mode_params_for_resolution s other)
    /\ (match stored_mode (KNOWN_MODES s) res with
        | Some _ =>
            List.length (KNOWN_MODES s') = List.length (KNOWN_MODES s)
            /\ ext_log s' = ext_log s
        | None =>
            List.length (KNOWN_MODES s') = S (List.length (KNOWN_MODES s))
            /\ ext_log s' = ext_log s ++ [kd_signal_new_known_mode res]
        end)
    /\ api_log s' = api_log s
    /\ hw s' = hw s.
Proof.
  destruct (update_known_mode_params_runs res c v s)
    as (s' & Hrun & Hmodes & Hext & Hapi & Hhw).
  exists s'. split; [exact Hrun|].
  set (fresh := mk_mode res (default_color_settings s) (default_video_settings s)) in *.
  destruct (stored_mode_after_update (KNOWN_MODES s) res fresh (updated c v))
    as (Hres & Hothers & Hlen); [reflexivity | reflexivity |].
  rewrite !kc_mode_params_for_resolution_stored, Hmodes, Hres.
  fold fresh.
  split; [destruct c; destruct (stored_mode (KNOWN_MODES s) res); reflexivity|].
  split; [destruct v; destruct (stored_mode (KNOWN_MODES s) res); reflexivity|].
  split.
  - intros other Hother. rewrite !kc_mode_params_for_resolution_stored, Hmodes.
    rewrite (Hothers other Hother).
    unfold default_color_settings, default_video_settings. now rewrite Hhw.
  - split; [|split; [exact Hapi | exact Hhw]].
    rewrite Hlen, Hext.
    pose proof (known_mode_index_stored (KNOWN_MODES s) res) as Hidx.
    destruct (stored_mode (KNOWN_MODES s) res).
    + destruct Hidx as (Hlt & _). apply Nat.ltb_lt in Hlt. rewrite Hlt.
      now rewrite app_nil_r.
    + rewrite Hidx, Nat.ltb_irrefl. split; reflexivity.
Qed.

End ModeStore.

(** ** Setting and applying video parameters *)

Section VideoParams.
Context {dev : RGBEasy}.

(** The five writes of [kc_set_capture_video_params], in the order made. *)
Definition video_parameter_calls (v : input_video_settings_s) : list rgb_call :=
  [ RGBSetPhase (phase v); RGBSetBlackLevel (blackLevel v);
    RGBSetHorPosition (horPos v); RGBSetHorScale (horScale v);
    RGBSetVerPosition (verPos v) ].

Lemma kc_apply_mode_parameters_eq (res : resolution_s) (s : capture_s dev) :
  kc_apply_mode_parameters res s
  = Some (true, run_calls (mode_parameter_calls (kc_mode_params_for_resolution s res)) s).
Proof.
  unfold kc_apply_mode_parameters, bind, gets, ret. now rewrite apicalls_run.
Qed.

(** The lookup reads [KNOWN_MODES] and the card's defaults only. *)
Lemma kc_mode_params_for_resolution_same (s t : capture_s dev) (res : resolution_s) :
  KNOWN_MODES t = KNOWN_MODES s -> hw t = hw s ->
  kc_mode_params_for_resolution t res = kc_mode_params_for_resolution s res.
Proof.
  unfold kc_mode_params_for_resolution, default_color_settings, default_video_settings.
  now intros -> ->.
Qed.

(** X10.  Without a signal, [kc_set_capture_video_params] does nothing at all.
    With a signal it writes the five values to the card and then stores
    them for the resolution the card reports after the writes; from then
    on the lookup of that resolution gives these values, and applying its
    mode parameters writes them back: phase, black level, horizontal scale,
    horizontal position and vertical position are the ones that were
    set. *)
Theorem kc_set_capture_video_params_then_apply (v : input_video_settings_s)
    (res : resolution_s) (s : capture_s dev) :
  capture_resolution (run_calls (video_parameter_calls v) s)
  = Some (res, run_calls (video_parameter_calls v) s) ->
  (kc_no_signal s = true -> kc_set_capture_video_params v s = Some (tt, s))
  /\ (kc_no_signal s = false ->
      exists s',
        kc_set_capture_video_params v s = Some (tt, s')
        /\ api_log s' = api_log s ++ video_parameter_calls v
        /\ video (kc_mode_params_for_resolution s' res) = v
        /\ exists s'',
             kc_apply_mode_parameters res s' = Some (true, s'')
             /\ firstn 5 (skipn (List.length (api_log s')) (api_log s''))
                = [ RGBSetPhase (phase v); RGBSetBlackLevel (blackLevel v);
                    RGBSetHorScale (horScale v); RGBSetHorPosition (horPos v);
                    RGBSetVerPosition (verPos v) ]).
Proof.
  intros Hrep. unfold kc_set_capture_video_params, bind, gets, ret.
  destruct (kc_no_signal s); split; try discriminate; intros _; [reflexivity|].
  change (apicalls _ s) with (apicalls (video_parameter_calls v) s).
  rewrite apicalls_run, Hrep.
  destruct (update_known_mode_params_runs res None (Some v)
              (run_calls (video_parameter_calls v) s))
    as (s' & Hrun & Hmodes & _ & Hlog & _).
  assert (Hvideo : video (kc_mode_params_for_resolution s' res) = v).
  { rewrite kc_mode_params_for_resolution_stored, Hmodes.
    destruct (stored_mode_after_update
                (KNOWN_MODES (run_calls (video_parameter_calls v) s)) res
                (mk_mode res
                   (default_color_settings (run_calls (video_parameter_calls v) s))
                   (default_video_settings (run_calls (video_parameter_calls v) s)))
                (updated None (Some v)))
      as (Hres & _); [reflexivity | reflexivity |].
    now rewrite Hres. }
  exists s'. split; [exact Hrun|].
  destruct (run_calls_frame (video_parameter_calls v) s) as (Hcalls & _).
  split; [now rewrite Hlog, Hcalls|].
  split; [exact Hvideo|].
  eexists. split; [apply kc_apply_mode_parameters_eq|].
  destruct (run_calls_frame (mode_parameter_calls (kc_mode_params_for_resolution s' res)) s')
    as (Happly & _).
  rewrite Happly, skipn_app, Nat.sub_diag, skipn_all. simpl. now rewrite Hvideo.
Qed.

(** X11.  Applying the parameters of a stored mode twice in a row makes the same
    eight writes twice: the writes depend on the stored entry only, which
    applying does not change. *)
Theorem kc_apply_mode_parameters_twice (res : resolution_s) (m : mode_params_s)
    (s : capture_s dev) :
  stored_mode (KNOWN_MODES s) res = Some m ->
  exists s1 s2,
    kc_apply_mode_parameters res s = Some (true, s1)
    /\ kc_apply_mode_parameters res s1 = Some (true, s2)
    /\ api_log s1 = api_log s ++ mode_parameter_calls m
    /\ api_log s2 = api_log s1 ++ mode_parameter_calls m
    /\ KNOWN_MODES s2 = KNOWN_MODES s.
Proof.
  intros Hstored.
  assert (Hlookup : forall t, KNOWN_MODES t = KNOWN_MODES s ->
                              kc_mode_params_for_resolution t res = m).
  { intros t Ht. unfold kc_mode_params_for_resolution. rewrite Ht.
    unfold stored_mode in Hstored. now rewrite Hstored. }
  exists (run_calls (mode_parameter_calls m) s),
         (run_calls (mode_parameter_calls m) (run_calls (mode_parameter_calls m) s)).
  destruct (run_calls_frame (mode_parameter_calls m) s)
    as (Hlog1 & _ & _ & _ & _ & _ & _ & Hmodes1).
  destruct (run_calls_frame (mode_parameter_calls m) (run_calls (mode_parameter_calls m) s))
    as (Hlog2 & _ & _ & _ & _ & _ & _ & Hmodes2).
  split; [now rewrite kc_apply_mode_parameters_eq, (Hlookup s eq_refl)|].
  split; [now rewrite kc_apply_mode_parameters_eq, (Hlookup _ Hmodes1)|].
  split; [exact Hlog1|]. split; [exact Hlog2|]. congruence.
Qed.

End VideoParams.

(** ** Loading an alias file, all or nothing *)

Section AliasLoading.
Context {dev : RGBEasy}.
Variable ulong : long_width.

(** The loop over the rows fails exactly when some row does not have four
    fields. *)
Lemma aliases_of_rows_fails (rows : list (list string)) :
  aliases_of_rows rows = None <-> Exists (fun row => List.length row <> 4%nat) rows.
Proof.
  induction rows as [|row rest IH]; simpl.
  - split; [discriminate | intros H; inversion H].
  - destruct row as [|f1 [|f2 [|f3 [|f4 [|f5 more]]]]];
      try (split; [intros _; left; simpl; lia | reflexivity]).
    destruct (aliases_of_rows rest) as [others|].
    + split; [discriminate|]. intros H. inversion H as [? ? Hbad | ? ? Hbad]; subst.
      * simpl in Hbad. lia.
      * apply IH in Hbad. discriminate.
    + split; [|reflexivity]. intros _. right. now apply IH.
Qed.

Lemma aliases_of_rows_length (rows : list (list string)) (l : list mode_alias_s) :
  aliases_of_rows rows = Some l -> List.length l = List.length rows.
Proof.
  revert l. induction rows as [|row rest IH]; intros l; simpl.
  - now intros [= <-].
  - destruct row as [|f1 [|f2 [|f3 [|f4 [|f5 more]]]]]; try discriminate.
    destruct (aliases_of_rows rest) as [others|]; [|discriminate].
    intros [= <-]. simpl. now rewrite (IH others eq_refl).
Qed.

(** X12.  [kc_load_aliases] applies a file as a whole or not at all.  If any row
    of the file does not have exactly four fields, it returns false, shows
    one error message and changes nothing else: the aliases in force
    stay.  If every row has four fields (and the aliases can be stored), it
    returns true and the aliases in force are those of the rows, one for
    each row with the values [toUInt] gives its four fields, in ascending
    order of [to.w * to.h], the product taken in [unsigned long] of either
    width.  With an empty file name it returns true and does nothing. *)
Theorem kc_load_aliases_all_or_nothing (text : string) (automaticCall : bool)
    (s : capture_s dev) :
  kc_load_aliases ulong None automaticCall s = Some (true, s)
  /\ (Exists (fun row => List.length row <> 4%nat) (csv_contents text) ->
      kc_load_aliases ulong (Some text) automaticCall s
      = Some (false, after_ext (kd_show_headless_error_message "Data was not loaded") s))
  /\ (Forall (fun row => List.length row = 4%nat) (csv_contents text) ->
      (kc_no_signal s = true \/ exists reported, capture_resolution s = Some (reported, s)) ->
      exists s',
        kc_load_aliases ulong (Some text) automaticCall s = Some (true, s')
        /\ Permutation (map alias_sizes (ALIASES s'))
                       (map (map toUInt) (csv_contents text))
        /\ StronglySorted (key_le ulong) (ALIASES s')).
Proof.
  split; [reflexivity|]. split.
  - intros Hbad. apply aliases_of_rows_fails in Hbad.
    unfold kc_load_aliases. now rewrite Hbad.
  - intros Hgood Hready.
    destruct (aliases_of_rows (csv_contents text)) as [fromDisk|] eqn:Hrows.
    + destruct (kc_load_aliases_runs ulong text automaticCall fromDisk s Hrows Hready)
        as (s' & Hrun & Hstored).
      exists s'. split; [exact Hrun|]. rewrite Hstored. split.
      * rewrite (Permutation_map alias_sizes (sort_aliases_perm ulong fromDisk)).
        now rewrite (aliases_of_rows_values _ _ Hrows).
      * apply sort_aliases_sorted.
    + apply aliases_of_rows_fails in Hrows. exfalso.
      rewrite Forall_forall in Hgood. apply Exists_exists in Hrows.
      destruct Hrows as (row & Hin & Hbad). exact (Hbad (Hgood row Hin)).
Qed.

End AliasLoading.

(** ** These properties on the simulated card *)

Section MoreScenarios.
Import SimCard.

(** A frame of 48 bits per pixel is turned away and counted. *)
Lemma rejected_frame_still_counts_witness :
  frame_captured (Some (mk_info 2 2 48)) (Some [1; 2; 3]) (initial (sim_card 640 480 10))
  = set_counters (mk_counters 0 1 0) (initial (sim_card 640 480 10)).
Proof.
  apply (rejected_frame_still_counts (Some (mk_info 2 2 48)) (Some [1; 2; 3])
           (initial (sim_card 640 480 10))).
  - reflexivity.
  - right. right. right. right. exists (mk_info 2 2 48). split; reflexivity.
Defined.

(** A 2 x 2 frame of 32 bits is taken and published. *)
Lemma accepted_frame_is_published_witness :
  frame_r (FRAME_BUFFER (frame_captured (Some (mk_info 2 (-2) 32)) (snd small_frame)
                                        (initial (sim_card 640 480 10))))
  = mk_resolution 2 2 32.
Proof.
  assert (Hdepth : biBitCount (mk_info 2 (-2) 32) <= MAX_BIT_DEPTH) by discriminate.
  exact (proj1 (accepted_frame_is_published (mk_info 2 (-2) 32)
                  [1; 2; 3; 4; 5; 6; 7; 8; 9; 10; 11; 12; 13; 14; 15; 16]
                  (repeat 0 64%nat) (initial (sim_card 640 480 10))
                  eq_refl eq_refl eq_refl Hdepth)).
Defined.

(** Three more frames after a first one leave the buffer as the first
    frame left it. *)
Lemma waiting_frame_is_not_overwritten_witness :
  FRAME_BUFFER (on_frames [small_frame; small_frame; small_frame]
                  (frame_captured (fst small_frame) (snd small_frame)
                                  (initial (sim_card 640 480 10))))
  = FRAME_BUFFER (frame_captured (fst small_frame) (snd small_frame)
                                 (initial (sim_card 640 480 10))).
Proof.
  apply (waiting_frame_is_not_overwritten [small_frame; small_frame; small_frame]
           (frame_captured (fst small_frame) (snd small_frame)
                           (initial (sim_card 640 480 10)))).
  discriminate.
Defined.

(** A run of the operations: two frames, a mode change and its handling,
    a lost signal, the event pump, a third frame, and a frame marked as
    processed. *)
Definition busy_run : list ingress_op :=
  [ op_frame_captured (fst small_frame) (snd small_frame);
    op_frame_captured (fst small_frame) (snd small_frame);
    op_video_mode_changed;
    op_get_next_capture_event;
    op_apply_new_capture_resolution;
    op_no_signal;
    op_invalid_signal 31 60;
    op_get_next_capture_event;
    op_mark_frame_buffer_as_processed;
    op_frame_captured (fst small_frame) (snd small_frame) ].

Lemma never_two_frames_outstanding_witness :
  exists s',
    ingress_run busy_run (initial (sim_card 640 480 10)) = Some s'
    /\ at_most_one_outstanding s'.
Proof.
  eexists. split; [vm_compute; reflexivity|].
  apply (never_two_frames_outstanding busy_run (initial (sim_card 640 480 10)));
    vm_compute; reflexivity.
Defined.

Lemma invalid_signal_event_is_never_emitted_witness :
  exists s',
    ingress_run busy_run (initial (sim_card 640 480 10)) = Some s'
    /\ fst (kc_get_next_capture_event s') <> CEVENT_INVALID_SIGNAL.
Proof.
  eexists. split; [vm_compute; reflexivity|].
  apply (invalid_signal_event_is_never_emitted busy_run (initial (sim_card 640 480 10)));
    vm_compute; reflexivity.
Defined.

(** The three frames of the run are counted: two taken, one dropped. *)
Lemma every_frame_is_counted_once_witness :
  exists s',
    ingress_run busy_run (initial (sim_card 640 480 10)) = Some s'
    /\ wrap_u32 (CNT_FRAMES_CAPTURED (counters s') + CNT_FRAMES_SKIPPED (counters s')) = 3.
Proof.
  eexists. split; [vm_compute; reflexivity|].
  apply (every_frame_is_counted_once busy_run (initial (sim_card 640 480 10))).
  vm_compute; reflexivity.
Defined.

(** Forcing 1024 x 768 on a card that reports 800 x 600 goes through and
    asks for two frames to be skipped. *)
Lemma kc_force_capture_input_resolution_effects_witness :
  exists s',
    kc_force_capture_input_resolution res_1024x768 (initial (sim_card 800 600 10))
    = Some (true, s')
    /\ api_log s' = force_attempt res_1024x768
    /\ SKIP_NEXT_NUM_FRAMES s' = 2.
Proof.
  eexists. split; [reflexivity|].
  destruct (kc_force_capture_input_resolution_effects res_1024x768
              (initial (sim_card 800 600 10)) _ true eq_refl)
    as (_ & Hdone & _).
  destruct (Hdone eq_refl) as (Hlog & _ & Hskip). split; [exact Hlog | exact Hskip].
Defined.

(** Video parameters set at 800 x 600 are stored for 800 x 600 and written
    back when its mode parameters are applied. *)
Lemma kc_set_capture_video_params_then_apply_witness :
  exists s',
    kc_set_capture_video_params (mk_video 1056 40 11 5 8) (initial (sim_card 800 600 10))
    = Some (tt, s')
    /\ video (kc_mode_params_for_resolution s' res_800x600) = mk_video 1056 40 11 5 8.
Proof.
  destruct (kc_set_capture_video_params_then_apply (mk_video 1056 40 11 5 8) res_800x600
              (initial (sim_card 800 600 10)) eq_refl)
    as (_ & Hsignal).
  destruct (Hsignal eq_refl) as (s' & Hrun & _ & Hvideo & _).
  exists s'. split; [exact Hrun | exact Hvideo].
Defined.

Lemma kc_apply_mode_parameters_twice_witness :
  exists s1 s2,
    kc_apply_mode_parameters res_800x600 alias_switch = Some (true, s1)
    /\ kc_apply_mode_parameters res_800x600 s1 = Some (true, s2)
    /\ api_log s2 = mode_parameter_calls params_800x600 ++ mode_parameter_calls params_800x600.
Proof.
  destruct (kc_apply_mode_parameters_twice res_800x600 params_800x600 alias_switch eq_refl)
    as (s1 & s2 & H1 & H2 & Hlog1 & Hlog2 & _).
  exists s1, s2. split; [exact H1|]. split; [exact H2|].
  rewrite Hlog2, Hlog1. reflexivity.
Defined.

End MoreScenarios.

End IngressFacts.

(** * The capture unit: the output bit depth *)

Module BitDepth.

Section WithDevice.
Context {dev : RGBEasy}.

(** Whether [RGBSetPixelFormat] succeeds for a format. *)
Variable RGBSetPixelFormat : PIXELFORMAT -> bool.

(** The statics of capture.cpp, with [CAPTURE_PIXEL_FORMAT] and the formats
    handed to [RGBSetPixelFormat], in order. *)
Record format_s : Type := mk_format
  { capture : capture_s dev;
    CAPTURE_PIXEL_FORMAT : PIXELFORMAT;
    pixel_format_calls : list PIXELFORMAT }.

Definition set_CAPTURE_COLOR_DEPTH (depth : Z) (s : capture_s dev) : capture_s dev :=
  mk_capture (counters s) (signal s) (FRAME_BUFFER s) (SKIP_NEXT_NUM_FRAMES s)
    (KNOWN_MODES s) (ALIASES s) (IS_ALIASED_INPUT_RESOLUTION s)
    depth (PROGRAM_EXIT_REQUESTED s) (hw s) (api_log s) (ext_log s).

(** [kc_output_bit_depth].  [None] is the failed assertion on a format
    that is none of the three. *)
Definition kc_output_bit_depth (st : format_s) : option Z :=
  match CAPTURE_PIXEL_FORMAT st with
  | RGB_PIXELFORMAT_888 => Some 24
  | RGB_PIXELFORMAT_565 => Some 16
  | RGB_PIXELFORMAT_555 => Some 15
  | RGB_PIXELFORMAT_other _ => None
  end.

(** [kc_set_output_bit_depth].  [None] is the failed assertion on a depth
    that is none of 24, 16 and 15. *)
Definition kc_set_output_bit_depth (bpp : Z) (st : format_s) : option (bool * format_s) :=
  let previousFormat := CAPTURE_PIXEL_FORMAT st in
  let previousColorDepth := CAPTURE_COLOR_DEPTH (capture st) in
  match (if bpp =? 24 then Some (RGB_PIXELFORMAT_888, 32)
         else if bpp =? 16 then Some (RGB_PIXELFORMAT_565, 16)
         else if bpp =? 15 then Some (RGB_PIXELFORMAT_555, 16)
         else None) with
  | None => None
  | Some (format, depth) =>
      let st := mk_format (set_CAPTURE_COLOR_DEPTH depth (capture st)) format
                          (pixel_format_calls st ++ [format]) in
      if negb (RGBSetPixelFormat format) then
        Some (false,
              mk_format (set_CAPTURE_COLOR_DEPTH previousColorDepth (capture st))
                        previousFormat (pixel_format_calls st))
      else
        Some (true,
              mk_format (set_SKIP_NEXT_NUM_FRAMES
                           (wrap_u32 (SKIP_NEXT_NUM_FRAMES (capture st) + 1))
                           (capture st))
                        (CAPTURE_PIXEL_FORMAT st) (pixel_format_calls st))
  end.

End WithDevice.

Arguments format_s dev : clear implicits.

End BitDepth.

(** * Properties of the output bit depth *)

Module BitDepthFacts.

Import BitDepth.

Section WithDevice.
Context {dev : RGBEasy}.
Variable RGBSetPixelFormat : PIXELFORMAT -> bool.

(** The pixel format [kc_set_output_bit_depth] asks the card for. *)
Definition format_for (bpp : Z) : PIXELFORMAT :=
  if bpp =? 24 then RGB_PIXELFORMAT_888
  else if bpp =? 16 then RGB_PIXELFORMAT_565
  else RGB_PIXELFORMAT_555.

(** X13.  A depth of 24, 16 or 15 bits that the card accepts is the depth read
    back by [kc_output_bit_depth]; the capture colour depth becomes 32 for
    24 bits and 16 for both 16 and 15 bits, which is then the depth of the
    resolution the capture reports; and one more frame is to be skipped.
    When the card refuses the format, the function returns false and the
    unit is as it was before the call: format, colour depth and the frames
    to skip.  Either way the card is asked exactly once.  Any other depth
    fails the assertion. *)
Theorem kc_set_output_bit_depth_then_read (bpp : Z) (st : format_s dev) :
  (bpp <> 24 -> bpp <> 16 -> bpp <> 15 ->
   kc_set_output_bit_depth RGBSetPixelFormat bpp st = None)
  /\ (bpp = 24 \/ bpp = 16 \/ bpp = 15 ->
      exists st',
        kc_set_output_bit_depth RGBSetPixelFormat bpp st
        = Some (RGBSetPixelFormat (format_for bpp), st')
        /\ pixel_format_calls st' = pixel_format_calls st ++ [format_for bpp]
        /\ (RGBSetPixelFormat (format_for bpp) = true ->
            kc_output_bit_depth st' = Some bpp
            /\ CAPTURE_COLOR_DEPTH (capture st') = (if bpp =? 24 then 32 else 16)
            /\ SKIP_NEXT_NUM_FRAMES (capture st')
               = wrap_u32 (SKIP_NEXT_NUM_FRAMES (capture st) + 1)
            /\ forall res s1,
                 capture_resolution (capture st') = Some (res, s1) ->
                 Types.bpp res = (if bpp =? 24 then 32 else 16))
        /\ (RGBSetPixelFormat (format_for bpp) = false ->
            capture st' = capture st
            /\ CAPTURE_PIXEL_FORMAT st' = CAPTURE_PIXEL_FORMAT st)).
Proof.
  unfold kc_set_output_bit_depth, format_for. cbv zeta. split.
  - intros H24 H16 H15. apply Z.eqb_neq in H24, H16, H15.
    now rewrite H24, H16, H15.
  - assert (Hback : set_CAPTURE_COLOR_DEPTH (CAPTURE_COLOR_DEPTH (capture st))
                      (capture st) = capture st)
      by (destruct (capture st); reflexivity).
    intros [-> | [-> | ->]]; simpl;
      destruct (RGBSetPixelFormat _); simpl;
      eexists; (split; [reflexivity|]); (split; [reflexivity|]);
      split; try discriminate; intros _.
    all: try (split; [reflexivity|]; split; [reflexivity|]; split; [reflexivity|];
              intros res s1; unfold capture_resolution; simpl;
              destruct (rgb_get _ _ _); [|discriminate];
              destruct (rgb_get _ _ _); [|discriminate];
              now intros [= <- _]).
    all: split; [|reflexivity]; simpl; destruct (capture st); reflexivity.
Qed.

End WithDevice.

End BitDepthFacts.

(** * The capture unit: the file of mode parameters *)

Module ModeFile.

(** The calls [kc_save_mode_params] and [kc_load_mode_params] make into the
    display unit and the propagation unit: those that are among [ext_call],
    and three more. *)
Inductive mode_file_call : Type :=
| to_unit (e : ext_call)
| kd_clear_known_modes
| kd_signal_new_mode_settings_source_file
| kd_show_headless_info_message (title : string).

(** How reading the rows of a file ends: with a value; at the label
    [fail:]; or reading a row or a field that is not there ([paramRows[i]]
    past the last row, [at(1)] on a row of one field), which Qt does not
    define. *)
Inductive load_result (A : Type) : Type :=
| loaded (a : A)
| failed
| out_of_range.

Arguments loaded {A}.
Arguments failed {A}.
Arguments out_of_range {A}.

Section WithDevice.
Context {dev : RGBEasy}.

(** [QTextStream << n] for a [long]: the decimal digits, after a minus
    sign when negative. *)
Definition signed_decimal (n : Z) : string :=
  DecimalString.NilZero.string_of_int (Z.to_int n).

(** [QString::toInt()] on text free of white space and plus sign: the
    number an optional minus sign and decimal digits denote when it fits
    [int], and 0 for any other text. *)
Definition toInt (s : string) : Z :=
  match DecimalString.NilZero.int_of_string s with
  | Some d =>
      let n := Z.of_int d in
      if (- 2 ^ 31 <=? n) && (n <? 2 ^ 31) then n else 0
  | None => 0
  end.

(** A line "key,value" of the file. *)
Definition param_line (key : string) (value : Z) (rest : string) : string :=
  (key ++ String comma (signed_decimal value ++ String newline rest))%string.

(** The block [kc_save_mode_params] streams for one mode. *)
Definition mode_block (m : mode_params_s) (rest : string) : string :=
  ("resolution" ++ String comma
     (decimal (w (r m)) ++ String comma
        (decimal (h (r m)) ++ String newline
  (param_line "vPos" (verPos (video m))
  (param_line "hPos" (horPos (video m))
  (param_line "hScale" (horScale (video m))
  (param_line "phase" (phase (video m))
  (param_line "bLevel" (blackLevel (video m))
  (param_line "bright" (bright (color m))
  (param_line "contr" (contr (color m))
  (param_line "redBr" (redBright (color m))
  (param_line "redCn" (redContr (color m))
  (param_line "greenBr" (greenBright (color m))
  (param_line "greenCn" (greenContr (color m))
  (param_line "blueBr" (blueBright (color m))
  (param_line "blueCn" (blueContr (color m))
  (String newline rest)))))))))))))))))%string.

Definition mode_file_text (modes : list mode_params_s) : string :=
  fold_right mode_block EmptyString modes.

(** [kc_save_mode_params]: [writable] says whether opening the temporary
    file, every write, removing the old file and renaming succeed.  The
    result carries the text that then stands in the file, and the calls
    made. *)
Definition kc_save_mode_params (writable : bool) (s : capture_s dev)
  : bool * option string * list mode_file_call :=
  if writable
  then (true, Some (mode_file_text (KNOWN_MODES s)),
        [kd_signal_new_mode_settings_source_file])
  else (false, None, [to_unit (kd_show_headless_error_message "Data was not saved")]).

(** The lambda [get_param] of [kc_load_mode_params], on the rows from
    index [i] on: the value, and the rows from the next index on. *)
Definition get_param (name : string) (rows : list (list string))
  : load_result (string * list (list string)) :=
  match rows with
  | [] => out_of_range
  | row :: rest =>
      match row with
      | [] => out_of_range
      | key :: fields =>
          if negb (String.eqb key name) then failed
          else match fields with
               | [] => out_of_range
               | value :: _ => loaded (value, rest)
               end
      end
  end.

(** Reading a [long] parameter, then the rest. *)
Definition with_param {A : Type} (name : string) (rows : list (list string))
    (k : Z -> list (list string) -> load_result A) : load_result A :=
  match get_param name rows with
  | loaded (value, rest) => k (toInt value) rest
  | failed => failed
  | out_of_range => out_of_range
  end.

(** One turn of the loop of [kc_load_mode_params], on the rows from index
    [i] on, of which there is at least one: the mode read, and the rows
    from the next index on.  The loader does not set the [bpp] of the
    resolution; the model puts 0 there. *)
Definition read_mode (header : list string) (rows : list (list string))
  : load_result (mode_params_s * list (list string)) :=
  match header with
  | [key; width; height] =>
      if negb (String.eqb key "resolution") then failed
      else
        with_param "vPos" rows (fun verPos rows =>
        with_param "hPos" rows (fun horPos rows =>
        with_param "hScale" rows (fun horScale rows =>
        with_param "phase" rows (fun phase rows =>
        with_param "bLevel" rows (fun blackLevel rows =>
        with_param "bright" rows (fun bright rows =>
        with_param "contr" rows (fun contr rows =>
        with_param "redBr" rows (fun redBright rows =>
        with_param "redCn" rows (fun redContr rows =>
        with_param "greenBr" rows (fun greenBright rows =>
        with_param "greenCn" rows (fun greenContr rows =>
        with_param "blueBr" rows (fun blueBright rows =>
        with_param "blueCn" rows (fun blueContr rows =>
          loaded (mk_mode (mk_resolution (toUInt width) (toUInt height) 0)
                          (mk_color bright contr redBright redContr
                                    greenBright greenContr blueBright blueContr)
                          (mk_video horScale horPos verPos phase blackLevel),
                  rows))))))))))))))
  | _ => failed
  end.

(** The loop of [kc_load_mode_params] over the rows.  Every turn takes at
    least the row of the resolution, so that as many turns as there are
    rows are enough; [fuel] bounds them. *)
Fixpoint modes_of_rows (fuel : nat) (rows : list (list string))
  : option (load_result (list mode_params_s)) :=
  match rows with
  | [] => Some (loaded [])
  | header :: rest =>
      match fuel with
      | O => None
      | S fuel' =>
          match read_mode header rest with
          | loaded (p, rest') =>
              match modes_of_rows fuel' rest' with
              | Some (loaded others) => Some (loaded (p :: others))
              | other => other
              end
          | failed => Some failed
          | out_of_range => Some out_of_range
          end
      end
  end.

(** The platform's width of [unsigned long], in which the comparison of the
    sort multiplies. *)
Variable ulong : long_width.

(** [std::sort] with the comparison of [kc_load_mode_params]: ascending in
    [r.w * r.h], the product taken in [unsigned long].  [std::sort] leaves
    the order of equal keys open; insertion gives one of its outcomes. *)
Definition mode_sort_key (m : mode_params_s) : Z := wrap_ulong ulong (w (r m) * h (r m)).

Fixpoint insert_mode (m : mode_params_s) (l : list mode_params_s) : list mode_params_s :=
  match l with
  | [] => [m]
  | b :: rest =>
      if mode_sort_key b <? mode_sort_key m
      then b :: insert_mode m rest
      else m :: b :: rest
  end.

Definition sort_modes (l : list mode_params_s) : list mode_params_s :=
  fold_right insert_mode [] l.

(** [kc_broadcast_mode_params_to_gui]. *)
Definition kc_broadcast_mode_params_to_gui (s : capture_s dev) : list mode_file_call :=
  kd_clear_known_modes
    :: map (fun m => to_unit (kd_signal_new_known_mode (r m))) (KNOWN_MODES s).

(** [kc_load_mode_params]: [file] is [None] for an empty file name and the
    text of the named file otherwise.  The result is what the function
    returns, the statics afterwards, and the calls made, in order; [None]
    only when [fuel] is less than the number of rows. *)
Definition kc_load_mode_params (fuel : nat) (file : option string) (automaticCall : bool)
    (s : capture_s dev)
  : option (load_result (bool * capture_s dev * list mode_file_call)) :=
  match file with
  | None => Some (loaded (true, s, []))
  | Some text =>
      match modes_of_rows fuel (csv_contents text) with
      | None => None
      | Some out_of_range => Some out_of_range
      | Some failed =>
          Some (loaded (false, s,
                        [to_unit (kd_show_headless_error_message "Data was not loaded")]))
      | Some (loaded modesFromDisk) =>
          let s := set_KNOWN_MODES modesFromDisk s in
          let s := set_KNOWN_MODES (sort_modes (KNOWN_MODES s)) s in
          Some (loaded (true, s,
                        kc_broadcast_mode_params_to_gui s
                        ++ [to_unit kpropagate_new_input_video_mode;
                            kd_signal_new_mode_settings_source_file]
                        ++ (if negb automaticCall
                            then [kd_show_headless_info_message "Data was loaded"]
                            else [])))
      end
  end.

End WithDevice.

End ModeFile.
Import ModeFile.

(** * Properties of the file of mode parameters *)

Module ModeFileFacts.

Import CaptureFacts.

Section WithDevice.
Context {dev : RGBEasy}.
Variable ulong : long_width.

(** *** Numbers as text *)

Lemma signed_decimal_free_of (sep : ascii) (n : Z) :
  (sep = comma \/ sep = newline) -> free_of sep (signed_decimal n).
Proof.
  intros Hsep. unfold signed_decimal, DecimalString.NilZero.string_of_int.
  assert (Hu : forall d, free_of sep (DecimalString.NilZero.string_of_uint d)).
  { intros d. unfold DecimalString.NilZero.string_of_uint.
    destruct d eqn:Hd; try (rewrite <- Hd; now apply digits_free_of).
    simpl. split; [destruct Hsep as [-> | ->]; discriminate | exact I]. }
  destruct (Z.to_int n); [apply Hu|].
  simpl. split; [destruct Hsep as [-> | ->]; discriminate | apply Hu].
Qed.

Lemma string_of_uint_nonempty (d : Decimal.uint) :
  DecimalString.NilZero.string_of_uint d <> EmptyString.
Proof. destruct d; discriminate. Qed.

Lemma signed_decimal_nonempty (n : Z) : signed_decimal n <> EmptyString.
Proof.
  unfold signed_decimal, DecimalString.NilZero.string_of_int.
  destruct (Z.to_int n); [apply string_of_uint_nonempty | discriminate].
Qed.

Lemma decimal_nonempty (n : Z) : decimal n <> EmptyString.
Proof. apply string_of_uint_nonempty. Qed.

(** Reading back a streamed [long] gives the number, as long as it fits
    [int]. *)
Lemma toInt_signed_decimal (n : Z) : is_int n -> toInt (signed_decimal n) = n.
Proof.
  unfold is_int, toInt, signed_decimal. intros Hn.
  rewrite DecimalString.NilZero.isi.
  - rewrite DecimalZ.of_to. cbv zeta.
    destruct (Z.leb_spec (- 2 ^ 31) n); [|lia].
    destruct (Z.ltb_spec n (2 ^ 31)); [reflexivity | lia].
  - destruct n; simpl; try discriminate.
    intros [= H]. now apply DecimalPos.Unsigned.to_uint_nonnil in H.
  - destruct n; simpl; try discriminate.
    intros [= H]. now apply DecimalPos.Unsigned.to_uint_nonnil in H.
Qed.

(** *** Lines and rows *)

Lemma split_on_free (sep : ascii) (s : string) :
  free_of sep s -> split_on sep s = [s].
Proof.
  induction s as [|c s IH]; simpl; [reflexivity|].
  intros (Hc & Hfree). apply Ascii.eqb_neq in Hc. now rewrite Hc, (IH Hfree).
Qed.

(** The row of a line "key,value". *)
Lemma csv_row_pair (key value : string) :
  free_of comma key -> free_of comma value -> value <> EmptyString ->
  csv_row (key ++ String comma value) = [key; value].
Proof.
  intros Hkey Hvalue Hfull. unfold csv_row, terminated_pieces.
  rewrite (split_on_piece comma key value Hkey), (split_on_free comma value Hvalue).
  simpl. destruct value; [contradiction | reflexivity].
Qed.

(** The row of a line "key,first,second". *)
Lemma csv_row_triple (key first second : string) :
  free_of comma key -> free_of comma first -> free_of comma second ->
  second <> EmptyString ->
  csv_row (key ++ String comma (first ++ String comma second)) = [key; first; second].
Proof.
  intros Hkey Hfirst Hsecond Hfull. unfold csv_row, terminated_pieces.
  rewrite (split_on_piece comma key _ Hkey), (split_on_piece comma first _ Hfirst),
    (split_on_free comma second Hsecond).
  simpl. destruct second; [contradiction | reflexivity].
Qed.

(** The lines of the block of a mode, without their line ends. *)
Definition param_body (key : string) (value : Z) : string :=
  (key ++ String comma (signed_decimal value))%string.

Definition header_body (m : mode_params_s) : string :=
  ("resolution" ++ String comma (decimal (w (r m)) ++ String comma (decimal (h (r m)))))%string.

Definition block_params (m : mode_params_s) : list (string * Z) :=
  [ ("vPos", verPos (video m)); ("hPos", horPos (video m));
    ("hScale", horScale (video m)); ("phase", phase (video m));
    ("bLevel", blackLevel (video m));
    ("bright", bright (color m)); ("contr", contr (color m));
    ("redBr", redBright (color m)); ("redCn", redContr (color m));
    ("greenBr", greenBright (color m)); ("greenCn", greenContr (color m));
    ("blueBr", blueBright (color m)); ("blueCn", blueContr (color m)) ]%string.

Definition block_lines (m : mode_params_s) : list string :=
  header_body m :: map (fun kv => param_body (fst kv) (snd kv)) (block_params m)
    ++ [EmptyString].

(** The rows of the block of a mode. *)
Definition block_rows (m : mode_params_s) : list (list string) :=
  [ "resolution"%string; decimal (w (r m)); decimal (h (r m)) ]
    :: map (fun kv => [fst kv; signed_decimal (snd kv)]) (block_params m).

(** A key of the file has no comma and no line end. *)
Definition plain_key (key : string) : Prop :=
  free_of comma key /\ free_of newline key.

Lemma block_keys_plain (m : mode_params_s) :
  Forall (fun kv => plain_key (fst kv)) (block_params m).
Proof.
  unfold block_params, plain_key.
  repeat (constructor; [simpl; repeat split; discriminate|]). constructor.
Qed.

Lemma param_body_free_of_newline (key : string) (value : Z) :
  plain_key key -> free_of newline (param_body key value).
Proof.
  intros (_ & Hkey). unfold param_body. apply free_of_append; [exact Hkey|].
  simpl. split; [discriminate|]. apply signed_decimal_free_of. now right.
Qed.

Lemma header_body_free_of_newline (m : mode_params_s) : free_of newline (header_body m).
Proof.
  unfold header_body. apply free_of_append; [simpl; repeat split; discriminate|].
  simpl. split; [discriminate|].
  apply free_of_append; [apply decimal_free_of; now right|].
  simpl. split; [discriminate|]. apply decimal_free_of. now right.
Qed.

Lemma param_line_body (key : string) (value : Z) (rest : string) :
  param_line key value rest = (param_body key value ++ String newline rest)%string.
Proof.
  unfold param_line, param_body. rewrite append_assoc. reflexivity.
Qed.

Lemma header_line_body (m : mode_params_s) (rest : string) :
  ("resolution" ++ String comma
     (decimal (w (r m)) ++ String comma (decimal (h (r m)) ++ String newline rest)))%string
  = (header_body m ++ String newline rest)%string.
Proof.
  unfold header_body. rewrite append_assoc. simpl. now rewrite append_assoc.
Qed.

Lemma param_lines (kvs : list (string * Z)) (rest : string) :
  Forall (fun kv => plain_key (fst kv)) kvs ->
  split_on newline (fold_right (fun kv acc => param_line (fst kv) (snd kv) acc) rest kvs)
  = map (fun kv => param_body (fst kv) (snd kv)) kvs ++ split_on newline rest.
Proof.
  induction 1 as [|kv kvs Hkey Hkeys IH]; [reflexivity|].
  cbn [fold_right map app].
  rewrite param_line_body, split_on_piece by now apply param_body_free_of_newline.
  now rewrite IH.
Qed.

Lemma mode_block_lines (m : mode_params_s) (rest : string) :
  split_on newline (mode_block m rest) = block_lines m ++ split_on newline rest.
Proof.
  change (mode_block m rest)
    with ("resolution" ++ String comma
            (decimal (w (r m)) ++ String comma
               (decimal (h (r m)) ++ String newline
                  (fold_right (fun kv acc => param_line (fst kv) (snd kv) acc)
                              (String newline rest) (block_params m)))))%string.
  rewrite header_line_body.
  rewrite (split_on_piece newline _ _ (header_body_free_of_newline m)).
  rewrite (param_lines _ _ (block_keys_plain m)).
  unfold block_lines. cbn [split_on]. rewrite Ascii.eqb_refl.
  cbn [app]. now rewrite <- app_assoc.
Qed.

Lemma split_lines_mode_file (modes : list mode_params_s) :
  split_on newline (mode_file_text modes) = flat_map block_lines modes ++ [EmptyString].
Proof.
  induction modes as [|m modes IH]; [reflexivity|].
  change (mode_file_text (m :: modes)) with (mode_block m (mode_file_text modes)).
  cbn [flat_map]. now rewrite mode_block_lines, IH, app_assoc.
Qed.

Definition has_fields (row : list string) : bool := negb (Nat.eqb (List.length row) 0).

Lemma rows_of_param_lines (kvs : list (string * Z)) :
  Forall (fun kv => plain_key (fst kv)) kvs ->
  filter has_fields (map csv_row (map (fun kv => param_body (fst kv) (snd kv)) kvs))
  = map (fun kv => [fst kv; signed_decimal (snd kv)]) kvs.
Proof.
  induction 1 as [|kv kvs (Hkey & _) Hkeys IH]; [reflexivity|].
  cbn [map]. unfold param_body at 1.
  rewrite csv_row_pair;
    [| exact Hkey | apply signed_decimal_free_of; now left | apply signed_decimal_nonempty].
  cbn [filter has_fields List.length Nat.eqb negb]. now rewrite IH.
Qed.

Lemma rows_of_block_lines (m : mode_params_s) :
  filter has_fields (map csv_row (block_lines m)) = block_rows m.
Proof.
  unfold block_lines, block_rows.
  cbn [map]. rewrite map_app. unfold header_body at 1.
  rewrite csv_row_triple;
    [| simpl; repeat split; discriminate
     | apply decimal_free_of; now left
     | apply decimal_free_of; now left
     | apply decimal_nonempty ].
  cbn [filter has_fields List.length Nat.eqb negb].
  rewrite filter_app, (rows_of_param_lines _ (block_keys_plain m)).
  cbn [map]. change (csv_row EmptyString) with (@nil string).
  cbn [filter has_fields List.length Nat.eqb negb]. now rewrite app_nil_r.
Qed.

(** Every saved block is read as the rows of its fourteen lines. *)
Lemma csv_contents_mode_file (modes : list mode_params_s) :
  csv_contents (mode_file_text modes) = flat_map block_rows modes.
Proof.
  unfold csv_contents, terminated_pieces.
  rewrite split_lines_mode_file, last_last, removelast_last.
  change (fun row : list string => negb (Nat.eqb (List.length row) 0)) with has_fields.
  induction modes as [|m modes IH]; [reflexivity|].
  cbn [flat_map]. rewrite map_app, filter_app, IH, rows_of_block_lines. reflexivity.
Qed.

(** *** Reading the rows *)

(** A mode whose numbers the file can hold: sizes that fit [uint] and
    parameters that fit [int]. *)
Definition mode_in_range (m : mode_params_s) : Prop :=
  is_u32 (w (r m)) /\ is_u32 (h (r m))
  /\ Forall (fun kv => is_int (snd kv)) (block_params m).

(** A mode as the loader builds it: without the [bpp] of its resolution. *)
Definition as_loaded_mode (m : mode_params_s) : mode_params_s :=
  mk_mode (mk_resolution (w (r m)) (h (r m)) 0) (color m) (video m).

(** The rows of a saved block are read back as the mode. *)
Lemma read_saved_block (m : mode_params_s) (rest : list (list string)) :
  mode_in_range m ->
  match block_rows m ++ rest with
  | header :: rows => read_mode header rows = loaded (as_loaded_mode m, rest)
  | [] => False
  end.
Proof.
  destruct m as [[rw rh rb] [c1 c2 c3 c4 c5 c6 c7 c8] [v1 v2 v3 v4 v5]].
  unfold mode_in_range, block_params, as_loaded_mode. cbn [r color video w h bpp
    verPos horPos horScale phase blackLevel bright contr redBright redContr
    greenBright greenContr blueBright blueContr fst snd].
  intros (Hw & Hh & Hparams).
  repeat match goal with
         | H : Forall _ (_ :: _) |- _ => inversion H; subst; clear H
         end.
  cbn [snd] in *.
  unfold block_rows, block_params, read_mode, with_param, get_param.
  cbn [r color video w h bpp verPos horPos horScale phase blackLevel bright contr
       redBright redContr greenBright greenContr blueBright blueContr fst snd map app].
  cbn [String.eqb Ascii.eqb Bool.eqb negb].
  rewrite !toUInt_decimal by assumption.
  rewrite !toInt_signed_decimal by assumption.
  reflexivity.
Qed.

(** One parameter takes one row. *)
Lemma with_param_loaded {A : Type} (name : string) (rows : list (list string))
    (k : Z -> list (list string) -> load_result A) (a : A) :
  with_param name rows k = loaded a ->
  exists row rest value, rows = row :: rest /\ k value rest = loaded a.
Proof.
  unfold with_param, get_param.
  destruct rows as [|row rest]; [discriminate|].
  destruct row as [|key fields]; [discriminate|].
  destruct (negb (String.eqb key name)); [discriminate|].
  destruct fields as [|value more]; [discriminate|].
  intros Hk. now exists (key :: value :: more), rest, (toInt value).
Qed.

(** A turn of the loop takes the row of the resolution and thirteen
    more. *)
Lemma read_mode_takes_rows (header : list string) (rows rest : list (list string))
    (p : mode_params_s) :
  read_mode header rows = loaded (p, rest) ->
  List.length rows = (13 + List.length rest)%nat.
Proof.
  unfold read_mode.
  destruct header as [|key [|width [|height [|more]]]]; try discriminate.
  destruct (negb (String.eqb key "resolution")); [discriminate|].
  intros Hread.
  repeat match goal with
         | H : with_param _ _ _ = loaded _ |- _ =>
             apply with_param_loaded in H;
             destruct H as (? & ? & ? & -> & H)
         end.
  injection Hread as _ <-. reflexivity.
Qed.

(** As many turns as there are rows are enough. *)
Lemma modes_of_rows_returns (fuel : nat) :
  forall rows, (List.length rows <= fuel)%nat -> modes_of_rows fuel rows <> None.
Proof.
  induction fuel as [|fuel IH]; intros rows Hfuel.
  - destruct rows; [discriminate | simpl in Hfuel; lia].
  - destruct rows as [|header rest]; [discriminate|]. cbn [modes_of_rows].
    destruct (read_mode header rest) as [[p rest']| |] eqn:Hread; try discriminate.
    apply read_mode_takes_rows in Hread.
    assert (Hrest : (List.length rest' <= fuel)%nat) by (simpl in Hfuel; lia).
    pose proof (IH rest' Hrest) as Hnext.
    destruct (modes_of_rows fuel rest') as [[others| |]|]; congruence.
Qed.

(** What is loaded has one mode for every fourteen rows. *)
Lemma modes_of_rows_count (fuel : nat) :
  forall rows modesFromDisk,
    modes_of_rows fuel rows = Some (loaded modesFromDisk) ->
    List.length rows = (14 * List.length modesFromDisk)%nat.
Proof.
  induction fuel as [|fuel IH]; intros rows modesFromDisk.
  - destruct rows; [intros [= <-]; reflexivity | discriminate].
  - destruct rows as [|header rest]; [intros [= <-]; reflexivity|]. cbn [modes_of_rows].
    destruct (read_mode header rest) as [[p rest']| |] eqn:Hread; try discriminate.
    apply read_mode_takes_rows in Hread.
    destruct (modes_of_rows fuel rest') as [[others| |]|] eqn:Hnext; try discriminate.
    intros [= <-]. pose proof (IH rest' others Hnext). simpl. lia.
Qed.

Lemma block_rows_length (m : mode_params_s) : List.length (block_rows m) = 14%nat.
Proof. reflexivity. Qed.

Lemma saved_rows_length (modes : list mode_params_s) :
  List.length (flat_map block_rows modes) = (14 * List.length modes)%nat.
Proof.
  induction modes as [|m modes IH]; [reflexivity|].
  cbn [flat_map]. rewrite length_app, IH, block_rows_length. simpl. lia.
Qed.

(** The rows of saved modes are read back as the modes, whatever rows
    follow them deciding what comes after. *)
Lemma modes_of_saved_rows (modes : list mode_params_s) :
  Forall mode_in_range modes ->
  forall fuel rest,
    (List.length modes <= fuel)%nat ->
    modes_of_rows (fuel + List.length rest) (flat_map block_rows modes ++ rest)
    = match modes_of_rows (fuel - List.length modes + List.length rest) rest with
      | Some (loaded others) => Some (loaded (map as_loaded_mode modes ++ others))
      | other => other
      end.
Proof.
  induction 1 as [|m modes Hm Hmodes IH]; intros fuel rest Hfuel.
  - simpl. rewrite Nat.sub_0_r. now destruct (modes_of_rows _ rest) as [[| |]|].
  - cbn [flat_map]. rewrite <- app_assoc.
    pose proof (read_saved_block m (flat_map block_rows modes ++ rest) Hm) as Hread.
    destruct (block_rows m ++ flat_map block_rows modes ++ rest) as [|header rows];
      [contradiction|].
    destruct fuel as [|fuel]; [simpl in Hfuel; lia|].
    cbn [modes_of_rows plus]. rewrite Hread.
    rewrite (IH fuel rest) by (simpl in Hfuel; lia).
    cbn [List.length Nat.sub map app].
    now destruct (modes_of_rows _ rest) as [[| |]|].
Qed.

(** *** Sorting *)

Definition mode_key_le (a b : mode_params_s) : Prop := mode_sort_key ulong a <= mode_sort_key ulong b.

Lemma insert_mode_perm (m : mode_params_s) (l : list mode_params_s) :
  Permutation (insert_mode ulong m l) (m :: l).
Proof.
  induction l as [|b l IH]; simpl; [reflexivity|].
  destruct (mode_sort_key ulong b <? mode_sort_key ulong m); [|reflexivity].
  rewrite IH. apply perm_swap.
Qed.

Lemma sort_modes_perm (l : list mode_params_s) : Permutation (sort_modes ulong l) l.
Proof.
  induction l as [|m l IH]; simpl; [reflexivity|].
  rewrite insert_mode_perm. now constructor.
Qed.

Lemma insert_mode_sorted (m : mode_params_s) (l : list mode_params_s) :
  StronglySorted mode_key_le l -> StronglySorted mode_key_le (insert_mode ulong m l).
Proof.
  induction 1 as [|b l Hsorted IH Hall]; simpl.
  - constructor; constructor.
  - destruct (Z.ltb_spec (mode_sort_key ulong b) (mode_sort_key ulong m)) as [Hlt | Hge].
    + constructor; [exact IH|].
      rewrite insert_mode_perm. constructor; [unfold mode_key_le; lia | exact Hall].
    + constructor; [constructor; assumption|].
      constructor; [exact Hge|].
      eapply Forall_impl; [|exact Hall]. unfold mode_key_le. intros c Hc. lia.
Qed.

Lemma sort_modes_sorted (l : list mode_params_s) :
  StronglySorted mode_key_le (sort_modes ulong l).
Proof.
  induction l as [|m l IH]; simpl; [constructor | now apply insert_mode_sorted].
Qed.

(** *** Saving and loading *)

(** What [kc_load_mode_params] does with rows that were read. *)
Lemma kc_load_mode_params_eq (fuel : nat) (text : string) (automaticCall : bool)
    (s : capture_s dev) (modesFromDisk : list mode_params_s) :
  modes_of_rows fuel (csv_contents text) = Some (loaded modesFromDisk) ->
  exists calls,
    kc_load_mode_params ulong fuel (Some text) automaticCall s
    = Some (loaded (true, set_KNOWN_MODES (sort_modes ulong modesFromDisk) s, calls))
    /\ calls
       = kd_clear_known_modes
           :: map (fun m => to_unit (kd_signal_new_known_mode (r m)))
                  (sort_modes ulong modesFromDisk)
           ++ [to_unit kpropagate_new_input_video_mode;
               kd_signal_new_mode_settings_source_file]
           ++ (if automaticCall then []
               else [kd_show_headless_info_message "Data was loaded"]).
Proof.
  intros Hrows. unfold kc_load_mode_params. rewrite Hrows. cbv zeta.
  eexists. split; [reflexivity|].
  unfold kc_broadcast_mode_params_to_gui. simpl. now destruct automaticCall.
Qed.

(** X14.  The modes [kc_save_mode_params] writes are the modes
    [kc_load_mode_params] reads from the file: for modes whose sizes fit
    [uint] and whose parameters fit [int], loading the saved text returns
    true and leaves as [KNOWN_MODES] the saved modes (without the [bpp] of
    their resolutions, which the file does not hold), sorted by [w * h],
    the product taken in [unsigned long] of either width; nothing else of
    the unit changes, and the GUI is told to clear its list and is given
    each mode once.  ([csv_parse_c] is modelled from the file
    format the spec gives.) *)
Theorem saved_mode_params_load_back (saved s : capture_s dev) (text : string)
    (calls_saving : list mode_file_call) (automaticCall : bool) (fuel : nat) :
  Forall mode_in_range (KNOWN_MODES saved) ->
  kc_save_mode_params true saved = (true, Some text, calls_saving) ->
  (14 * List.length (KNOWN_MODES saved) <= fuel)%nat ->
  exists s' calls,
    kc_load_mode_params ulong fuel (Some text) automaticCall s = Some (loaded (true, s', calls))
    /\ Permutation (KNOWN_MODES s') (map as_loaded_mode (KNOWN_MODES saved))
    /\ StronglySorted mode_key_le (KNOWN_MODES s')
    /\ s' = set_KNOWN_MODES (KNOWN_MODES s') s
    /\ (exists told, calls = kd_clear_known_modes :: told)
    /\ forall m, In m (KNOWN_MODES s') ->
                 In (to_unit (kd_signal_new_known_mode (r m))) calls.
Proof.
  intros Hrange Hsave Hfuel. unfold kc_save_mode_params in Hsave.
  injection Hsave as <- _.
  assert (Hrows : modes_of_rows fuel (csv_contents (mode_file_text (KNOWN_MODES saved)))
                  = Some (loaded (map as_loaded_mode (KNOWN_MODES saved)))).
  { rewrite csv_contents_mode_file.
    pose proof (modes_of_saved_rows (KNOWN_MODES saved) Hrange fuel []) as Hread.
    rewrite app_nil_r, Nat.add_0_r in Hread. rewrite Hread by lia.
    cbn [List.length]. rewrite Nat.add_0_r.
    destruct (fuel - List.length (KNOWN_MODES saved))%nat; cbn [modes_of_rows];
      now rewrite app_nil_r. }
  destruct (kc_load_mode_params_eq fuel _ automaticCall s _ Hrows) as (calls & Hrun & Hcalls).
  exists (set_KNOWN_MODES (sort_modes ulong (map as_loaded_mode (KNOWN_MODES saved))) s), calls.
  split; [exact Hrun|]. cbn [KNOWN_MODES set_KNOWN_MODES].
  split; [apply sort_modes_perm|]. split; [apply sort_modes_sorted|].
  split; [reflexivity|]. split; [rewrite Hcalls; eexists; reflexivity|].
  intros m Hm. rewrite Hcalls. right. apply in_or_app. left.
  now apply (in_map (fun m => to_unit (kd_signal_new_known_mode (r m)))).
Qed.

(** *** Whole blocks *)

(** A row that holds a name and a value at least. *)
Definition has_value (row : list string) : Prop := (2 <= List.length row)%nat.

Lemma with_param_in_range {A : Type} (name : string) (row : list string)
    (rest : list (list string)) (k : Z -> list (list string) -> load_result A) :
  has_value row ->
  with_param name (row :: rest) k = failed
  \/ exists value, with_param name (row :: rest) k = k value rest.
Proof.
  unfold has_value, with_param, get_param.
  destruct row as [|key [|value more]]; simpl; try lia. intros _.
  destruct (negb (String.eqb key name)); [now left | right; eexists; reflexivity].
Qed.

(** The rows [read_mode] leaves are those after the thirteen it read. *)
Lemma read_mode_rest (header : list string) (rows rest : list (list string))
    (p : mode_params_s) :
  read_mode header rows = loaded (p, rest) -> rest = skipn 13 rows.
Proof.
  unfold read_mode.
  destruct header as [|key [|width [|height [|more]]]]; try discriminate.
  destruct (negb (String.eqb key "resolution")); [discriminate|].
  intros Hread.
  repeat match goal with
         | H : with_param _ _ _ = loaded _ |- _ =>
             apply with_param_loaded in H;
             destruct H as (? & ? & ? & -> & H)
         end.
  injection Hread as _ <-. reflexivity.
Qed.

(** With thirteen rows to read, each holding a value, [read_mode] reads
    nothing that is not there. *)
Lemma read_mode_in_range (header : list string) (rows : list (list string)) :
  (13 <= List.length rows)%nat -> Forall has_value rows ->
  read_mode header rows <> out_of_range.
Proof.
  intros Hlen Hall. unfold read_mode.
  destruct header as [|key [|width [|height [|more]]]]; try discriminate.
  destruct (negb (String.eqb key "resolution")); [discriminate|].
  do 13 (destruct rows as [|? rows]; [simpl in Hlen; lia|]).
  repeat match goal with
         | H : Forall _ (_ :: _) |- _ => apply Forall_cons_iff in H; destruct H as (? & H)
         end.
  repeat match goal with
         | |- with_param ?n (?row :: ?rest) ?k <> out_of_range =>
             let Hrow := fresh "Hrow" in
             assert (Hrow : has_value row) by assumption;
             destruct (with_param_in_range n row rest k Hrow) as [-> | (? & ->)];
             [discriminate | cbv beta]
         end.
  discriminate.
Qed.

(** Rows that are whole blocks, each row holding a value, are never read
    out of range. *)
Lemma modes_of_rows_in_range (fuel : nat) :
  forall rows,
    Forall has_value rows ->
    (exists n, List.length rows = (14 * n)%nat) ->
    modes_of_rows fuel rows <> Some out_of_range.
Proof.
  induction fuel as [|fuel IH]; intros rows Hall (n & Hn).
  - destruct rows; discriminate.
  - destruct rows as [|header rest]; [discriminate|]. cbn [modes_of_rows].
    apply Forall_cons_iff in Hall. destruct Hall as (_ & Hall).
    simpl in Hn.
    destruct (read_mode header rest) as [[p rest']| |] eqn:Hread.
    + pose proof (read_mode_takes_rows _ _ _ _ Hread) as Htaken.
      apply read_mode_rest in Hread.
      assert (Hnext : modes_of_rows fuel rest' <> Some out_of_range).
      { apply IH.
        - rewrite <- (firstn_skipn 13 rest) in Hall. apply Forall_app in Hall.
          rewrite Hread. exact (proj2 Hall).
        - exists (n - 1)%nat. lia. }
      destruct (modes_of_rows fuel rest') as [[others| |]|]; congruence.
    + discriminate.
    + exfalso. revert Hread. apply read_mode_in_range; [lia | exact Hall].
Qed.

(** X15.  Given as many turns as the file has rows, [kc_load_mode_params]
    ends in one of three ways, and in none of them has it applied a part of
    the file.  It returns true: the file had fourteen rows for each mode
    now in [KNOWN_MODES], which are the modes of the rows, sorted, and
    nothing else of the unit changed.  It returns false: it has shown one
    error message and changed nothing.  Or it reads a row or a field that
    is not there, which Qt does not define: that happens only for a file
    whose rows are not a multiple of fourteen or that has a row of fewer
    than two fields, so that for every other file the function returns.
    With an empty file name it returns true and does nothing. *)
Theorem kc_load_mode_params_all_or_nothing (fuel : nat) (text : string)
    (automaticCall : bool) (s : capture_s dev) :
  kc_load_mode_params ulong fuel None automaticCall s = Some (loaded (true, s, []))
  /\ ((List.length (csv_contents text) <= fuel)%nat ->
      exists outcome,
        kc_load_mode_params ulong fuel (Some text) automaticCall s = Some outcome
        /\ match outcome with
           | loaded (true, s', calls) =>
               List.length (csv_contents text) = (14 * List.length (KNOWN_MODES s'))%nat
               /\ (exists modesFromDisk,
                     modes_of_rows fuel (csv_contents text) = Some (loaded modesFromDisk)
                     /\ Permutation (KNOWN_MODES s') modesFromDisk)
               /\ StronglySorted mode_key_le (KNOWN_MODES s')
               /\ s' = set_KNOWN_MODES (KNOWN_MODES s') s
           | loaded (false, s', calls) =>
               s' = s
               /\ calls = [to_unit (kd_show_headless_error_message "Data was not loaded")]
           | failed => False
           | out_of_range =>
               ~ (Forall has_value (csv_contents text)
                  /\ exists n, List.length (csv_contents text) = (14 * n)%nat)
           end).
Proof.
  split; [reflexivity|]. intros Hfuel.
  pose proof (modes_of_rows_returns fuel (csv_contents text) Hfuel) as Hreturns.
  destruct (modes_of_rows fuel (csv_contents text)) as [[modesFromDisk| |]|] eqn:Hrows;
    [| | |congruence].
  - destruct (kc_load_mode_params_eq fuel text automaticCall s _ Hrows)
      as (calls & Hrun & _).
    eexists. split; [exact Hrun|]. cbn [KNOWN_MODES set_KNOWN_MODES].
    split; [|split; [|split; [apply sort_modes_sorted | reflexivity]]].
    + rewrite (modes_of_rows_count fuel _ _ Hrows).
      now rewrite (Permutation_length (sort_modes_perm modesFromDisk)).
    + exists modesFromDisk. split; [reflexivity | apply sort_modes_perm].
  - unfold kc_load_mode_params. rewrite Hrows. eexists. split; [reflexivity|].
    split; reflexivity.
  - unfold kc_load_mode_params. rewrite Hrows. eexists. split; [reflexivity|].
    intros (Hall & Hblocks).
    exact (modes_of_rows_in_range fuel (csv_contents text) Hall Hblocks Hrows).
Qed.

(** X16.  A file that ends inside a block is not turned away with the error
    message: after the row of a resolution the loader reads its thirteen
    parameters without looking at the number of rows, and so reads past the
    last row.  This holds for any number of whole blocks followed by the
    first [k] rows of a block, for [k] from 1 to 13. *)
Theorem truncated_mode_file_is_read_past_its_end (modes : list mode_params_s)
    (m : mode_params_s) (k fuel : nat) (text : string) (automaticCall : bool)
    (s : capture_s dev) :
  Forall mode_in_range modes -> mode_in_range m ->
  (0 < k < 14)%nat ->
  csv_contents text = flat_map block_rows modes ++ firstn k (block_rows m) ->
  (List.length (csv_contents text) <= fuel)%nat ->
  kc_load_mode_params ulong fuel (Some text) automaticCall s = Some out_of_range.
Proof.
  intros Hmodes Hm Hk Hrows Hfuel. unfold kc_load_mode_params. rewrite Hrows.
  rewrite Hrows, length_app, saved_rows_length in Hfuel.
  assert (Hcut : List.length (firstn k (block_rows m)) = k).
  { rewrite length_firstn, block_rows_length. lia. }
  rewrite Hcut in Hfuel.
  pose proof (modes_of_saved_rows modes Hmodes (fuel - k) (firstn k (block_rows m)))
    as Hread.
  rewrite Hcut in Hread. replace (fuel - k + k)%nat with fuel in Hread by lia.
  rewrite Hread by lia. clear Hread.
  assert (Hlast : modes_of_rows (fuel - k - List.length modes + k)
                                (firstn k (block_rows m)) = Some out_of_range).
  { destruct m as [[rw rh rb] [c1 c2 c3 c4 c5 c6 c7 c8] [v1 v2 v3 v4 v5]].
    unfold block_rows, block_params.
    cbn [r color video w h bpp verPos horPos horScale phase blackLevel bright contr
         redBright redContr greenBright greenContr blueBright blueContr fst snd map].
    destruct (fuel - k - List.length modes + k)%nat as [|left] eqn:Hleft; [lia|].
    do 14 (destruct k as [|k]; [try lia; reflexivity|]). lia. }
  now rewrite Hlast.
Qed.

End WithDevice.

(** ** The file of mode parameters on the simulated card *)

Section ModeFileScenarios.
Import SimCard.

(** A mode with a negative horizontal position. *)
Definition params_640x400 : mode_params_s :=
  mk_mode (mk_resolution 640 400 0) (mk_color 32 128 32 128 32 128 32 128)
          (mk_video 800 (-5) 20 16 8).

(** The unit holding three modes, the largest first. *)
Definition three_modes : capture_s sim :=
  set_KNOWN_MODES [params_1024x768; params_640x400; params_800x600]
                  (initial (sim_card 800 600 10)).

(** Saved and loaded again, the three modes come back sorted by size. *)
Lemma saved_mode_params_load_back_witness :
  exists s' calls,
    kc_load_mode_params long_64_bits 42 (Some (mode_file_text (KNOWN_MODES three_modes))) true
                        (initial (sim_card 640 480 10))
    = Some (loaded (true, s', calls))
    /\ Permutation (KNOWN_MODES s') (map as_loaded_mode (KNOWN_MODES three_modes))
    /\ StronglySorted (mode_key_le long_64_bits) (KNOWN_MODES s').
Proof.
  assert (Hrange : Forall mode_in_range (KNOWN_MODES three_modes)).
  { repeat constructor; unfold is_u32, is_int, u32_modulus; simpl; lia. }
  assert (Hfuel : (14 * List.length (KNOWN_MODES three_modes) <= 42)%nat) by (simpl; lia).
  destruct (saved_mode_params_load_back long_64_bits three_modes (initial (sim_card 640 480 10))
              (mode_file_text (KNOWN_MODES three_modes))
              [kd_signal_new_mode_settings_source_file] true 42 Hrange eq_refl Hfuel)
    as (s' & calls & Hrun & Hperm & Hsorted & _).
  exists s', calls. repeat split; assumption.
Defined.

(** A file that ends after the line of the horizontal position. *)
Definition cut_short : string :=
  ("resolution,640,480" ++ String newline
     ("vPos,1" ++ String newline ("hPos,50" ++ String newline EmptyString)))%string.

Lemma truncated_mode_file_is_read_past_its_end_witness :
  kc_load_mode_params long_64_bits 3 (Some cut_short) true (initial (sim_card 640 480 10))
  = Some out_of_range.
Proof.
  assert (Hrange : mode_in_range params_640x480_low)
    by (repeat constructor; unfold is_u32, is_int, u32_modulus; simpl; lia).
  apply (truncated_mode_file_is_read_past_its_end long_64_bits [] params_640x480_low 3 3 cut_short true
           (initial (sim_card 640 480 10)) (Forall_nil _) Hrange).
  - lia.
  - reflexivity.
  - vm_compute. lia.
Defined.

End ModeFileScenarios.

End ModeFileFacts.

(** * The capture unit: stopping and releasing the capture *)

Module Lifecycle.

(** The API calls of stopping and releasing; the five [RGBSet...Fn] calls
    are those of [stop_capture], which pass [NULL] to restore the default
    handlers. *)
Inductive lifecycle_call : Type :=
| RGBStopCapture
| RGBSetFrameCapturedFn_NULL
| RGBSetModeChangedFn_NULL
| RGBSetInvalidSignalFn_NULL
| RGBSetNoSignalFn_NULL
| RGBSetErrorFn_NULL
| RGBCloseInput
| RGBFree.

Section WithDevice.
Context {dev : RGBEasy}.

(** Whether a call returns [RGBERROR_NO_ERROR]. *)
Variable call_succeeds : lifecycle_call -> bool.

(** The statics of capture.cpp, with [CAPTURE_IS_ACTIVE],
    [RGBEASY_IS_LOADED] and the calls made, in order. *)
Record lifecycle_s : Type := mk_lifecycle
  { unit_statics : capture_s dev;
    CAPTURE_IS_ACTIVE : bool;
    RGBEASY_IS_LOADED : bool;
    lifecycle_log : list lifecycle_call }.

Definition called (c : lifecycle_call) (st : lifecycle_s) : lifecycle_s :=
  mk_lifecycle (unit_statics st) (CAPTURE_IS_ACTIVE st) (RGBEASY_IS_LOADED st)
               (lifecycle_log st ++ [c]).

Definition set_CAPTURE_IS_ACTIVE (b : bool) (st : lifecycle_s) : lifecycle_s :=
  mk_lifecycle (unit_statics st) b (RGBEASY_IS_LOADED st) (lifecycle_log st).

Definition set_RGBEASY_IS_LOADED (b : bool) (st : lifecycle_s) : lifecycle_s :=
  mk_lifecycle (unit_statics st) (CAPTURE_IS_ACTIVE st) b (lifecycle_log st).

(** [shutdown_capture]. *)
Definition shutdown_capture (st : lifecycle_s) : bool * lifecycle_s :=
  if negb (RGBEASY_IS_LOADED st) then (true, st)
  else
    let st := called RGBCloseInput st in
    if negb (call_succeeds RGBCloseInput) then (false, st)
    else
      let st := called RGBFree st in
      if negb (call_succeeds RGBFree) then (false, st)
      else (true, set_RGBEASY_IS_LOADED false st).

(** The five calls that restore the default handlers. *)
Definition restore_default_handlers (st : lifecycle_s) : lifecycle_s :=
  called RGBSetErrorFn_NULL
    (called RGBSetNoSignalFn_NULL
       (called RGBSetInvalidSignalFn_NULL
          (called RGBSetModeChangedFn_NULL
             (called RGBSetFrameCapturedFn_NULL st)))).

(** [stop_capture]. *)
Definition stop_capture (st : lifecycle_s) : bool * lifecycle_s :=
  if CAPTURE_IS_ACTIVE st then
    let st := called RGBStopCapture st in
    if negb (call_succeeds RGBStopCapture) then (false, st)
    else (true, restore_default_handlers (set_CAPTURE_IS_ACTIVE false st))
  else (true, restore_default_handlers (set_CAPTURE_IS_ACTIVE false st)).

(** Modelled from the spec: [heap_bytes_s::release_memory] (common/memory.h
    is not among the sources).  The spec has the shutdown sequence "release
    buffers": the buffer is null afterwards. *)
Definition release_memory (frame : captured_frame_s) : captured_frame_s :=
  mk_frame (frame_r frame) None.

(** [FRAME_BUFFER.pixels.release_memory()]. *)
Definition release_frame_buffer (st : lifecycle_s) : lifecycle_s :=
  mk_lifecycle
    (set_FRAME_BUFFER (release_memory (FRAME_BUFFER (unit_statics st))) (unit_statics st))
    (CAPTURE_IS_ACTIVE st) (RGBEASY_IS_LOADED st) (lifecycle_log st).

(** [kc_release_capturer]. *)
Definition kc_release_capturer (st : lifecycle_s) : lifecycle_s :=
  match pixels (FRAME_BUFFER (unit_statics st)) with
  | None => st
  | Some _ =>
      let (stopped, st) := stop_capture st in
      let st := if stopped then snd (shutdown_capture st) else st in
      release_frame_buffer st
  end.

End WithDevice.

Arguments lifecycle_s dev : clear implicits.

End Lifecycle.

(** * Properties of releasing the capture *)

Module LifecycleFacts.

Import Lifecycle.

Section WithDevice.
Context {dev : RGBEasy}.
Variable call_succeeds : lifecycle_call -> bool.

(** The calls that restore the default handlers. *)
Definition handler_resets : list lifecycle_call :=
  [ RGBSetFrameCapturedFn_NULL; RGBSetModeChangedFn_NULL; RGBSetInvalidSignalFn_NULL;
    RGBSetNoSignalFn_NULL; RGBSetErrorFn_NULL ].

(** X27.  Whatever the card answers, [kc_release_capturer] leaves the frame
    buffer released, and a frame callback that arrives afterwards writes
    nothing: it only counts.  That matters because the release can leave the
    callbacks installed: when the capture is active and the card refuses to
    stop it, [stop_capture] returns before restoring the default handlers,
    the capture stays marked active and the input is not closed, yet the
    buffer is released all the same.  The input is closed only after the
    handlers were restored.  A capturer whose buffer is already released is
    left untouched. *)
Theorem kc_release_capturer_frees_the_buffer (st : lifecycle_s dev) :
  let st' := kc_release_capturer call_succeeds st in
  pixels (FRAME_BUFFER (unit_statics st')) = None
  /\ (forall info data,
        FRAME_BUFFER (frame_captured info data (unit_statics st'))
        = FRAME_BUFFER (unit_statics st'))
  /\ (pixels (FRAME_BUFFER (unit_statics st)) = None -> st' = st)
  /\ (exists made, lifecycle_log st' = lifecycle_log st ++ made
        /\ (In RGBCloseInput made ->
            exists before after, made = before ++ handler_resets ++ after
                                 /\ In RGBCloseInput after)
        /\ (pixels (FRAME_BUFFER (unit_statics st)) <> None ->
            CAPTURE_IS_ACTIVE st = true ->
            call_succeeds RGBStopCapture = false ->
            made = [RGBStopCapture] /\ CAPTURE_IS_ACTIVE st' = true)).
Proof.
  cbv zeta.
  assert (Hcounts : forall (s : capture_s dev) info data,
             pixels (FRAME_BUFFER s) = None ->
             FRAME_BUFFER (frame_captured info data s) = FRAME_BUFFER s).
  { intros s info data Hnull. unfold frame_captured, frame_done.
    destruct (negb _); [reflexivity|].
    destruct (PROGRAM_EXIT_REQUESTED s); [reflexivity|].
    destruct data; [|reflexivity]. destruct info; [|reflexivity].
    now rewrite Hnull. }
  unfold kc_release_capturer.
  destruct (pixels (FRAME_BUFFER (unit_statics st))) as [buffer|] eqn:Hbuf.
  2:{ split; [exact Hbuf|]. split; [intros; now apply Hcounts|]. split; [reflexivity|].
      exists []. rewrite app_nil_r. split; [reflexivity|].
      split; [intros [] | intros Hnot; now destruct Hnot]. }
  unfold stop_capture, shutdown_capture, restore_default_handlers.
  destruct (CAPTURE_IS_ACTIVE st) eqn:Hactive;
    [destruct (call_succeeds RGBStopCapture) eqn:Hstop|];
    cbv beta iota zeta delta [negb fst snd];
    cbn [RGBEASY_IS_LOADED called set_CAPTURE_IS_ACTIVE];
    destruct (RGBEASY_IS_LOADED st) eqn:Hloaded;
    cbv beta iota zeta delta [negb fst snd];
    try destruct (call_succeeds RGBCloseInput) eqn:Hclose;
    cbv beta iota zeta delta [negb fst snd];
    try destruct (call_succeeds RGBFree) eqn:Hfree;
    cbv beta iota zeta delta [negb fst snd];
    (split; [reflexivity|]);
    (split; [intros; now apply Hcounts|]);
    (split; [discriminate|]);
    cbn [lifecycle_log release_frame_buffer called set_CAPTURE_IS_ACTIVE
         set_RGBEASY_IS_LOADED CAPTURE_IS_ACTIVE];
    rewrite <- ?app_assoc; cbn [app];
    (eexists; split; [reflexivity|]; split;
     [ intros Hin;
       first
         [ exists [RGBStopCapture]; eexists; split; [reflexivity | now left]
         | exists []; eexists; split; [reflexivity | now left]
         | exfalso; cbn in Hin; intuition discriminate ]
     | intros _ Hact Hstopped; try discriminate; try congruence;
       split; first [reflexivity | exact Hactive] ]).
Qed.

End WithDevice.

End LifecycleFacts.

(** * The scaler unit: aspect ratio and padding *)

Module Padding.

(** [ks_resolution_to_aspect]: the width and height of the result, whose
    [bpp] the function leaves unset.  [std::__gcd] on unsigned values is the
    greatest common divisor; it is stored in an [int], and the divisions
    are made in [unsigned long].  [None] is the division by zero of a
    0 x 0 resolution. *)
Definition ks_resolution_to_aspect (res : resolution_s) : option (Z * Z) :=
  let gcd := to_int (Z.gcd (w res) (h res)) in
  if wrap_u32 gcd =? 0 then None
  else Some (w res / wrap_u32 gcd, h res / wrap_u32 gcd).

(** [cv::Vec4i]. *)
Record Vec4i : Type := mk_Vec4i { top : Z; bottom : Z; left : Z; right : Z }.

(** [border_padding]: the differences and the halves are taken in
    [unsigned long], and stored as [int]. *)
Definition border_padding (paddedRes targetRes : resolution_s) : Vec4i :=
  mk_Vec4i (to_int (wrap_u32 (h targetRes - h paddedRes) / 2))
           (to_int (wrap_u32 (h targetRes - h paddedRes + 1) / 2))
           (to_int (wrap_u32 (w targetRes - w paddedRes) / 2))
           (to_int (wrap_u32 (w targetRes - w paddedRes + 1) / 2)).

End Padding.
Import Padding.

(** * The scaler unit: scaling a frame *)

Module FrameScaling.

(** Why [ks_scale_frame] turns a frame away, in the order of its checks. *)
Inductive refusal : Type :=
| skip_requested
| incompatible_bit_depth
| output_too_large
| null_frame
| unexpected_bit_depth
| bit_depth_too_high
| input_too_small
| input_too_large
| no_output_buffer.

(** The calls [ks_scale_frame] makes on the pixel data of a frame it takes.
    [kf_find_capture_alignment] stands for the call and the
    [kpropagate_capture_alignment_adjust] that follows it; [opencv_scale]
    carries the scaling function that chose its interpolator. *)
Inductive scale_call : Type :=
| cvtColor (conversionType : cv_conversion)
| kf_find_capture_alignment (frameRes : resolution_s)
| kat_anti_tear (frameRes : resolution_s)
| kf_apply_filter_chain (frameRes : resolution_s)
| memcpy_to_OUTPUT_BUFFER (bytes : Z)
| opencv_scale (scaler : scaler_func) (sourceRes targetRes : resolution_s).

(** The calls made into OpenCV for a frame: [cv::cvtColor] on the frame,
    [cv::resize] with the interpolator of a scaling function, and the
    [cv::copyMakeBorder] of [copy_with_border].  The [cv::Mat] headers that
    are built around the buffers for a call are taken to belong to it: an
    error in any of them ends the program like an error in the call. *)
Inductive cv_call : Type :=
| cv_cvtColor (conversionType : cv_conversion) (frameRes : resolution_s)
| cv_resize (scaler : scaler_func) (sourceRes targetRes : resolution_s)
| cv_copyMakeBorder (paddedRes targetRes : resolution_s) (borderSides : Vec4i).

(** What the other units and OpenCV answer during one call of
    [ks_scale_frame]: [krecord_video_resolution] is [Some] while
    [krecord_is_recording()] holds; [kat_anti_tear_is_null] says whether
    [kat_anti_tear] returned a null pointer; [capture_resolution_fails] says
    whether the card refuses to report its resolution, on which
    [capture_resolution()] fails its assertion; and [cv_reports_error] says
    of a call into OpenCV whether OpenCV reports an error, which
    [cv_error_handler] turns into a failed assertion. *)
Record surroundings : Type := mk_surroundings
  { krecord_video_resolution : option resolution_s;
    status_capture_resolution : resolution_s;
    minimum_capture_resolution : resolution_s;
    maximum_capture_resolution : resolution_s;
    kc_should_current_frame_be_skipped : bool;
    kc_output_color_depth : Z;
    kc_pixel_format : PIXELFORMAT;
    kat_anti_tear_is_null : bool;
    capture_resolution_fails : bool;
    cv_reports_error : cv_call -> bool }.

Section WithBuild.

Variable USE_OPENCV : bool.

(** Constants of common/globals.h, which is not among the sources. *)
Variables MAX_OUTPUT_WIDTH MAX_OUTPUT_HEIGHT MIN_OUTPUT_WIDTH MIN_OUTPUT_HEIGHT : Z.
Variable MAX_OUTPUT_BPP : Z.

Variable real : Type.
Variable round_scaled : Z -> real -> Z.

(** [a / (real)b], and [std::round(n * r)] stored into a [uint], which is
    [None] when the rounded value is not one a [uint] holds (C++ leaves the
    conversion undefined then): floating point stays abstract. *)
Variable ratio : Z -> Z -> real.
Variable round_to_uint : Z -> real -> option Z.

(** The statics of scaler.cpp, with the global [ALIGN_CAPTURE] and whether
    the two buffers the function uses are allocated. *)
Record scaling_s : Type := mk_scaling
  { statics : scaler_s real;
    LATEST_OUTPUT_SIZE : resolution_s;
    ALIGN_CAPTURE : bool;
    OUTPUT_BUFFER_is_null : bool;
    COLORCONV_BUFFER_is_null : bool }.

(** The block "Verify that we have a workable frame" of [ks_scale_frame]:
    the first check that sends the frame to [done:], if any. *)
Definition frame_verdict (frame : captured_frame_s) (outputRes : resolution_s)
    (env : surroundings) (st : scaling_s) : option refusal :=
  let fr := frame_r frame in
  let minres := minimum_capture_resolution env in
  let maxres := maximum_capture_resolution env in
  if kc_should_current_frame_be_skipped env then Some skip_requested
  else if negb (bpp fr =? 16) && negb (bpp fr =? 24) && negb (bpp fr =? 32)
  then Some incompatible_bit_depth
  else if (w outputRes >? MAX_OUTPUT_WIDTH) || (h outputRes >? MAX_OUTPUT_HEIGHT)
  then Some output_too_large
  else if match pixels frame with None => true | Some _ => false end
  then Some null_frame
  else if negb (bpp fr =? kc_output_color_depth env) then Some unexpected_bit_depth
  else if bpp fr >? MAX_OUTPUT_BPP then Some bit_depth_too_high
  else if (w fr <? w minres) || (h fr <? h minres) then Some input_too_small
  else if (w fr >? w maxres) || (h fr >? h maxres) then Some input_too_large
  else if OUTPUT_BUFFER_is_null st then Some no_output_buffer
  else None.

(** [padded_resolution]: the width and the height are held in [uint].
    [None] is the division by zero of [ks_resolution_to_aspect], or a
    rounded value that a [uint] does not hold.  (The [default:] of the
    switch, an assertion on an aspect mode other than the three, has no
    value of [aspect_mode_e] to stand for.) *)
Definition padded_resolution (sc : scaler_s real) (sourceRes targetRes : resolution_s)
  : option resolution_s :=
  let aspect :=
    match ASPECT_MODE sc with
    | native => ks_resolution_to_aspect sourceRes
    | always_4_3 => Some (4, 3)
    | traditional_4_3 =>
        if ((w sourceRes =? 720) && (h sourceRes =? 400))
           || ((w sourceRes =? 640) && (h sourceRes =? 400))
           || ((w sourceRes =? 320) && (h sourceRes =? 200))
        then Some (4, 3)
        else ks_resolution_to_aspect sourceRes
    end in
  match aspect with
  | None => None
  | Some (aspect_w, aspect_h) =>
      match round_to_uint (h targetRes) (ratio aspect_w aspect_h) with
      | None => None
      | Some width =>
          if width >? w targetRes
          then match round_to_uint (w targetRes) (ratio aspect_h aspect_w) with
               | Some height =>
                   Some (mk_resolution (wrap_u32 (w targetRes)) height OUTPUT_BIT_DEPTH)
               | None => None
               end
          else Some (mk_resolution width (wrap_u32 (h targetRes)) OUTPUT_BIT_DEPTH)
      end
  end.

(** The body of [opencv_scale]: the calls it makes into OpenCV, in order.
    [None] is the failure of [padded_resolution]. *)
Definition opencv_scale_calls (sc : scaler_s real) (interpolator : scaler_func)
    (sourceRes targetRes : resolution_s) : option (list cv_call) :=
  if FORCE_ASPECT sc then
    match padded_resolution sc sourceRes targetRes with
    | None => None
    | Some paddedRes =>
        if (h paddedRes =? h targetRes) && (w paddedRes =? w targetRes)
        then Some [cv_resize interpolator sourceRes targetRes]
        else Some [cv_resize interpolator sourceRes paddedRes;
                   cv_copyMakeBorder paddedRes targetRes
                                     (border_padding paddedRes targetRes)]
    end
  else Some [cv_resize interpolator sourceRes targetRes].

(** Whether OpenCV carries out every call of a list. *)
Definition cv_accepts (env : surroundings) (calls : list cv_call) : bool :=
  forallb (fun call => negb (cv_reports_error env call)) calls.

(** The scaling functions [s_scaler_nearest] ... [s_scaler_lanczos], called
    with pixel data that is not null: the assertion on the two depths, then
    [opencv_scale], or a failed assertion in a build without OpenCV.  The
    result records the call of [opencv_scale]; [None] is a failed
    assertion, of the function itself or of [cv_error_handler], or the
    failure of [padded_resolution]. *)
Definition run_scaler (env : surroundings) (sc : scaler_s real) (f : scaler_func)
    (sourceRes targetRes : resolution_s) : option (list scale_call) :=
  if (bpp sourceRes =? 32) && (bpp targetRes =? 32) then
    if USE_OPENCV then
      match opencv_scale_calls sc f sourceRes targetRes with
      | Some cv_calls =>
          if cv_accepts env cv_calls then Some [opencv_scale f sourceRes targetRes]
          else None
      | None => None
      end
    else None
  else None.

Definition set_LATEST_OUTPUT_SIZE (res : resolution_s) (st : scaling_s) : scaling_s :=
  mk_scaling (statics st) res (ALIGN_CAPTURE st) (OUTPUT_BUFFER_is_null st)
             (COLORCONV_BUFFER_is_null st).

Definition set_ALIGN_CAPTURE (b : bool) (st : scaling_s) : scaling_s :=
  mk_scaling (statics st) (LATEST_OUTPUT_SIZE st) b (OUTPUT_BUFFER_is_null st)
             (COLORCONV_BUFFER_is_null st).

(** The byte count handed to [OUTPUT_BUFFER.up_to] before a copy.  What
    [up_to] does with a count beyond the buffer is in common/memory.h,
    which is not among the sources; the model records the count. *)
Definition frame_bytes (frameRes : resolution_s) : Z :=
  wrap_u32 (w frameRes * h frameRes * (bpp frameRes / 8)).

(** Whether the call of [ks_output_resolution] that opens [ks_scale_frame]
    ends the program: while no video is being recorded it asks the card
    for its resolution, and [capture_resolution()] asserts that the card
    reports it. *)
Definition output_resolution_fails (env : surroundings) : bool :=
  match krecord_video_resolution env with
  | Some _ => false
  | None => capture_resolution_fails env
  end.

(** [ks_scale_frame]: the calls made on the pixel data, in order, and the
    statics afterwards.  [None] is a failed assertion (in
    [capture_resolution()], in [s_convert_frame_to_bgra], in a scaling
    function or in [cv_error_handler]), the failure of
    [padded_resolution], or a filter pointer that points outside
    [SCALING_FILTERS], which no assignment in the unit produces. *)
Definition ks_scale_frame (frame : captured_frame_s) (env : surroundings)
    (st : scaling_s) : option (list scale_call * scaling_s) :=
  let outputRes :=
    ks_output_resolution MAX_OUTPUT_WIDTH MAX_OUTPUT_HEIGHT MIN_OUTPUT_WIDTH
                         MIN_OUTPUT_HEIGHT real round_scaled
                         (krecord_video_resolution env)
                         (status_capture_resolution env) (statics st) in
  if output_resolution_fails env then None else
  match frame_verdict frame outputRes env st with
  | Some _ => Some ([], st)
  | None =>
      match (if negb (bpp (frame_r frame) =? OUTPUT_BIT_DEPTH)
             then match s_convert_frame_to_bgra USE_OPENCV (kc_pixel_format env)
                          (COLORCONV_BUFFER_is_null st) frame with
                  | Some conversionType =>
                      if cv_reports_error env (cv_cvtColor conversionType (frame_r frame))
                      then None
                      else
                        Some ([cvtColor conversionType],
                              mk_resolution (w (frame_r frame)) (h (frame_r frame)) 32)
                  | None => None
                  end
             else Some ([], frame_r frame)) with
      | None => None
      | Some (converted, frameRes) =>
          let aligned :=
            if ALIGN_CAPTURE st then [kf_find_capture_alignment frameRes] else [] in
          let st := if ALIGN_CAPTURE st then set_ALIGN_CAPTURE false st else st in
          let calls := converted ++ aligned ++ [kat_anti_tear frameRes] in
          if kat_anti_tear_is_null env then Some (calls, st)
          else
            let calls := calls ++ [kf_apply_filter_chain frameRes] in
            if (negb (FORCE_ASPECT (statics st))
                || match ASPECT_MODE (statics st) with native => true | _ => false end)
               && (w frameRes =? w outputRes) && (h frameRes =? h outputRes)
            then
              Some (calls ++ [memcpy_to_OUTPUT_BUFFER (frame_bytes frameRes)],
                    set_LATEST_OUTPUT_SIZE outputRes st)
            else
              let scaler :=
                if (w frameRes <? w outputRes) || (h frameRes <? h outputRes)
                then UPSCALE_FILTER (statics st)
                else DOWNSCALE_FILTER (statics st) in
              match scaler with
              | nullptr =>
                  Some (calls ++ [memcpy_to_OUTPUT_BUFFER (frame_bytes frameRes)],
                        set_LATEST_OUTPUT_SIZE frameRes st)
              | filter_at i =>
                  match nth_error (SCALING_FILTERS USE_OPENCV) i with
                  | Some f =>
                      match run_scaler env (statics st) (scale f) frameRes outputRes with
                      | Some scaled =>
                          Some (calls ++ scaled, set_LATEST_OUTPUT_SIZE outputRes st)
                      | None => None
                      end
                  | None => None
                  end
              end
      end
  end.

(** The settings of the scaler the other units can change, each standing
    for the call of the setter of that name. *)
Inductive setting : Type :=
| ks_set_aspect_mode (mode : aspect_mode_e)
| ks_set_output_resolution_override_enabled (state : bool)
| ks_set_forced_aspect_enabled (state : bool)
| ks_set_output_base_resolution (res : resolution_s) (originatesFromUser : bool)
| ks_set_output_scaling (s : real)
| ks_set_output_scale_override_enabled (state : bool)
| ks_set_upscaling_filter_to (wanted : string)
| ks_set_downscaling_filter_to (wanted : string).

(** One setter on the statics, with whether it went on to call
    [kd_update_output_window_size].  [None] is the failed assertion of
    [ks_scaler_for_name_string]. *)
Definition apply_setting (change : setting) (sc : scaler_s real)
  : option (scaler_s real * bool) :=
  match change with
  | ks_set_aspect_mode mode =>
      Some (mk_scaler (UPSCALE_FILTER sc) (DOWNSCALE_FILTER sc) mode (FORCE_ASPECT sc)
                      (BASE_RESOLUTION sc) (FORCE_BASE_RESOLUTION sc)
                      (OUTPUT_SCALING sc) (FORCE_SCALING sc), false)
  | ks_set_output_resolution_override_enabled state =>
      Some (mk_scaler (UPSCALE_FILTER sc) (DOWNSCALE_FILTER sc) (ASPECT_MODE sc)
                      (FORCE_ASPECT sc) (BASE_RESOLUTION sc) state
                      (OUTPUT_SCALING sc) (FORCE_SCALING sc), true)
  | ks_set_forced_aspect_enabled state =>
      Some (mk_scaler (UPSCALE_FILTER sc) (DOWNSCALE_FILTER sc) (ASPECT_MODE sc)
                      state (BASE_RESOLUTION sc) (FORCE_BASE_RESOLUTION sc)
                      (OUTPUT_SCALING sc) (FORCE_SCALING sc), true)
  | ks_set_output_base_resolution res originatesFromUser =>
      if FORCE_BASE_RESOLUTION sc && negb originatesFromUser then Some (sc, false)
      else
        Some (mk_scaler (UPSCALE_FILTER sc) (DOWNSCALE_FILTER sc) (ASPECT_MODE sc)
                        (FORCE_ASPECT sc) res (FORCE_BASE_RESOLUTION sc)
                        (OUTPUT_SCALING sc) (FORCE_SCALING sc), true)
  | ks_set_output_scaling s =>
      Some (mk_scaler (UPSCALE_FILTER sc) (DOWNSCALE_FILTER sc) (ASPECT_MODE sc)
                      (FORCE_ASPECT sc) (BASE_RESOLUTION sc) (FORCE_BASE_RESOLUTION sc)
                      s (FORCE_SCALING sc), true)
  | ks_set_output_scale_override_enabled state =>
      Some (mk_scaler (UPSCALE_FILTER sc) (DOWNSCALE_FILTER sc) (ASPECT_MODE sc)
                      (FORCE_ASPECT sc) (BASE_RESOLUTION sc) (FORCE_BASE_RESOLUTION sc)
                      (OUTPUT_SCALING sc) state, true)
  | ks_set_upscaling_filter_to wanted =>
      match ks_set_upscaling_filter USE_OPENCV real wanted sc with
      | Some sc' => Some (sc', false)
      | None => None
      end
  | ks_set_downscaling_filter_to wanted =>
      match ks_set_downscaling_filter USE_OPENCV real wanted sc with
      | Some sc' => Some (sc', false)
      | None => None
      end
  end.

Fixpoint apply_settings (changes : list setting) (sc : scaler_s real)
  : option (scaler_s real) :=
  match changes with
  | [] => Some sc
  | change :: rest =>
      match apply_setting change sc with
      | Some (sc', _) => apply_settings rest sc'
      | None => None
      end
  end.

(** Modelled from the spec: [heap_bytes_s::alloc] (common/memory.h is not
    among the sources).  The spec has the buffers "pre-allocated": after the
    call the buffer is not null. *)
Definition alloc_is_null : bool := false.

(** [ks_initialize_scaler]: the three buffers are allocated and both
    filters are set to the first of the list.  [None] is a failed assertion,
    or [SCALING_FILTERS.at(0)] on an empty list. *)
Definition ks_initialize_scaler (st : scaling_s) : option scaling_s :=
  match SCALING_FILTERS USE_OPENCV with
  | [] => None
  | first :: _ =>
      match ks_set_upscaling_filter USE_OPENCV real (name first) (statics st) with
      | None => None
      | Some sc =>
          match ks_set_downscaling_filter USE_OPENCV real (name first) sc with
          | None => None
          | Some sc' =>
              Some (mk_scaling sc' (LATEST_OUTPUT_SIZE st) (ALIGN_CAPTURE st)
                               alloc_is_null alloc_is_null)
          end
      end
  end.

(** [ks_upscaling_filter_name] and [ks_downscaling_filter_name]: the name,
    or how the call ends the program: at its assertion, or reading the name
    through a pointer that is null or points outside [SCALING_FILTERS].  The
    function for the downscaling filter asserts on [UPSCALE_FILTER] and then
    reads through [DOWNSCALE_FILTER]. *)
Inductive name_outcome : Type :=
| returned (filter_name : string)
| assertion_failed
| invalid_read.

Definition ks_upscaling_filter_name (sc : scaler_s real) : name_outcome :=
  match UPSCALE_FILTER sc with
  | nullptr => assertion_failed
  | filter_at i =>
      match nth_error (SCALING_FILTERS USE_OPENCV) i with
      | Some f => returned (name f)
      | None => invalid_read
      end
  end.

Definition ks_downscaling_filter_name (sc : scaler_s real) : name_outcome :=
  match UPSCALE_FILTER sc with
  | nullptr => assertion_failed
  | filter_at _ =>
      match DOWNSCALE_FILTER sc with
      | nullptr => invalid_read
      | filter_at i =>
          match nth_error (SCALING_FILTERS USE_OPENCV) i with
          | Some f => returned (name f)
          | None => invalid_read
          end
      end
  end.

(** [ks_list_of_scaling_filter_names]. *)
Definition ks_list_of_scaling_filter_names : list string :=
  map name (SCALING_FILTERS USE_OPENCV).

End WithBuild.

Arguments mk_scaling {real}.
Arguments statics {real}.
Arguments LATEST_OUTPUT_SIZE {real}.
Arguments ALIGN_CAPTURE {real}.
Arguments OUTPUT_BUFFER_is_null {real}.
Arguments COLORCONV_BUFFER_is_null {real}.
Arguments ks_set_aspect_mode {real}.
Arguments ks_set_output_resolution_override_enabled {real}.
Arguments ks_set_forced_aspect_enabled {real}.
Arguments ks_set_output_base_resolution {real}.
Arguments ks_set_output_scaling {real}.
Arguments ks_set_output_scale_override_enabled {real}.
Arguments ks_set_upscaling_filter_to {real}.
Arguments ks_set_downscaling_filter_to {real}.

End FrameScaling.
Import FrameScaling.

(** * Properties of scaling a frame *)

Module FrameScalingFacts.

Section WithBuild.

Variable USE_OPENCV : bool.
Variables MAX_OUTPUT_WIDTH MAX_OUTPUT_HEIGHT MIN_OUTPUT_WIDTH MIN_OUTPUT_HEIGHT : Z.
Variable MAX_OUTPUT_BPP : Z.
Variable real : Type.
Variable round_scaled : Z -> real -> Z.
Variable ratio : Z -> Z -> real.
Variable round_to_uint : Z -> real -> option Z.

(** The output resolution [ks_scale_frame] works towards. *)
Definition target_resolution (env : surroundings) (st : scaling_s real) : resolution_s :=
  ks_output_resolution MAX_OUTPUT_WIDTH MAX_OUTPUT_HEIGHT MIN_OUTPUT_WIDTH
                       MIN_OUTPUT_HEIGHT real round_scaled
                       (krecord_video_resolution env)
                       (status_capture_resolution env) (statics st).

Local Abbreviation verdict frame env st :=
  (frame_verdict MAX_OUTPUT_WIDTH MAX_OUTPUT_HEIGHT MAX_OUTPUT_BPP real
                 frame (target_resolution env st) env st).

Local Abbreviation scale_frame :=
  (ks_scale_frame USE_OPENCV MAX_OUTPUT_WIDTH MAX_OUTPUT_HEIGHT MIN_OUTPUT_WIDTH
                  MIN_OUTPUT_HEIGHT MAX_OUTPUT_BPP real round_scaled ratio round_to_uint).

(** What a frame that passes the checks is known to satisfy. *)
Lemma frame_verdict_workable (frame : captured_frame_s) (env : surroundings)
    (st : scaling_s real) :
  verdict frame env st = None ->
  kc_should_current_frame_be_skipped env = false
  /\ (bpp (frame_r frame) = 16 \/ bpp (frame_r frame) = 24 \/ bpp (frame_r frame) = 32)
  /\ w (target_resolution env st) <= MAX_OUTPUT_WIDTH
  /\ h (target_resolution env st) <= MAX_OUTPUT_HEIGHT
  /\ pixels frame <> None
  /\ bpp (frame_r frame) = kc_output_color_depth env
  /\ bpp (frame_r frame) <= MAX_OUTPUT_BPP
  /\ w (minimum_capture_resolution env) <= w (frame_r frame)
     <= w (maximum_capture_resolution env)
  /\ h (minimum_capture_resolution env) <= h (frame_r frame)
     <= h (maximum_capture_resolution env)
  /\ OUTPUT_BUFFER_is_null st = false.
Proof.
  unfold frame_verdict. cbv zeta.
  destruct (kc_should_current_frame_be_skipped env); [discriminate|].
  destruct (Z.eqb_spec (bpp (frame_r frame)) 16) as [H16 | H16];
    destruct (Z.eqb_spec (bpp (frame_r frame)) 24) as [H24 | H24];
    destruct (Z.eqb_spec (bpp (frame_r frame)) 32) as [H32 | H32];
    cbv beta iota delta [negb andb]; try discriminate;
    (assert (Hdepth : bpp (frame_r frame) = 16 \/ bpp (frame_r frame) = 24
                      \/ bpp (frame_r frame) = 32) by tauto);
    clear H16 H24 H32.
  all: pose proof (Zgt_cases (w (target_resolution env st)) MAX_OUTPUT_WIDTH) as Hw;
    destruct (w (target_resolution env st) >? MAX_OUTPUT_WIDTH); [discriminate|];
    pose proof (Zgt_cases (h (target_resolution env st)) MAX_OUTPUT_HEIGHT) as Hh;
    destruct (h (target_resolution env st) >? MAX_OUTPUT_HEIGHT); [discriminate|];
    cbv beta iota delta [orb];
    destruct (pixels frame) as [data|]; [|discriminate];
    destruct (Z.eqb_spec (bpp (frame_r frame)) (kc_output_color_depth env)) as [He | He];
    cbv beta iota delta [negb]; [|discriminate];
    pose proof (Zgt_cases (bpp (frame_r frame)) MAX_OUTPUT_BPP) as Hb;
    destruct (bpp (frame_r frame) >? MAX_OUTPUT_BPP); [discriminate|];
    destruct (Z.ltb_spec (w (frame_r frame)) (w (minimum_capture_resolution env)));
    [discriminate|];
    destruct (Z.ltb_spec (h (frame_r frame)) (h (minimum_capture_resolution env)));
    [discriminate|];
    cbv beta iota delta [orb];
    pose proof (Zgt_cases (w (frame_r frame)) (w (maximum_capture_resolution env))) as Hmw;
    destruct (w (frame_r frame) >? w (maximum_capture_resolution env)); [discriminate|];
    pose proof (Zgt_cases (h (frame_r frame)) (h (maximum_capture_resolution env))) as Hmh;
    destruct (h (frame_r frame) >? h (maximum_capture_resolution env)); [discriminate|];
    cbv beta iota delta [orb];
    destruct (OUTPUT_BUFFER_is_null st); [discriminate|];
    intros _; repeat split; try assumption; try lia; discriminate.
Qed.


(** [scale_split] takes the next conditional of [ks_scale_frame] apart. *)
Ltac scale_split :=
  match goal with
  | |- context [if ?b then _ else _] => destruct b eqn:?
  | |- context [match ?p with nullptr => _ | filter_at _ => _ end] => destruct p eqn:?
  | |- context [match nth_error ?l ?i with Some _ => _ | None => _ end] =>
      destruct (nth_error l i) eqn:?
  | |- context [match ASPECT_MODE ?s with native => _ | _ => _ end] =>
      destruct (ASPECT_MODE s) eqn:?
  | |- context [match opencv_scale_calls ?real ?ratio ?round ?sc ?f ?src ?dst with
                | Some _ => _
                | None => _
                end] =>
      destruct (opencv_scale_calls real ratio round sc f src dst) eqn:?
  end.

(** [in_calls] takes membership in a list of calls apart. *)
Ltac in_calls H :=
  repeat (apply in_app_or in H; destruct H as [H | H]);
  simpl in H; repeat (destruct H as [H | H]; [try discriminate|]); try contradiction.

(** A conversion found among the calls of a run: the frame has 16 or 24
    bits, the depth the card puts out, in a build with OpenCV, and the
    conversion is the one [conversion_type] chooses. *)
Lemma conversion_in_run (frame : captured_frame_s)
    (env : surroundings) (st st' : scaling_s real) (calls : list scale_call)
    (c : cv_conversion) :
  scale_frame frame env st = Some (calls, st') ->
  In (cvtColor c) calls ->
  (bpp (frame_r frame) = 16 \/ bpp (frame_r frame) = 24)
  /\ kc_output_color_depth env = bpp (frame_r frame)
  /\ USE_OPENCV = true
  /\ c = conversion_type (kc_pixel_format env) frame.
Proof.
  unfold ks_scale_frame. cbv zeta. fold (target_resolution env st).
  destruct (output_resolution_fails env); [discriminate|].
  destruct (verdict frame env st) eqn:Hv; [intros [= <- <-] []|].
  destruct (frame_verdict_workable frame env st Hv)
    as (_ & Hdepth & _ & _ & _ & Hcard & _).
  unfold OUTPUT_BIT_DEPTH, s_convert_frame_to_bgra, run_scaler.
  destruct (Z.eqb_spec (bpp (frame_r frame)) 32) as [H32 | H32];
    cbv beta iota delta [negb].
  - intros Hrun Hin. exfalso. revert Hrun.
    repeat scale_split; try discriminate; intros [= <- <-]; in_calls Hin.
  - assert (Hlow : bpp (frame_r frame) = 16 \/ bpp (frame_r frame) = 24) by tauto.
    destruct USE_OPENCV; [|discriminate].
    destruct (COLORCONV_BUFFER_is_null st); [discriminate|].
    intros Hrun Hin.
    assert (Hc : c = conversion_type (kc_pixel_format env) frame).
    { revert Hrun.
      repeat scale_split; try discriminate; intros [= <- <-]; in_calls Hin;
        congruence. }
    split; [exact Hlow|]. split; [now symmetry|]. split; [reflexivity | exact Hc].
Qed.

(** X17.  A conversion to BGRA is asked for only on a frame of 16 or 24 bits,
    taken from a card whose output depth is that of the frame, and it is the
    one [s_convert_frame_to_bgra] chooses for that frame; in particular a
    frame of 32 bits goes to the scaler as it is, so that the choice made
    for 32 bits in [s_convert_frame_to_bgra] is never exercised from here.
    For a pixel format that is neither RGB565 nor RGB555 the conversion is
    BGR to BGRA at 24 bits and RGB565 to BGRA at 16. *)
Theorem conversion_only_from_16_or_24_bits (frame : captured_frame_s)
    (env : surroundings) (st st' : scaling_s real) (calls : list scale_call)
    (c : cv_conversion) :
  scale_frame frame env st = Some (calls, st') ->
  In (cvtColor c) calls ->
  (bpp (frame_r frame) = 16 \/ bpp (frame_r frame) = 24)
  /\ kc_output_color_depth env = bpp (frame_r frame)
  /\ USE_OPENCV = true
  /\ c = conversion_type (kc_pixel_format env) frame
  /\ (kc_pixel_format env <> RGB_PIXELFORMAT_565 ->
      kc_pixel_format env <> RGB_PIXELFORMAT_555 ->
      (bpp (frame_r frame) = 24 -> c = CV_BGR2BGRA)
      /\ (bpp (frame_r frame) = 16 -> c = CV_BGR5652BGRA)).
Proof.
  intros Hrun Hin.
  destruct (conversion_in_run frame env st st' calls c Hrun Hin)
    as (Hlow & Hcard & Hcv & Hc).
  repeat (split; [assumption|]).
  intros H565 H555. subst c. unfold conversion_type.
  destruct (kc_pixel_format env); try congruence;
    split; intros ->; reflexivity.
Qed.



Lemma target_resolution_bpp (env : surroundings) (st : scaling_s real) :
  bpp (target_resolution env st) = 32.
Proof.
  unfold target_resolution, ks_output_resolution.
  destruct (krecord_video_resolution env); reflexivity.
Qed.

(** The frame as the units after the conversion see it: its size, at 32
    bits. *)
Definition as_bgra (frame : captured_frame_s) : resolution_s :=
  mk_resolution (w (frame_r frame)) (h (frame_r frame)) 32.

(** What keeps [ks_scale_frame] from returning from outside the scaler:
    the card that does not report its resolution, an error OpenCV reports,
    and a padded resolution that cannot be computed when the aspect ratio
    is forced. *)
Definition card_reports (env : surroundings) : Prop :=
  output_resolution_fails env = false.

Definition opencv_reports_no_error (env : surroundings) : Prop :=
  forall call, cv_reports_error env call = false.

Definition padding_is_defined (frame : captured_frame_s) (env : surroundings)
    (st : scaling_s real) : Prop :=
  FORCE_ASPECT (statics st) = true ->
  padded_resolution real ratio round_to_uint (statics st) (as_bgra frame)
                    (target_resolution env st) <> None.

(** A scaling function given 32-bit resolutions returns when OpenCV
    reports no error and the padding can be computed. *)
Lemma run_scaler_returns (env : surroundings) (sc : scaler_s real) (f : scaler_func)
    (src dst : resolution_s) :
  USE_OPENCV = true -> bpp src = 32 -> bpp dst = 32 ->
  opencv_reports_no_error env ->
  (FORCE_ASPECT sc = true ->
   padded_resolution real ratio round_to_uint sc src dst <> None) ->
  run_scaler USE_OPENCV real ratio round_to_uint env sc f src dst
  = Some [opencv_scale f src dst].
Proof.
  intros Hcv Hsrc Hdst Herr Hpad. unfold run_scaler, opencv_scale_calls, cv_accepts.
  rewrite Hcv, Hsrc, Hdst. cbn [Z.eqb Pos.eqb andb].
  destruct (FORCE_ASPECT sc).
  - destruct (padded_resolution real ratio round_to_uint sc src dst) as [paddedRes|];
      [|now contradiction Hpad].
    destruct ((h paddedRes =? h dst) && (w paddedRes =? w dst));
      cbn [forallb]; now rewrite ?Herr.
  - cbn [forallb]. now rewrite Herr.
Qed.

(** In a build with OpenCV, with the colour-conversion buffer allocated
    and filter pointers that are null or point into [SCALING_FILTERS], no
    assertion of the scaler fails: [ks_scale_frame] returns whenever the
    card reports, OpenCV reports no error and the padding is defined. *)
Lemma ks_scale_frame_returns (frame : captured_frame_s)
    (env : surroundings) (st : scaling_s real) :
  USE_OPENCV = true ->
  COLORCONV_BUFFER_is_null st = false ->
  (forall i, UPSCALE_FILTER (statics st) = filter_at i ->
             (i < List.length (SCALING_FILTERS USE_OPENCV))%nat) ->
  (forall i, DOWNSCALE_FILTER (statics st) = filter_at i ->
             (i < List.length (SCALING_FILTERS USE_OPENCV))%nat) ->
  card_reports env ->
  opencv_reports_no_error env ->
  padding_is_defined frame env st ->
  exists calls st',
    scale_frame frame env st = Some (calls, st')
    /\ (forall res,
          In (kf_find_capture_alignment res) calls \/ In (kat_anti_tear res) calls
          \/ In (kf_apply_filter_chain res) calls ->
          res = as_bgra frame)
    /\ (forall f src dst,
          In (opencv_scale f src dst) calls ->
          src = as_bgra frame
          /\ dst = target_resolution env st
          /\ bpp dst = 32
          /\ LATEST_OUTPUT_SIZE st' = dst).
Proof.
  intros Hcv Hbuf Hup Hdown Hcard Herr Hpad.
  unfold ks_scale_frame. cbv zeta. fold (target_resolution env st).
  rewrite Hcard.
  destruct (verdict frame env st) eqn:Hv.
  { exists [], st. split; [reflexivity|]. split; [intros res [[] | [[] | []]]|].
    intros f src dst []. }
  unfold OUTPUT_BIT_DEPTH, s_convert_frame_to_bgra.
  rewrite Hcv, Hbuf, Herr.
  assert (Hsame : bpp (frame_r frame) = 32 -> frame_r frame = as_bgra frame).
  { unfold as_bgra. destruct (frame_r frame) as [fw fh fd]. simpl. now intros ->. }
  fold (as_bgra frame).
  assert (Hconv : (if negb (bpp (frame_r frame) =? 32)
                   then Some ([cvtColor (conversion_type (kc_pixel_format env) frame)],
                              as_bgra frame)
                   else Some ([], frame_r frame))
                  = Some (if negb (bpp (frame_r frame) =? 32)
                          then [cvtColor (conversion_type (kc_pixel_format env) frame)]
                          else [],
                          as_bgra frame)).
  { destruct (Z.eqb_spec (bpp (frame_r frame)) 32) as [H32 | H32]; simpl;
      [now rewrite (Hsame H32) | reflexivity]. }
  rewrite Hconv. clear Hconv.
  set (converted := if negb (bpp (frame_r frame) =? 32)
                    then [cvtColor (conversion_type (kc_pixel_format env) frame)]
                    else []).
  assert (Hconverted : forall call, In call converted -> exists c, call = cvtColor c).
  { unfold converted. destruct (negb _); intros call Hin;
      [destruct Hin as [<- | []]; eexists; reflexivity | destruct Hin]. }
  clearbody converted.
  assert (Hscale : forall f,
            run_scaler true real ratio round_to_uint env (statics st) f (as_bgra frame)
                       (target_resolution env st)
            = Some [opencv_scale f (as_bgra frame) (target_resolution env st)]).
  { intros f.
    pose proof (run_scaler_returns env (statics st) f (as_bgra frame)
                  (target_resolution env st) Hcv eq_refl
                  (target_resolution_bpp env st) Herr Hpad) as Hf.
    rewrite Hcv in Hf. exact Hf. }
  destruct (ALIGN_CAPTURE st);
    cbn [statics set_ALIGN_CAPTURE];
    repeat scale_split;
    rewrite ?Hscale;
    try (eexists; eexists; split; [reflexivity|];
         split;
         [ intros res Hin; destruct Hin as [Hin | [Hin | Hin]]; in_calls Hin;
           try (apply Hconverted in Hin; destruct Hin as (x & Hx); discriminate);
           congruence
         | intros f' src dst Hin; in_calls Hin;
           try (apply Hconverted in Hin; destruct Hin as (x & Hx); discriminate);
           injection Hin as <- <- <-; repeat split; apply target_resolution_bpp ]).
  all: exfalso;
    match goal with
    | H : nth_error _ _ = None |- _ => apply nth_error_None in H
    end;
    first [ pose proof (Hup _ eq_refl) as Hlt | pose proof (Hdown _ eq_refl) as Hlt ];
    rewrite Hcv in Hlt; lia.
Qed.


(** A call that needs OpenCV. *)
Definition needs_opencv (call : scale_call) : bool :=
  match call with
  | cvtColor _ | opencv_scale _ _ _ => true
  | _ => false
  end.

(** X19.  In a build without OpenCV, [ks_scale_frame] can only copy: a workable
    frame of 16 or 24 bits ends the program at the assertion of
    [s_convert_frame_to_bgra], and so does a frame of 32 bits that reaches a
    scaling function, that is, one that anti-tearing hands on, that is not
    already of the output size (or is, with a forced aspect mode other than
    native), and for whose direction a filter is set.  Whenever the function
    returns, no conversion and no scaling was made. *)
Theorem without_opencv_frames_are_only_copied (frame : captured_frame_s)
    (env : surroundings) (st : scaling_s real) :
  USE_OPENCV = false ->
  (verdict frame env st = None -> bpp (frame_r frame) <> 32 ->
   scale_frame frame env st = None)
  /\ (verdict frame env st = None -> bpp (frame_r frame) = 32 ->
      kat_anti_tear_is_null env = false ->
      (negb (FORCE_ASPECT (statics st))
       || match ASPECT_MODE (statics st) with native => true | _ => false end)
      && (w (frame_r frame) =? w (target_resolution env st))
      && (h (frame_r frame) =? h (target_resolution env st)) = false ->
      (if (w (frame_r frame) <? w (target_resolution env st))
          || (h (frame_r frame) <? h (target_resolution env st))
       then UPSCALE_FILTER (statics st)
       else DOWNSCALE_FILTER (statics st)) <> nullptr ->
      scale_frame frame env st = None)
  /\ (forall calls st',
        scale_frame frame env st = Some (calls, st') ->
        forall call, In call calls -> needs_opencv call = false).
Proof.
  intros Hcv. unfold ks_scale_frame. cbv zeta. fold (target_resolution env st).
  unfold OUTPUT_BIT_DEPTH, s_convert_frame_to_bgra, run_scaler. rewrite Hcv.
  split; [|split].
  - intros -> H32. destruct (output_resolution_fails env); [reflexivity|].
    apply Z.eqb_neq in H32. now rewrite H32.
  - intros -> H32 Htear Hcopy Hset.
    destruct (output_resolution_fails env); [reflexivity|].
    rewrite H32. simpl negb. cbv iota.
    rewrite Htear.
    assert (Hstatics : statics (if ALIGN_CAPTURE st then set_ALIGN_CAPTURE real false st
                                else st) = statics st)
      by (destruct (ALIGN_CAPTURE st); reflexivity).
    rewrite Hstatics, Hcopy.
    destruct (if (w (frame_r frame) <? w (target_resolution env st))
                 || (h (frame_r frame) <? h (target_resolution env st))
              then UPSCALE_FILTER (statics st)
              else DOWNSCALE_FILTER (statics st)) as [|i]; [contradiction|].
    destruct (nth_error (SCALING_FILTERS false) i); [|reflexivity].
    destruct ((bpp (frame_r frame) =? 32) && (bpp (target_resolution env st) =? 32));
      reflexivity.
  - intros calls st'.
    destruct (output_resolution_fails env); [discriminate|].
    destruct (verdict frame env st); [intros [= <- <-] call []|].
    destruct (negb (bpp (frame_r frame) =? 32)); [discriminate|].
    repeat scale_split; try discriminate; intros [= <- <-] call Hin; in_calls Hin;
      subst call; reflexivity.
Qed.

(** X20.  While no video is being recorded, the check of [ks_scale_frame] on the
    size of the output can never turn a frame away, in any build whose
    maximum output height does not exceed its maximum output width (and
    whose minima do not exceed the maxima): [ks_output_resolution] has
    bounded the size already.  The check can only fire while recording,
    when the output resolution is the recorder's. *)
Theorem output_too_large_only_while_recording (frame : captured_frame_s)
    (env : surroundings) (st : scaling_s real) :
  MIN_OUTPUT_WIDTH <= MAX_OUTPUT_WIDTH ->
  MIN_OUTPUT_HEIGHT <= MAX_OUTPUT_HEIGHT ->
  MAX_OUTPUT_HEIGHT <= MAX_OUTPUT_WIDTH ->
  verdict frame env st = Some output_too_large ->
  exists rec,
    krecord_video_resolution env = Some rec
    /\ (MAX_OUTPUT_WIDTH < w rec \/ MAX_OUTPUT_HEIGHT < h rec).
Proof.
  intros Hw Hh Hsquare. unfold frame_verdict. cbv zeta.
  destruct (kc_should_current_frame_be_skipped env); [discriminate|].
  destruct (_ && _); [discriminate|].
  destruct (orb _ _) eqn:Hlarge at 1.
  - intros _. apply orb_true_iff in Hlarge.
    rewrite !Z.gtb_lt in Hlarge.
    unfold target_resolution, ks_output_resolution in Hlarge.
    destruct (krecord_video_resolution env) as [rec|].
    + exists rec. split; [reflexivity | exact Hlarge].
    + exfalso. simpl in Hlarge. unfold bound_width, bound_height in Hlarge.
      repeat match goal with
             | H : context [?a >? ?b] |- _ =>
                 pose proof (Zgt_cases a b); destruct (a >? b)
             | H : context [?a <? ?b] |- _ =>
                 destruct (Z.ltb_spec a b)
             end; lia.
  - destruct (pixels frame); [|discriminate].
    repeat (match goal with
            | |- context [if ?b then _ else _] => destruct b
            end; try discriminate).
Qed.

End WithBuild.


(** ** Initialising the scaler and choosing its filters *)

Section Settings.

Variable USE_OPENCV : bool.
Variables MAX_OUTPUT_WIDTH MAX_OUTPUT_HEIGHT MIN_OUTPUT_WIDTH MIN_OUTPUT_HEIGHT : Z.
Variable MAX_OUTPUT_BPP : Z.
Variable real : Type.
Variable round_scaled : Z -> real -> Z.
Variable ratio : Z -> Z -> real.
Variable round_to_uint : Z -> real -> option Z.

(** A filter pointer that is null or points into [SCALING_FILTERS]. *)
Definition points_to_a_filter (p : filter_ptr) : Prop :=
  forall i, p = filter_at i -> (i < List.length (SCALING_FILTERS USE_OPENCV))%nat.

(** The filter a lookup by name arrives at. *)
Lemma ks_scaler_for_name_string_points (wanted : string) :
  exists i f,
    ks_scaler_for_name_string USE_OPENCV wanted = Some (filter_at i)
    /\ nth_error (SCALING_FILTERS USE_OPENCV) i = Some f
    /\ (In wanted (ks_list_of_scaling_filter_names USE_OPENCV) -> name f = wanted)
    /\ (~ In wanted (ks_list_of_scaling_filter_names USE_OPENCV) -> name f = "Nearest"%string).
Proof.
  rewrite ScalerFacts.ks_scaler_for_name_string_eq.
  unfold ks_list_of_scaling_filter_names.
  destruct (ScalerFacts.SCALING_FILTERS_first USE_OPENCV) as (rest & Hlist).
  destruct (ScalerFacts.scaler_index_from_first (SCALING_FILTERS USE_OPENCV) wanted 0)
    as [(Hnone & Hidx) | (pre & f & post & Hl & Hpre & Hf & Hidx)]; rewrite Hidx.
  - exists 0%nat, (mk_filter "Nearest" s_scaler_nearest).
    split; [reflexivity|]. split; [now rewrite Hlist|].
    split; [|reflexivity].
    intros Hin. apply in_map_iff in Hin. destruct Hin as (g & Hg & Hin).
    unfold ScalerFacts.no_filter_named in Hnone. rewrite Forall_forall in Hnone.
    now destruct (Hnone g Hin).
  - exists (0 + List.length pre)%nat, f.
    split; [reflexivity|].
    split; [rewrite Hl; simpl; now rewrite nth_error_app2, Nat.sub_diag by apply Nat.le_refl|].
    split; [intros _; exact Hf|].
    intros Hno. exfalso. apply Hno. apply in_map_iff. exists f.
    split; [exact Hf|]. rewrite Hl. apply in_or_app. right. now left.
Qed.

(** No setter makes a filter pointer leave [SCALING_FILTERS], and none
    fails. *)
Lemma apply_setting_keeps_filters (change : setting real) (sc : scaler_s real) :
  points_to_a_filter (UPSCALE_FILTER sc) ->
  points_to_a_filter (DOWNSCALE_FILTER sc) ->
  exists sc' told,
    apply_setting USE_OPENCV real change sc = Some (sc', told)
    /\ points_to_a_filter (UPSCALE_FILTER sc')
    /\ points_to_a_filter (DOWNSCALE_FILTER sc').
Proof.
  intros Hup Hdown.
  destruct change as [mode | state | state | res user | s | state | wanted | wanted];
    simpl.
  1-3, 5-6: eexists; eexists; split; [reflexivity|]; split; assumption.
  - destruct (FORCE_BASE_RESOLUTION sc && negb user);
      eexists; eexists; (split; [reflexivity|]); split; assumption.
  - destruct (ks_scaler_for_name_string_points wanted) as (i & f & Hfound & Hnth & _).
    unfold ks_set_upscaling_filter. rewrite Hfound.
    eexists; eexists; split; [reflexivity|]. split; [|exact Hdown].
    intros j [= <-]. apply nth_error_Some. now rewrite Hnth.
  - destruct (ks_scaler_for_name_string_points wanted) as (i & f & Hfound & Hnth & _).
    unfold ks_set_downscaling_filter. rewrite Hfound.
    eexists; eexists; split; [reflexivity|]. split; [exact Hup|].
    intros j [= <-]. apply nth_error_Some. now rewrite Hnth.
Qed.

Lemma apply_settings_keeps_filters (changes : list (setting real)) (sc : scaler_s real) :
  points_to_a_filter (UPSCALE_FILTER sc) ->
  points_to_a_filter (DOWNSCALE_FILTER sc) ->
  exists sc',
    apply_settings USE_OPENCV real changes sc = Some sc'
    /\ points_to_a_filter (UPSCALE_FILTER sc')
    /\ points_to_a_filter (DOWNSCALE_FILTER sc').
Proof.
  revert sc. induction changes as [|change rest IH]; intros sc Hup Hdown; simpl.
  - exists sc. repeat split; assumption.
  - destruct (apply_setting_keeps_filters change sc Hup Hdown)
      as (sc1 & told & Hone & Hup1 & Hdown1).
    rewrite Hone. exact (IH sc1 Hup1 Hdown1).
Qed.

Lemma ks_initialize_scaler_runs (st : scaling_s real) :
  exists st',
    ks_initialize_scaler USE_OPENCV real st = Some st'
    /\ OUTPUT_BUFFER_is_null st' = false
    /\ COLORCONV_BUFFER_is_null st' = false
    /\ UPSCALE_FILTER (statics st') = filter_at 0
    /\ DOWNSCALE_FILTER (statics st') = filter_at 0.
Proof.
  unfold ks_initialize_scaler, ks_set_upscaling_filter, ks_set_downscaling_filter,
    ks_scaler_for_name_string, SCALING_FILTERS.
  destruct USE_OPENCV; simpl; eexists; repeat split.
Qed.

(** X18.  In a build with OpenCV, [ks_initialize_scaler] always succeeds, and
    after it and any sequence of calls of the setters (of the aspect mode,
    the base resolution, the scaling, and of either filter, by any name)
    no assertion of the scaler itself can fail in [ks_scale_frame]: not that
    of [s_convert_frame_to_bgra], not that of a scaling function, and the
    filter pointers stay valid.  For every frame the function returns,
    provided that the card reports its resolution (or a video is being
    recorded), OpenCV reports no error, and the padded resolution can be
    computed when the aspect ratio is forced; the calls into the other
    units are taken to return.  Anti-tearing, the filter chain and the scaling function then only ever
    see the frame at 32 bits, and a scaling function is asked for exactly
    the output resolution, which then is the latest output size.  (The
    bound [up_to] of common/memory.h puts on a copy is not among the
    sources and not part of the statement.) *)
Theorem initialised_scaler_never_fails (st0 : scaling_s real)
    (changes : list (setting real)) (frame : captured_frame_s) (env : surroundings)
    (latest : resolution_s) (align : bool) :
  USE_OPENCV = true ->
  exists st1 sc,
    ks_initialize_scaler USE_OPENCV real st0 = Some st1
    /\ apply_settings USE_OPENCV real changes (statics st1) = Some sc
    /\ (card_reports env ->
        opencv_reports_no_error env ->
        padding_is_defined MAX_OUTPUT_WIDTH MAX_OUTPUT_HEIGHT MIN_OUTPUT_WIDTH
                           MIN_OUTPUT_HEIGHT real round_scaled ratio round_to_uint
                           frame env
                           (mk_scaling sc latest align (OUTPUT_BUFFER_is_null st1)
                                       (COLORCONV_BUFFER_is_null st1)) ->
        exists calls st',
          ks_scale_frame USE_OPENCV MAX_OUTPUT_WIDTH MAX_OUTPUT_HEIGHT MIN_OUTPUT_WIDTH
                         MIN_OUTPUT_HEIGHT MAX_OUTPUT_BPP real round_scaled
                         ratio round_to_uint frame env
                         (mk_scaling sc latest align (OUTPUT_BUFFER_is_null st1)
                                     (COLORCONV_BUFFER_is_null st1))
          = Some (calls, st')
          /\ (forall res,
                In (kf_find_capture_alignment res) calls \/ In (kat_anti_tear res) calls
                \/ In (kf_apply_filter_chain res) calls ->
                res = as_bgra frame)
          /\ (forall f src dst,
                In (opencv_scale f src dst) calls ->
                src = as_bgra frame
                /\ bpp dst = 32
                /\ LATEST_OUTPUT_SIZE st' = dst)).
Proof.
  intros Hcv.
  destruct (ks_initialize_scaler_runs st0) as (st1 & Hinit & Hout & Hconv & Hup & Hdown).
  assert (Hfirst : points_to_a_filter (filter_at 0)).
  { intros i [= <-]. unfold SCALING_FILTERS. destruct USE_OPENCV; simpl; lia. }
  destruct (apply_settings_keeps_filters changes (statics st1)) as (sc & Hset & Hup' & Hdown');
    [now rewrite Hup | now rewrite Hdown |].
  exists st1, sc. split; [exact Hinit|]. split; [exact Hset|].
  intros Hcard Herr Hpad.
  destruct (ks_scale_frame_returns USE_OPENCV MAX_OUTPUT_WIDTH MAX_OUTPUT_HEIGHT
              MIN_OUTPUT_WIDTH MIN_OUTPUT_HEIGHT MAX_OUTPUT_BPP real round_scaled
              ratio round_to_uint
              frame env (mk_scaling sc latest align (OUTPUT_BUFFER_is_null st1)
                                    (COLORCONV_BUFFER_is_null st1))
              Hcv Hconv Hup' Hdown' Hcard Herr Hpad)
    as (calls & st' & Hrun & Hseen & Hscaled).
  exists calls, st'.
  split; [exact Hrun|]. split; [exact Hseen|].
  intros f src dst Hin. destruct (Hscaled f src dst Hin) as (Hsrc & _ & Hbpp & Hlatest).
  repeat split; assumption.
Qed.

(** X21.  The name of a filter that was set can always be read back, and is one
    of [ks_list_of_scaling_filter_names]: the name asked for when it is on
    that list, and "Nearest" when it is not.  Setting one filter leaves the
    other as it was.  [ks_downscaling_filter_name], however, asserts on the
    upscaling filter: while no upscaling filter is set it fails its
    assertion even after a downscaling filter was set. *)
Theorem selected_filter_name_is_listed (wanted : string) (sc : scaler_s real) :
  exists sc_up sc_down answer,
    ks_set_upscaling_filter USE_OPENCV real wanted sc = Some sc_up
    /\ ks_set_downscaling_filter USE_OPENCV real wanted sc = Some sc_down
    /\ ks_upscaling_filter_name USE_OPENCV real sc_up = returned answer
    /\ In answer (ks_list_of_scaling_filter_names USE_OPENCV)
    /\ (In wanted (ks_list_of_scaling_filter_names USE_OPENCV) -> answer = wanted)
    /\ (~ In wanted (ks_list_of_scaling_filter_names USE_OPENCV) ->
        answer = "Nearest"%string)
    /\ DOWNSCALE_FILTER sc_up = DOWNSCALE_FILTER sc
    /\ UPSCALE_FILTER sc_down = UPSCALE_FILTER sc
    /\ ks_downscaling_filter_name USE_OPENCV real sc_down
       = match UPSCALE_FILTER sc with
         | nullptr => assertion_failed
         | filter_at _ => returned answer
         end.
Proof.
  destruct (ks_scaler_for_name_string_points wanted) as (i & f & Hfound & Hnth & Hin & Hout).
  unfold ks_set_upscaling_filter, ks_set_downscaling_filter. rewrite Hfound.
  eexists. eexists. exists (name f).
  split; [reflexivity|]. split; [reflexivity|].
  unfold ks_upscaling_filter_name, ks_downscaling_filter_name. simpl. rewrite Hnth.
  split; [reflexivity|].
  split; [apply in_map; now apply nth_error_In with i|].
  split; [exact Hin|]. split; [exact Hout|].
  split; [reflexivity|]. split; [reflexivity|].
  destruct (UPSCALE_FILTER sc); reflexivity.
Qed.

End Settings.

(** ** Scaling on a concrete build

    A build with output bounds of 160 x 100 to 4096 x 2160 and at most 32
    bits, real numbers held as fractions of whole numbers, "Linear" for
    scaling up and "Area" for scaling down. *)

Section ScalingScenarios.

(** A real number held as a fraction of whole numbers; a denominator of 0
    stands for a value that is not finite. *)
Definition fraction : Type := (Z * Z)%type.

Definition whole (n : Z) : fraction := (n, 1).

(** [a / (real)b]. *)
Definition quotient (a b : Z) : fraction := (a, b).

(** [round(n * r)] for values that are not negative: halves go up. *)
Definition rounded (n : Z) (r : fraction) : Z :=
  (2 * n * fst r + snd r) / (2 * snd r).

(** [round(n * r)] stored into an [unsigned long] field.  (A value that is
    not finite, whose conversion C++ leaves undefined, gives 0 here.) *)
Definition round_scaled_fraction (n : Z) (r : fraction) : Z := rounded n r.

(** [std::round(n * r)] stored into a [uint]. *)
Definition round_to_uint_fraction (n : Z) (r : fraction) : option Z :=
  if snd r =? 0 then None
  else if rounded n r <? 2 ^ 32 then Some (rounded n r) else None.

Definition linear_and_area : scaler_s fraction :=
  mk_scaler (filter_at 1) (filter_at 2) native true (mk_resolution 640 480 0) false
            (whole 1) false.

(** An initialised scaler that has been asked to align the capture. *)
Definition ready : scaling_s fraction :=
  mk_scaling linear_and_area (mk_resolution 0 0 0) true false false.

(** A card in the 888 format that captures 1024 x 768 at the given depth and
    reports it, with an OpenCV that reports no error. *)
Definition card_at (depth : Z) (recording : option resolution_s) : surroundings :=
  mk_surroundings recording (mk_resolution 1024 768 32)
                  (mk_resolution 160 100 16) (mk_resolution 1920 1200 32)
                  false depth RGB_PIXELFORMAT_888 false false (fun _ => false).

Definition frame_of (depth : Z) : captured_frame_s :=
  mk_frame (mk_resolution 640 480 depth) (Some []).

(** [ks_scale_frame] in this build. *)
Definition scale_frame_here (USE_OPENCV : bool) (frame : captured_frame_s)
    (env : surroundings) (st : scaling_s fraction)
  : option (list scale_call * scaling_s fraction) :=
  ks_scale_frame USE_OPENCV 4096 2160 160 100 32 fraction round_scaled_fraction
                 quotient round_to_uint_fraction frame env st.

(** A frame of 24 bits is converted BGR to BGRA. *)
Lemma conversion_only_from_16_or_24_bits_witness :
  exists calls st',
    scale_frame_here true (frame_of 24) (card_at 24 None) ready = Some (calls, st')
    /\ In (cvtColor CV_BGR2BGRA) calls
    /\ CV_BGR2BGRA = conversion_type RGB_PIXELFORMAT_888 (frame_of 24).
Proof.
  eexists. eexists. split; [reflexivity|].
  assert (Hin : In (cvtColor CV_BGR2BGRA)
                   [cvtColor CV_BGR2BGRA;
                    kf_find_capture_alignment (mk_resolution 640 480 32);
                    kat_anti_tear (mk_resolution 640 480 32);
                    kf_apply_filter_chain (mk_resolution 640 480 32);
                    opencv_scale s_scaler_linear (mk_resolution 640 480 32)
                                 (mk_resolution 1024 768 32)])
    by (left; reflexivity).
  split; [exact Hin|].
  destruct (conversion_only_from_16_or_24_bits true 4096 2160 160 100 32 fraction
              round_scaled_fraction quotient round_to_uint_fraction
              (frame_of 24) (card_at 24 None) ready _ _ CV_BGR2BGRA eq_refl Hin)
    as (_ & _ & _ & Hc & _).
  exact Hc.
Defined.


(** After initialisation, with "Cubic" chosen for scaling up, a frame of 32
    bits is scaled to 1024 x 768. *)
Lemma initialised_scaler_never_fails_witness :
  exists calls st',
    scale_frame_here true (frame_of 32) (card_at 32 None)
      (mk_scaling
         (mk_scaler (filter_at 3) (filter_at 0) native true (mk_resolution 640 480 0)
                    false (whole 1) false)
         (mk_resolution 0 0 0) false false false)
    = Some (calls, st')
    /\ (forall f src dst, In (opencv_scale f src dst) calls ->
          LATEST_OUTPUT_SIZE st' = dst).
Proof.
  destruct (initialised_scaler_never_fails true 4096 2160 160 100 32 fraction
              round_scaled_fraction quotient round_to_uint_fraction ready
              [ks_set_upscaling_filter_to "Cubic"] (frame_of 32) (card_at 32 None)
              (mk_resolution 0 0 0) false eq_refl)
    as (st1 & sc & Hinit & Hset & Hreturns).
  injection Hinit as <-. injection Hset as <-.
  destruct Hreturns as (calls & st' & Hrun & _ & Hscaled).
  - reflexivity.
  - intros call. reflexivity.
  - intros _. vm_compute. discriminate.
  - exists calls, st'. split; [exact Hrun|].
    intros f src dst Hin. now destruct (Hscaled f src dst Hin) as (_ & _ & Hlatest).
Defined.

(** What stops the function from outside, on the same scaler.  An empty
    frame from a card whose minimum size is 0 x 0 (what
    [minimum_capture_resolution] gives when the card does not report it)
    passes the checks and reaches the scaling function, where the forced
    native aspect ratio divides by zero.  A card that does not report its
    resolution, and an error of OpenCV, end the program as well. *)
Lemma failures_from_outside_the_scaler :
  scale_frame_here true (mk_frame (mk_resolution 0 0 32) (Some []))
    (mk_surroundings None (mk_resolution 1024 768 32)
                     (mk_resolution 0 0 0) (mk_resolution 1920 1200 32)
                     false 32 RGB_PIXELFORMAT_888 false false (fun _ => false))
    ready = None
  /\ scale_frame_here true (frame_of 32)
       (mk_surroundings None (mk_resolution 1024 768 32)
                        (mk_resolution 160 100 16) (mk_resolution 1920 1200 32)
                        false 32 RGB_PIXELFORMAT_888 false true (fun _ => false))
       ready = None
  /\ scale_frame_here true (frame_of 32)
       (mk_surroundings None (mk_resolution 1024 768 32)
                        (mk_resolution 160 100 16) (mk_resolution 1920 1200 32)
                        false 32 RGB_PIXELFORMAT_888 false false (fun _ => true))
       ready = None.
Proof. repeat split. Qed.

(** Without OpenCV the same frame of 24 bits ends the program. *)
Lemma without_opencv_frames_are_only_copied_witness :
  scale_frame_here false (frame_of 24) (card_at 24 None) ready = None.
Proof.
  destruct (without_opencv_frames_are_only_copied false 4096 2160 160 100 32 fraction
              round_scaled_fraction quotient round_to_uint_fraction
              (frame_of 24) (card_at 24 None) ready eq_refl)
    as (Hlow & _).
  apply Hlow; [reflexivity | discriminate].
Defined.

(** A recording at 5000 x 3000 is what turns a frame away for the size of
    the output. *)
Lemma output_too_large_only_while_recording_witness :
  exists rec,
    krecord_video_resolution (card_at 32 (Some (mk_resolution 5000 3000 32))) = Some rec
    /\ (4096 < w rec \/ 2160 < h rec).
Proof.
  apply (output_too_large_only_while_recording 4096 2160 160 100 32 fraction
           round_scaled_fraction
           (frame_of 32) (card_at 32 (Some (mk_resolution 5000 3000 32))) ready);
    [lia | lia | lia | reflexivity].
Defined.

End ScalingScenarios.

End FrameScalingFacts.

(** * Properties of the aspect ratio and the padding *)

Module PaddingFacts.

Lemma wrap_u32_small (z : Z) : 0 <= z < 2 ^ 32 -> wrap_u32 z = z.
Proof. intros Hz. unfold wrap_u32, u32_modulus. now apply Z.mod_small. Qed.

(** A size that fits a signed 32-bit number as well. *)
Definition fits_int (z : Z) : Prop := 0 <= z < 2 ^ 31.

Lemma gcd_fits_int (a b : Z) :
  fits_int a -> fits_int b -> fits_int (Z.gcd a b).
Proof.
  unfold fits_int. intros Ha Hb. split; [apply Z.gcd_nonneg|].
  destruct (Z.eq_dec a 0) as [-> | Hnz].
  - rewrite Z.gcd_0_l, Z.abs_eq; lia.
  - assert (Hle : Z.gcd a b <= a).
    { apply Z.divide_pos_le; [lia | apply Z.gcd_divide_l]. }
    lia.
Qed.

(** The function, on sizes that fit [int]. *)
Lemma ks_resolution_to_aspect_eq (res : resolution_s) :
  fits_int (w res) -> fits_int (h res) ->
  ks_resolution_to_aspect res
  = if Z.gcd (w res) (h res) =? 0 then None
    else Some (w res / Z.gcd (w res) (h res), h res / Z.gcd (w res) (h res)).
Proof.
  intros Hw Hh. unfold ks_resolution_to_aspect. cbv zeta.
  pose proof (gcd_fits_int _ _ Hw Hh) as Hg. unfold fits_int in Hg.
  rewrite CaptureFacts.to_int_small by (unfold is_int; lia).
  rewrite wrap_u32_small by lia. reflexivity.
Qed.

(** The ratio of a resolution that is not 0 x 0. *)
Lemma aspect_of_nonzero (res : resolution_s) :
  fits_int (w res) -> fits_int (h res) -> w res <> 0 \/ h res <> 0 ->
  exists aw ah g,
    ks_resolution_to_aspect res = Some (aw, ah)
    /\ 0 < g
    /\ w res = g * aw /\ h res = g * ah
    /\ Z.gcd aw ah = 1.
Proof.
  intros Hw Hh Hnz. rewrite (ks_resolution_to_aspect_eq res Hw Hh).
  unfold fits_int in *.
  set (g := Z.gcd (w res) (h res)).
  assert (Hpos : 0 < g).
  { pose proof (Z.gcd_nonneg (w res) (h res)) as Hge.
    destruct (Z.eq_dec g 0) as [Hz | Hz]; [|fold g in Hge; lia].
    apply Z.gcd_eq_0 in Hz. lia. }
  destruct (Z.gcd_divide_l (w res) (h res)) as (aw & Haw).
  destruct (Z.gcd_divide_r (w res) (h res)) as (ah & Hah).
  fold g in Haw, Hah.
  assert (Hgz : (g =? 0) = false) by (apply Z.eqb_neq; lia).
  rewrite Hgz.
  assert (Hdw : w res / g = aw) by (rewrite Haw; apply Z.div_mul; lia).
  assert (Hdh : h res / g = ah) by (rewrite Hah; apply Z.div_mul; lia).
  exists aw, ah, g. rewrite Hdw, Hdh.
  split; [reflexivity|]. split; [exact Hpos|].
  split; [lia|]. split; [lia|].
  assert (Hgg : g = Z.gcd (aw * g) (ah * g)) by (unfold g at 1; now rewrite Haw, Hah).
  rewrite Z.gcd_mul_mono_r_nonneg in Hgg by lia.
  nia.
Qed.

(** Two ratios in lowest terms that are equal as fractions are equal. *)
Lemma lowest_terms_unique (a b c d : Z) :
  0 < a -> 0 < b -> 0 < c -> 0 < d ->
  Z.gcd a b = 1 -> Z.gcd c d = 1 -> a * d = c * b -> a = c /\ b = d.
Proof.
  intros Ha Hb Hc Hd Hab Hcd Hcross.
  assert (Hac : (a | c)).
  { apply (Z.gauss a b c); [|exact Hab]. exists d. lia. }
  assert (Hca : (c | a)).
  { apply (Z.gauss c d a); [|exact Hcd]. exists b. lia. }
  assert (Heq : a = c) by (apply Z.divide_antisym_nonneg; [lia | lia | assumption | assumption]).
  split; [exact Heq|]. subst c. nia.
Qed.

(** X22.  [ks_resolution_to_aspect] gives the ratio of a resolution in lowest
    terms: the resolution is a whole multiple of the result, and the two
    numbers of the result have no common divisor, so that two resolutions of
    the same shape (640 x 480 and 1024 x 768, say) get the same ratio.  On
    0 x 0 the function divides by zero. *)
Theorem ks_resolution_to_aspect_lowest_terms (res : resolution_s) :
  fits_int (w res) -> fits_int (h res) ->
  (w res = 0 /\ h res = 0 -> ks_resolution_to_aspect res = None)
  /\ (w res <> 0 \/ h res <> 0 ->
      exists aw ah g,
        ks_resolution_to_aspect res = Some (aw, ah)
        /\ 0 < g
        /\ w res = g * aw /\ h res = g * ah
        /\ Z.gcd aw ah = 1)
  /\ (forall other,
        fits_int (w other) -> fits_int (h other) ->
        0 < w res -> 0 < h res -> 0 < w other -> 0 < h other ->
        w res * h other = w other * h res ->
        ks_resolution_to_aspect other = ks_resolution_to_aspect res).
Proof.
  intros Hw Hh. split; [|split].
  - intros (Hw0 & Hh0). rewrite (ks_resolution_to_aspect_eq res Hw Hh), Hw0, Hh0.
    reflexivity.
  - exact (aspect_of_nonzero res Hw Hh).
  - intros other Hw' Hh' Hpw Hph Hpw' Hph' Hshape.
    destruct (aspect_of_nonzero res Hw Hh) as (a & b & g & -> & Hg & Ha & Hb & Hab);
      [lia|].
    destruct (aspect_of_nonzero other Hw' Hh') as (c & d & g' & -> & Hg' & Hc & Hd & Hcd);
      [lia|].
    assert (Hcross : a * d = c * b).
    { apply (Z.mul_cancel_l _ _ (g * g')); [lia|]. rewrite Ha, Hc, Hb, Hd in Hshape.
      lia. }
    destruct (lowest_terms_unique a b c d) as (Hac & Hbd);
      [nia | nia | nia | nia | exact Hab | exact Hcd | exact Hcross |].
    now rewrite Hac, Hbd.
Qed.

(** X23.  The borders [border_padding] computes for a padded image that fits the
    target fill the target exactly: top and bottom border with the padded
    height make the target height, left and right border with the padded
    width make the target width.  The image is centred, the odd pixel going
    to the bottom and to the right. *)
Theorem border_padding_fills_target (paddedRes targetRes : resolution_s) :
  0 <= h paddedRes <= h targetRes -> fits_int (h targetRes) ->
  0 <= w paddedRes <= w targetRes -> fits_int (w targetRes) ->
  let p := border_padding paddedRes targetRes in
  top p + h paddedRes + bottom p = h targetRes
  /\ left p + w paddedRes + right p = w targetRes
  /\ 0 <= top p <= bottom p /\ bottom p <= top p + 1
  /\ 0 <= left p <= right p /\ right p <= left p + 1.
Proof.
  unfold fits_int. intros Hh Hht Hw Hwt. unfold border_padding. cbv zeta. simpl.
  assert (Hhalf : forall d, 0 <= d < 2 ^ 32 -> to_int (wrap_u32 d / 2) = d / 2).
  { intros d Hd. rewrite wrap_u32_small by lia.
    apply CaptureFacts.to_int_small. unfold is_int.
    pose proof (Z.div_lt_upper_bound d 2 (2 ^ 31)).
    pose proof (Z.div_pos d 2). lia. }
  rewrite !Hhalf by lia.
  pose proof (Z.div_mod (h targetRes - h paddedRes) 2).
  pose proof (Z.mod_pos_bound (h targetRes - h paddedRes) 2).
  pose proof (Z.div_mod (h targetRes - h paddedRes + 1) 2).
  pose proof (Z.mod_pos_bound (h targetRes - h paddedRes + 1) 2).
  pose proof (Z.div_mod (w targetRes - w paddedRes) 2).
  pose proof (Z.mod_pos_bound (w targetRes - w paddedRes) 2).
  pose proof (Z.div_mod (w targetRes - w paddedRes + 1) 2).
  pose proof (Z.mod_pos_bound (w targetRes - w paddedRes + 1) 2).
  lia.
Qed.

(** 1024 x 768 and 640 x 480 have the same ratio. *)
Lemma ks_resolution_to_aspect_lowest_terms_witness :
  ks_resolution_to_aspect (mk_resolution 1024 768 32)
  = ks_resolution_to_aspect (mk_resolution 640 480 32).
Proof.
  assert (Hw : fits_int (w (mk_resolution 640 480 32))) by (unfold fits_int; simpl; lia).
  assert (Hh : fits_int (h (mk_resolution 640 480 32))) by (unfold fits_int; simpl; lia).
  destruct (ks_resolution_to_aspect_lowest_terms (mk_resolution 640 480 32) Hw Hh)
    as (_ & _ & Hsame).
  apply Hsame; unfold fits_int; simpl; lia.
Defined.

(** A 1024 x 768 image in a 1280 x 769 target gets 128 columns on either
    side and the one spare row at the bottom. *)
Lemma border_padding_fills_target_witness :
  border_padding (mk_resolution 1024 768 32) (mk_resolution 1280 769 32)
  = mk_Vec4i 0 1 128 128
  /\ top (border_padding (mk_resolution 1024 768 32) (mk_resolution 1280 769 32)) + 768
     + bottom (border_padding (mk_resolution 1024 768 32) (mk_resolution 1280 769 32))
     = 769.
Proof.
  split; [reflexivity|].
  destruct (border_padding_fills_target (mk_resolution 1024 768 32)
              (mk_resolution 1280 769 32))
    as (Hrows & _); [| | | | exact Hrows]; unfold fits_int; simpl; lia.
Defined.

End PaddingFacts.

(** * The filter graph dialog: collecting the filter chains *)

Module FilterGraph.

(** [filter_type_enum_e]: the two gates, and any other type of filter. *)
Inductive filter_type_enum_e : Type :=
| input_gate
| output_gate
| filter_type (id : nat).

(** A [FilterGraphNode]: its [associatedFilter] (a [const filter_c*], held
    as an address, [None] when null) and, for each edge connected to its
    output edge, the [FilterGraphNode*] that [dynamic_cast] makes of the
    edge's [parentNode] ([None] when null).  A node pointer is the index of
    the node in the graph. *)
Record FilterGraphNode : Type := mk_node
  { associatedFilter : option nat;
    connectedTo : list (option nat) }.

(** The nodes of the scene, and the [metaData.type] of the filter at each
    address. *)
Record graph : Type := mk_graph
  { nodes : list FilterGraphNode;
    metaData_type : nat -> filter_type_enum_e }.

(** The calls [recalculate_filter_chains] makes into the other units. *)
Inductive graph_call : Type :=
| kf_remove_all_filter_chains
| kf_add_filter_chain (chain : list nat)
| kd_show_headless_error_message_loop.

(** How a traversal ends: it returns, having made some calls; or an
    assertion fails; or the model runs out of the fuel that bounds the depth
    of the recursion. *)
Inductive outcome : Type :=
| finished (calls : list graph_call)
| assertion_failed
| out_of_fuel.

(** One after the other. *)
Definition and_then (first : outcome) (second : unit -> outcome) : outcome :=
  match first with
  | finished calls1 =>
      match second tt with
      | finished calls2 => finished (calls1 ++ calls2)
      | stopped => stopped
      end
  | stopped => stopped
  end.

Section WithGraph.

Variable g : graph.

(** [std::find] on the accumulated chain. *)
Definition in_chain (f : nat) (chain : list nat) : bool := existsb (Nat.eqb f) chain.

(** The lambda [traverse_filter_node].  The chain is passed by value, so
    each outgoing edge continues from the same chain.  A node pointer that
    is null, or points to no node of the graph, fails the assertion on the
    node, as does a node without a filter. *)
Fixpoint traverse_filter_node (fuel : nat) (node : option nat)
    (accumulatedFilterChain : list nat) : outcome :=
  match fuel with
  | O => out_of_fuel
  | S fuel' =>
      match node with
      | None => assertion_failed
      | Some n =>
          match nth_error (nodes g) n with
          | None => assertion_failed
          | Some nd =>
              match associatedFilter nd with
              | None => assertion_failed
              | Some f =>
                  if in_chain f accumulatedFilterChain
                  then finished [kd_show_headless_error_message_loop]
                  else
                    let chain := accumulatedFilterChain ++ [f] in
                    match metaData_type g f with
                    | output_gate => finished [kf_add_filter_chain chain]
                    | _ =>
                        (fix each (outgoing : list (option nat)) : outcome :=
                           match outgoing with
                           | [] => finished []
                           | next :: rest =>
                               and_then (traverse_filter_node fuel' next chain)
                                        (fun _ => each rest)
                           end) (connectedTo nd)
                    end
              end
          end
      end
  end.

(** The loop over the outgoing edges of a node. *)
Fixpoint traverse_each (fuel : nat) (outgoing : list (option nat)) (chain : list nat)
  : outcome :=
  match outgoing with
  | [] => finished []
  | next :: rest =>
      and_then (traverse_filter_node fuel next chain)
               (fun _ => traverse_each fuel rest chain)
  end.

(** [FilterGraphDialog::recalculate_filter_chains]. *)
Definition recalculate_filter_chains (fuel : nat) (inputGateNodes : list nat) : outcome :=
  and_then (finished [kf_remove_all_filter_chains])
           (fun _ => traverse_each fuel (map Some inputGateNodes) []).

End WithGraph.

End FilterGraph.
Import FilterGraph.

(** * Properties of the filter chains *)

Module FilterGraphFacts.

Section WithGraph.

Variable g : graph.

(** The filter of a node, when the node and its filter exist. *)
Definition filter_of (n : nat) : option nat :=
  match nth_error (nodes g) n with
  | Some nd => associatedFilter nd
  | None => None
  end.

(** The filters of the graph. *)
Definition filters_of_graph : list nat :=
  flat_map (fun nd => match associatedFilter nd with
                      | Some f => [f]
                      | None => []
                      end) (nodes g).

(** [suffix] is what a walk from [node] adds to a chain: the filters of
    the nodes along edges of the graph, from [node] to the first output
    gate. *)
Inductive leads_to_output : option nat -> list nat -> Prop :=
| at_output (n : nat) (nd : FilterGraphNode) (f : nat) :
    nth_error (nodes g) n = Some nd ->
    associatedFilter nd = Some f ->
    metaData_type g f = output_gate ->
    leads_to_output (Some n) [f]
| through (n : nat) (nd : FilterGraphNode) (f : nat) (next : option nat)
    (rest : list nat) :
    nth_error (nodes g) n = Some nd ->
    associatedFilter nd = Some f ->
    metaData_type g f <> output_gate ->
    In next (connectedTo nd) ->
    leads_to_output next rest ->
    leads_to_output (Some n) (f :: rest).

(** A walk from [node], continuing the chain [acc], comes to a node whose
    filter is already in the chain, before it reaches an output gate. *)
Inductive comes_back : option nat -> list nat -> Prop :=
| back_here (n : nat) (nd : FilterGraphNode) (f : nat) (acc : list nat) :
    nth_error (nodes g) n = Some nd ->
    associatedFilter nd = Some f ->
    In f acc ->
    comes_back (Some n) acc
| back_later (n : nat) (nd : FilterGraphNode) (f : nat) (next : option nat)
    (acc : list nat) :
    nth_error (nodes g) n = Some nd ->
    associatedFilter nd = Some f ->
    ~ In f acc ->
    metaData_type g f <> output_gate ->
    In next (connectedTo nd) ->
    comes_back next (acc ++ [f]) ->
    comes_back (Some n) acc.

(** The recursion of the lambda, with its loop named. *)
Lemma traverse_filter_node_eq (fuel : nat) (node : option nat) (chain : list nat) :
  traverse_filter_node g (S fuel) node chain
  = match node with
    | None => assertion_failed
    | Some n =>
        match nth_error (nodes g) n with
        | None => assertion_failed
        | Some nd =>
            match associatedFilter nd with
            | None => assertion_failed
            | Some f =>
                if in_chain f chain
                then finished [kd_show_headless_error_message_loop]
                else
                  match metaData_type g f with
                  | output_gate => finished [kf_add_filter_chain (chain ++ [f])]
                  | _ => traverse_each g fuel (connectedTo nd) (chain ++ [f])
                  end
            end
        end
    end.
Proof.
  simpl. destruct node as [n|]; [|reflexivity].
  destruct (nth_error (nodes g) n) as [nd|]; [|reflexivity].
  destruct (associatedFilter nd) as [f|]; [|reflexivity].
  destruct (in_chain f chain); [reflexivity|].
  assert (Heach : forall outgoing,
             (fix each (outgoing : list (option nat)) : outcome :=
                match outgoing with
                | [] => finished []
                | next :: rest =>
                    and_then (traverse_filter_node g fuel next (chain ++ [f]))
                             (fun _ => each rest)
                end) outgoing
             = traverse_each g fuel outgoing (chain ++ [f])).
  { induction outgoing as [|next rest IH]; simpl; [reflexivity|]. now rewrite IH. }
  destruct (metaData_type g f); try reflexivity; apply Heach.
Qed.

Lemma in_chain_spec (f : nat) (chain : list nat) :
  in_chain f chain = true <-> In f chain.
Proof.
  unfold in_chain. rewrite existsb_exists. split.
  - intros (x & Hin & Heq). apply Nat.eqb_eq in Heq. now subst.
  - intros Hin. exists f. split; [exact Hin | apply Nat.eqb_refl].
Qed.

Lemma filter_in_graph (n : nat) (nd : FilterGraphNode) (f : nat) :
  nth_error (nodes g) n = Some nd -> associatedFilter nd = Some f ->
  In f filters_of_graph.
Proof.
  intros Hn Hf. unfold filters_of_graph. apply in_flat_map. exists nd.
  split; [now apply nth_error_In with n|]. rewrite Hf. now left.
Qed.

Lemma filters_of_graph_length :
  (List.length filters_of_graph <= List.length (nodes g))%nat.
Proof.
  unfold filters_of_graph. induction (nodes g) as [|nd rest IH]; simpl; [lia|].
  rewrite length_app. destruct (associatedFilter nd); simpl; lia.
Qed.

(** A chain of distinct filters of the graph leaves fuel to spare. *)
Lemma enough_fuel (fuel : nat) :
  forall (node : option nat) (chain : list nat),
    NoDup chain -> incl chain filters_of_graph ->
    (List.length filters_of_graph < fuel + List.length chain)%nat ->
    traverse_filter_node g fuel node chain <> out_of_fuel.
Proof.
  induction fuel as [|fuel IH]; intros node chain Hnodup Hincl Hfuel.
  - exfalso. pose proof (NoDup_incl_length Hnodup Hincl). simpl in Hfuel. lia.
  - rewrite traverse_filter_node_eq.
    destruct node as [n|]; [|discriminate].
    destruct (nth_error (nodes g) n) as [nd|] eqn:Hn; [|discriminate].
    destruct (associatedFilter nd) as [f|] eqn:Hf; [|discriminate].
    destruct (in_chain f chain) eqn:Hseen; [discriminate|].
    assert (Hnew : ~ In f chain).
    { intros Hin. apply in_chain_spec in Hin. congruence. }
    assert (Hnodup' : NoDup (chain ++ [f])).
    { apply NoDup_app; [exact Hnodup | repeat constructor; intros [] |].
      intros x Hx [<- | []]. contradiction. }
    assert (Hincl' : incl (chain ++ [f]) filters_of_graph).
    { apply incl_app; [exact Hincl|]. intros x [<- | []].
      exact (filter_in_graph n nd f Hn Hf). }
    assert (Hfuel' : (List.length filters_of_graph < fuel + List.length (chain ++ [f]))%nat).
    { rewrite length_app. simpl. lia. }
    assert (Heach : forall outgoing,
               traverse_each g fuel outgoing (chain ++ [f]) <> out_of_fuel).
    { induction outgoing as [|next rest IHout]; simpl; [discriminate|].
      pose proof (IH next (chain ++ [f]) Hnodup' Hincl' Hfuel') as Hnext.
      unfold and_then.
      destruct (traverse_filter_node g fuel next (chain ++ [f])); try congruence.
      destruct (traverse_each g fuel rest (chain ++ [f])); congruence. }
    destruct (metaData_type g f); try discriminate; apply Heach.
Qed.

(** More fuel does not change an outcome that did not run out of it. *)
Lemma more_fuel (fuel : nat) :
  forall (node : option nat) (chain : list nat),
    traverse_filter_node g fuel node chain <> out_of_fuel ->
    traverse_filter_node g (S fuel) node chain = traverse_filter_node g fuel node chain.
Proof.
  induction fuel as [|fuel IH]; intros node chain Hran; [now destruct Hran|].
  rewrite (traverse_filter_node_eq (S fuel)).
  rewrite traverse_filter_node_eq in Hran |- *.
  destruct node as [n|]; [|reflexivity].
  destruct (nth_error (nodes g) n) as [nd|]; [|reflexivity].
  destruct (associatedFilter nd) as [f|]; [|reflexivity].
  destruct (in_chain f chain); [reflexivity|].
  assert (Heach : forall outgoing,
             traverse_each g fuel outgoing (chain ++ [f]) <> out_of_fuel ->
             traverse_each g (S fuel) outgoing (chain ++ [f])
             = traverse_each g fuel outgoing (chain ++ [f])).
  { induction outgoing as [|next rest IHout]; [reflexivity|].
    intros Hout. cbn [traverse_each] in Hout |- *.
    destruct (traverse_filter_node g fuel next (chain ++ [f])) as [calls1| |] eqn:Hnext.
    - rewrite (IH next (chain ++ [f])) by congruence.
      rewrite Hnext. unfold and_then in Hout |- *.
      rewrite IHout; [reflexivity|].
      intros Hrest. rewrite Hrest in Hout. now apply Hout.
    - rewrite (IH next (chain ++ [f])) by congruence. now rewrite Hnext.
    - now destruct Hout. }
  destruct (metaData_type g f); try reflexivity; now apply Heach.
Qed.

Lemma traverse_each_more_fuel (fuel : nat) (outgoing : list (option nat))
    (chain : list nat) :
  traverse_each g fuel outgoing chain <> out_of_fuel ->
  traverse_each g (S fuel) outgoing chain = traverse_each g fuel outgoing chain.
Proof.
  induction outgoing as [|next rest IH]; [reflexivity|].
  intros Hout. cbn [traverse_each] in Hout |- *.
  destruct (traverse_filter_node g fuel next chain) as [calls1| |] eqn:Hnext.
  - rewrite (more_fuel fuel next chain) by congruence.
    rewrite Hnext. unfold and_then in Hout |- *.
    rewrite IH; [reflexivity|].
    intros Hrest. rewrite Hrest in Hout. now apply Hout.
  - rewrite (more_fuel fuel next chain) by congruence. now rewrite Hnext.
  - now destruct Hout.
Qed.

Lemma fuel_is_enough (fuel extra : nat) (node : option nat) (chain : list nat) :
  traverse_filter_node g fuel node chain <> out_of_fuel ->
  traverse_filter_node g (extra + fuel) node chain = traverse_filter_node g fuel node chain.
Proof.
  intros Hran. induction extra as [|extra IH]; [reflexivity|].
  simpl plus. rewrite more_fuel; [exact IH | now rewrite IH].
Qed.

(** What the loop over the outgoing edges returns is what the traversals
    of the edges return, one after the other. *)
Lemma traverse_each_finished (fuel : nat) (outgoing : list (option nat))
    (chain : list nat) (calls : list graph_call) :
  traverse_each g fuel outgoing chain = finished calls ->
  (forall next, In next outgoing ->
     exists calls_next,
       traverse_filter_node g fuel next chain = finished calls_next
       /\ incl calls_next calls)
  /\ (forall c, In c calls ->
        exists next calls_next,
          In next outgoing
          /\ traverse_filter_node g fuel next chain = finished calls_next
          /\ In c calls_next).
Proof.
  revert calls. induction outgoing as [|first rest IH]; intros calls; simpl.
  - intros [= <-]. split; [intros next [] | intros c []].
  - unfold and_then.
    destruct (traverse_filter_node g fuel first chain) as [calls1| |] eqn:Hfirst;
      try discriminate.
    destruct (traverse_each g fuel rest chain) as [calls2| |]; try discriminate.
    intros [= <-]. destruct (IH calls2 eq_refl) as (Hall & Hfrom). split.
    + intros next [<- | Hin].
      * exists calls1. split; [exact Hfirst | now apply incl_appl].
      * destruct (Hall next Hin) as (calls_next & Hrun & Hincl).
        exists calls_next. split; [exact Hrun | now apply incl_appr].
    + intros c Hc. apply in_app_or in Hc. destruct Hc as [Hc | Hc].
      * exists first, calls1. repeat split; [now left | exact Hfirst | exact Hc].
      * destruct (Hfrom c Hc) as (next & calls_next & Hin & Hrun & Hcn).
        exists next, calls_next. repeat split; [now right | exact Hrun | exact Hcn].
Qed.

(** Every chain a traversal submits continues the chain it was given along
    a walk to an output gate, and repeats no filter. *)
Lemma submitted_chain_is_a_walk (fuel : nat) :
  forall (node : option nat) (acc : list nat) (calls : list graph_call) (chain : list nat),
    traverse_filter_node g fuel node acc = finished calls ->
    In (kf_add_filter_chain chain) calls ->
    exists suffix,
      chain = acc ++ suffix
      /\ leads_to_output node suffix
      /\ (NoDup acc -> NoDup chain).
Proof.
  induction fuel as [|fuel IH]; intros node acc calls chain; [discriminate|].
  rewrite traverse_filter_node_eq.
  destruct node as [n|]; [|discriminate].
  destruct (nth_error (nodes g) n) as [nd|] eqn:Hn; [|discriminate].
  destruct (associatedFilter nd) as [f|] eqn:Hf; [|discriminate].
  destruct (in_chain f acc) eqn:Hseen.
  { intros [= <-] [Hin | []]. discriminate. }
  assert (Hnew : ~ In f acc).
  { intros Hin. apply in_chain_spec in Hin. congruence. }
  assert (Hgrown : NoDup acc -> NoDup (acc ++ [f])).
  { intros Hnodup. apply NoDup_app; [exact Hnodup | repeat constructor; intros [] |].
    intros x Hx [<- | []]. contradiction. }
  assert (Hon : metaData_type g f <> output_gate ->
                traverse_each g fuel (connectedTo nd) (acc ++ [f]) = finished calls ->
                In (kf_add_filter_chain chain) calls ->
                exists suffix,
                  chain = acc ++ suffix
                  /\ leads_to_output (Some n) suffix
                  /\ (NoDup acc -> NoDup chain)).
  { intros Htype Hrun Hin.
    destruct (traverse_each_finished fuel _ _ _ Hrun) as (_ & Hfrom).
    destruct (Hfrom _ Hin) as (next & calls_next & Hnext & Hsub & Hcn).
    destruct (IH next (acc ++ [f]) calls_next chain Hsub Hcn)
      as (suffix & -> & Hwalk & Hnodup).
    exists (f :: suffix). rewrite <- app_assoc. split; [reflexivity|].
    split; [exact (through n nd f next suffix Hn Hf Htype Hnext Hwalk)|].
    intros Hacc. rewrite <- app_assoc in Hnodup. exact (Hnodup (Hgrown Hacc)). }
  destruct (metaData_type g f) eqn:Htype.
  - apply Hon. discriminate.
  - intros [= <-] [[= <-] | []]. exists [f].
    split; [reflexivity|]. split; [exact (at_output n nd f Hn Hf Htype) | exact Hgrown].
  - apply Hon. discriminate.
Qed.

(** Every walk to an output gate that repeats no filter is submitted. *)
Lemma walk_is_submitted (node : option nat) (suffix : list nat) :
  leads_to_output node suffix ->
  forall (fuel : nat) (acc : list nat) (calls : list graph_call),
    NoDup (acc ++ suffix) ->
    traverse_filter_node g fuel node acc = finished calls ->
    In (kf_add_filter_chain (acc ++ suffix)) calls.
Proof.
  induction 1 as [n nd f Hn Hf Htype | n nd f next rest Hn Hf Htype Hnext Hwalk IH];
    intros fuel acc calls Hnodup; (destruct fuel as [|fuel]; [discriminate|]);
    rewrite traverse_filter_node_eq, Hn, Hf.
  - assert (Hnew : in_chain f acc = false).
    { destruct (in_chain f acc) eqn:Hseen; [|reflexivity].
      apply in_chain_spec in Hseen. apply NoDup_remove_2 in Hnodup.
      rewrite app_nil_r in Hnodup. contradiction. }
    rewrite Hnew, Htype. intros [= <-]. now left.
  - assert (Hnew : in_chain f acc = false).
    { destruct (in_chain f acc) eqn:Hseen; [|reflexivity].
      apply in_chain_spec in Hseen. apply NoDup_remove_2 in Hnodup.
      exfalso. apply Hnodup. apply in_or_app. now left. }
    rewrite Hnew.
    assert (Hon : traverse_each g fuel (connectedTo nd) (acc ++ [f]) = finished calls ->
                  In (kf_add_filter_chain (acc ++ f :: rest)) calls).
    { intros Hrun.
      destruct (traverse_each_finished fuel _ _ _ Hrun) as (Hall & _).
      destruct (Hall next Hnext) as (calls_next & Hsub & Hincl).
      apply Hincl. replace (acc ++ f :: rest) with ((acc ++ [f]) ++ rest)
        by now rewrite <- app_assoc.
      apply (IH fuel); [now rewrite <- app_assoc | exact Hsub]. }
    destruct (metaData_type g f); [exact Hon | contradiction | exact Hon].
Qed.

(** X24.  Rebuilding the chains always comes to an end: the recursion is no
    deeper than the number of nodes plus one, in a graph with loops as in
    one without, since a chain holds each filter once.  With that much fuel
    or more the model does not run out of it, and gives the same outcome
    whatever the amount. *)
Theorem recalculate_filter_chains_terminates (fuel : nat) (inputGateNodes : list nat) :
  (List.length (nodes g) < fuel)%nat ->
  recalculate_filter_chains g fuel inputGateNodes <> out_of_fuel
  /\ recalculate_filter_chains g fuel inputGateNodes
     = recalculate_filter_chains g (S (List.length (nodes g))) inputGateNodes.
Proof.
  intros Hfuel. unfold recalculate_filter_chains, and_then.
  assert (Hstart : forall node,
             traverse_filter_node g (S (List.length (nodes g))) node [] <> out_of_fuel).
  { intros node. apply enough_fuel; [constructor | intros x [] |].
    pose proof filters_of_graph_length. simpl. lia. }
  assert (Hsame : forall node,
             traverse_filter_node g fuel node []
             = traverse_filter_node g (S (List.length (nodes g))) node []).
  { intros node.
    replace fuel with ((fuel - S (List.length (nodes g))) + S (List.length (nodes g)))%nat
      by lia.
    apply fuel_is_enough, Hstart. }
  assert (Heach : forall outgoing,
             traverse_each g fuel outgoing []
             = traverse_each g (S (List.length (nodes g))) outgoing []
             /\ traverse_each g fuel outgoing [] <> out_of_fuel).
  { induction outgoing as [|next rest (IHsame & IHran)]; simpl;
      [split; [reflexivity | discriminate]|].
    rewrite Hsame, IHsame. split; [reflexivity|].
    unfold and_then. pose proof (Hstart next) as Hnext.
    destruct (traverse_filter_node g (S (List.length (nodes g))) next []);
      try congruence.
    rewrite <- IHsame.
    destruct (traverse_each g fuel rest []); congruence. }
  destruct (Heach (map Some inputGateNodes)) as (Hsame' & Hran).
  rewrite <- Hsame'.
  destruct (traverse_each g fuel (map Some inputGateNodes) []);
    split; congruence.
Qed.

(** X25.  When rebuilding the chains returns, the chains it has submitted are
    exactly the walks of the graph that start at an input gate node of the
    dialog, follow connected edges, end at the first output gate they
    reach, and repeat no filter.  It begins by removing the chains there
    were. *)
Theorem submitted_chains_are_the_loop_free_walks (fuel : nat)
    (inputGateNodes : list nat) (calls : list graph_call) :
  recalculate_filter_chains g fuel inputGateNodes = finished calls ->
  (exists rest, calls = kf_remove_all_filter_chains :: rest)
  /\ forall chain,
       In (kf_add_filter_chain chain) calls
       <-> (NoDup chain
            /\ exists gate, In gate inputGateNodes /\ leads_to_output (Some gate) chain).
Proof.
  unfold recalculate_filter_chains, and_then.
  destruct (traverse_each g fuel (map Some inputGateNodes) []) as [found| |] eqn:Hrun;
    try discriminate.
  intros [= <-]. split; [now exists found|].
  destruct (traverse_each_finished fuel _ _ _ Hrun) as (Hall & Hfrom).
  intros chain. split.
  - intros [Hin | Hin]; [discriminate|].
    destruct (Hfrom _ Hin) as (next & calls_next & Hnext & Hsub & Hcn).
    apply in_map_iff in Hnext. destruct Hnext as (gate & <- & Hgate).
    destruct (submitted_chain_is_a_walk fuel (Some gate) [] calls_next chain Hsub Hcn)
      as (suffix & -> & Hwalk & Hnodup).
    split; [apply Hnodup; constructor|]. exists gate. split; assumption.
  - intros (Hnodup & gate & Hgate & Hwalk). right.
    destruct (Hall (Some gate)) as (calls_gate & Hsub & Hincl); [now apply in_map|].
    apply Hincl.
    exact (walk_is_submitted (Some gate) chain Hwalk fuel [] calls_gate Hnodup Hsub).
Qed.

Lemma loop_message_is_a_return (fuel : nat) :
  forall (node : option nat) (acc : list nat) (calls : list graph_call),
    traverse_filter_node g fuel node acc = finished calls ->
    In kd_show_headless_error_message_loop calls <-> comes_back node acc.
Proof.
  induction fuel as [|fuel IH]; intros node acc calls; [discriminate|].
  rewrite traverse_filter_node_eq.
  destruct node as [n|]; [|discriminate].
  destruct (nth_error (nodes g) n) as [nd|] eqn:Hn; [|discriminate].
  destruct (associatedFilter nd) as [f|] eqn:Hf; [|discriminate].
  destruct (in_chain f acc) eqn:Hseen.
  { intros [= <-]. split; [intros _|intros _; now left].
    apply in_chain_spec in Hseen. exact (back_here n nd f acc Hn Hf Hseen). }
  assert (Hnew : ~ In f acc).
  { intros Hin. apply in_chain_spec in Hin. congruence. }
  assert (Hon : metaData_type g f <> output_gate ->
                traverse_each g fuel (connectedTo nd) (acc ++ [f]) = finished calls ->
                In kd_show_headless_error_message_loop calls <-> comes_back (Some n) acc).
  { intros Htype Hrun.
    destruct (traverse_each_finished fuel _ _ _ Hrun) as (Hall & Hfrom). split.
    - intros Hin.
      destruct (Hfrom _ Hin) as (next & calls_next & Hnext & Hsub & Hcn).
      apply (back_later n nd f next acc Hn Hf Hnew Htype Hnext).
      now apply (IH next (acc ++ [f]) calls_next Hsub).
    - intros Hback.
      inversion Hback as [? nd' f' ? Hn' Hf' Hin | ? nd' f' next ? Hn' Hf' _ _ Hnext Hrest];
        subst; rewrite Hn in Hn'; injection Hn' as <-; rewrite Hf in Hf';
        injection Hf' as <-; [contradiction|].
      destruct (Hall next Hnext) as (calls_next & Hsub & Hincl).
      apply Hincl. now apply (IH next (acc ++ [f]) calls_next Hsub). }
  destruct (metaData_type g f) eqn:Htype.
  - apply Hon. discriminate.
  - intros [= <-]. split; [intros [Hin | []]; discriminate|].
    intros Hback.
    inversion Hback as [? nd' f' ? Hn' Hf' Hin | ? nd' f' next ? Hn' Hf' _ Hnot _ _];
      subst; rewrite Hn in Hn'; injection Hn' as <-; rewrite Hf in Hf';
      injection Hf' as <-; contradiction.
  - apply Hon. discriminate.
Qed.

(** X26.  The message about a loop is shown exactly when some walk from an input
    gate node comes back to a filter that is already on it; chains on other
    walks are submitted all the same. *)
Theorem loop_message_iff_a_walk_comes_back (fuel : nat) (inputGateNodes : list nat)
    (calls : list graph_call) :
  recalculate_filter_chains g fuel inputGateNodes = finished calls ->
  In kd_show_headless_error_message_loop calls
  <-> exists gate, In gate inputGateNodes /\ comes_back (Some gate) [].
Proof.
  unfold recalculate_filter_chains, and_then.
  destruct (traverse_each g fuel (map Some inputGateNodes) []) as [found| |] eqn:Hrun;
    try discriminate.
  intros [= <-].
  destruct (traverse_each_finished fuel _ _ _ Hrun) as (Hall & Hfrom). split.
  - intros [Hin | Hin]; [discriminate|].
    destruct (Hfrom _ Hin) as (next & calls_next & Hnext & Hsub & Hcn).
    apply in_map_iff in Hnext. destruct Hnext as (gate & <- & Hgate).
    exists gate. split; [exact Hgate|].
    now apply (loop_message_is_a_return fuel (Some gate) [] calls_next Hsub).
  - intros (gate & Hgate & Hback). right.
    destruct (Hall (Some gate)) as (calls_gate & Hsub & Hincl); [now apply in_map|].
    apply Hincl. now apply (loop_message_is_a_return fuel (Some gate) [] calls_gate Hsub).
Qed.

End WithGraph.

(** ** A graph with a loop and a chain

    An input gate (filter 10) feeds two filters: 11, which leads to 12 and
    back to 11, and 13, which leads to the output gate (filter 14). *)

Section GraphScenarios.

Definition looped : graph :=
  mk_graph
    [ mk_node (Some 10%nat) [Some 1%nat; Some 3%nat];
      mk_node (Some 11%nat) [Some 2%nat];
      mk_node (Some 12%nat) [Some 1%nat];
      mk_node (Some 13%nat) [Some 4%nat];
      mk_node (Some 14%nat) [] ]
    (fun f => if Nat.eqb f 10 then input_gate
              else if Nat.eqb f 14 then output_gate
              else filter_type f).

(** What rebuilding the chains of this graph does: the loop is reported,
    and the chain through filter 13 is submitted. *)
Definition looped_calls : list graph_call :=
  [ kf_remove_all_filter_chains;
    kd_show_headless_error_message_loop;
    kf_add_filter_chain [10; 13; 14]%nat ].

Lemma recalculate_filter_chains_terminates_witness :
  recalculate_filter_chains looped 9 [0%nat] <> out_of_fuel
  /\ recalculate_filter_chains looped 9 [0%nat]
     = recalculate_filter_chains looped 6 [0%nat].
Proof.
  apply (recalculate_filter_chains_terminates looped 9 [0%nat]). simpl. lia.
Defined.

Lemma submitted_chains_are_the_loop_free_walks_witness :
  NoDup [10; 13; 14]%nat
  /\ exists gate, In gate [0%nat] /\ leads_to_output looped (Some gate) [10; 13; 14]%nat.
Proof.
  apply (proj2 (submitted_chains_are_the_loop_free_walks looped 6 [0%nat] looped_calls
                  eq_refl)).
  right. right. now left.
Defined.

Lemma loop_message_iff_a_walk_comes_back_witness :
  exists gate, In gate [0%nat] /\ comes_back looped (Some gate) [].
Proof.
  apply (loop_message_iff_a_walk_comes_back looped 6 [0%nat] looped_calls eq_refl).
  right. now left.
Defined.

End GraphScenarios.

End FilterGraphFacts.
